(** * The chain indexer of hac-node/agent: a shallow embedding

    The development follows [hac-node/agent/model.go] (the sqlite models) and
    [hac-node/agent/client.go] (the [ChainIndexer]: event handlers, vote
    reconciliation [handleVote], account lookup [queryAccount] and the
    polling loop [Start]).

    - Go's [uint64] and [int64] are [Z] with the wrap-around written out
      ([u64], [i64]).
    - A table of the record store is the list of its rows; the gorm calls the
      indexer makes ([First], [Where(..).First], [Save], [Create]) are
      functions on such lists.
    - The chain RPC service, the advisory agent and the failures of the
      store are an oracle, a [World]; the indexer is a state-passing
      program over [ChainIndexer] whose runs end in a value or in a Go
      panic (a nil dereference). *)

From Stdlib Require Import ZArith List String Ascii Bool Lia.
Import ListNotations.
Local Open Scope Z_scope.

Set Implicit Arguments.

(** ** Machine integers *)

Definition u64 (z : Z) : Z := z mod 2 ^ 64.
Definition i64 (z : Z) : Z := (z + 2 ^ 63) mod 2 ^ 64 - 2 ^ 63.

(** ** encoding/hex and fmt, as far as [queryAccount] uses them *)

Definition fromHexChar (c : ascii) : option Z :=
  let n := Z.of_nat (nat_of_ascii c) in
  if (48 <=? n) && (n <=? 57) then Some (n - 48)
  else if (97 <=? n) && (n <=? 102) then Some (n - 97 + 10)
  else if (65 <=? n) && (n <=? 70) then Some (n - 65 + 10)
  else None.

(** [hex.DecodeString]: [None] is [ErrLength] or an [InvalidByteError]. *)
Fixpoint DecodeString (s : string) : option (list Z) :=
  match s with
  | EmptyString => Some []
  | String _ EmptyString => None
  | String a (String b rest) =>
      match fromHexChar a, fromHexChar b, DecodeString rest with
      | Some x, Some y, Some l => Some (16 * x + y :: l)
      | _, _, _ => None
      end
  end.

Definition hexdigit (upper : bool) (d : Z) : ascii :=
  ascii_of_nat (Z.to_nat (if d <? 10 then 48 + d
                          else if upper then 55 + d else 87 + d)).

(** The digits of [n] in base 16, most significant first; sixteen digits
    are enough for a [uint64]. *)
Fixpoint hex_digits (fuel : nat) (n : Z) (acc : string) : string :=
  match fuel with
  | O => acc
  | S fuel' =>
      let acc' := String (hexdigit false (n mod 16)) acc in
      if n / 16 =? 0 then acc' else hex_digits fuel' (n / 16) acc'
  end.

(** [fmt.Sprintf("%x", index)] *)
Definition Sprintf_x (index : Z) : string := hex_digits 16 index EmptyString.

(** [HexBytes.String]: upper-case hexadecimal of the address bytes. *)
Fixpoint HexBytes_String (bz : list Z) : string :=
  match bz with
  | [] => EmptyString
  | b :: rest =>
      String (hexdigit true (b / 16))
             (String (hexdigit true (b mod 16)) (HexBytes_String rest))
  end.

(** ** model.go: the sqlite models *)

Module Height.
Record t := mk { Id : Z; Height : Z }.
End Height.

(** Modelled from the spec: the fields [Stake] and [AgentUrl].  [model.go]
    declares [Id], [Address] and [Character] only, and no file declares the
    two fields that the composite literal of [handleEventGrant] names; the
    spec gives a validator an on-chain address, a service-endpoint
    reference and a stake amount, and the record has them under the names
    of the literal.  A field a literal leaves out has Go's zero value. *)
Module Validator.
Record t := mk {
    Id : Z; Address : string; Character : string;
    Stake : Z; AgentUrl : string }.
End Validator.

Module Proposal.
Record t := mk {
    Id : Z; ProposerIndex : Z; ProposerAddress : string; Data : string;
    NewHeight : Z; SettleHeight : Z; Status : Z }.
Definition zero : t := mk 0 0 "" "" 0 0 0.
End Proposal.

Module Grant.
Record t := mk {
    Id : Z; Address : string; Height : Z; Stake : Z; Proposer : Z;
    ProposerAddress : string; Grant : bool }.
Definition zero : t := mk 0 "" 0 0 0 "" false.
End Grant.

Module ProposalVote.
Record t := mk {
    Id : Z; Proposal : Z; VoterIndex : Z; VoterAddress : string;
    Height : Z; Vote : Z }.
End ProposalVote.

Module GrantVote.
Record t := mk {
    Id : Z; ProposerIndex : Z; ProposerAddress : string; AccountIndex : Z;
    AccountAddr : string; VoterIndex : Z; VoterAddress : string;
    Height : Z; Vote : Z }.
End GrantVote.

Module Discussion.
Record t := mk {
    Id : Z; Proposal : Z; SpeakerIndex : Z; SpeakerAddress : string;
    Data : string; Height : Z }.
End Discussion.

(** ** The record store: gorm over sqlite

    Every model has the primary key [Id].  A blank (zero) primary key is
    gorm's mark of a row that has no key yet: [Save] and [Create] of such a
    value insert it under the next key of the table's auto-increment
    sequence, and [Save] of a value with a key updates the row of that key
    or inserts it when there is none. *)

Class Model (R : Type) := {
  pk : R -> Z;
  set_pk : Z -> R -> R;
  pk_set_pk : forall k r, pk (set_pk k r) = k
}.

#[global] Instance Height_Model : Model Height.t :=
  {| pk := Height.Id;
     set_pk k r := Height.mk k (Height.Height r);
     pk_set_pk := fun _ _ => eq_refl |}.

#[global] Instance Validator_Model : Model Validator.t :=
  {| pk := Validator.Id;
     set_pk k r := Validator.mk k (Validator.Address r) (Validator.Character r)
                                (Validator.Stake r) (Validator.AgentUrl r);
     pk_set_pk := fun _ _ => eq_refl |}.

#[global] Instance Proposal_Model : Model Proposal.t :=
  {| pk := Proposal.Id;
     set_pk k r := Proposal.mk k (Proposal.ProposerIndex r)
                     (Proposal.ProposerAddress r) (Proposal.Data r)
                     (Proposal.NewHeight r) (Proposal.SettleHeight r)
                     (Proposal.Status r);
     pk_set_pk := fun _ _ => eq_refl |}.

#[global] Instance Grant_Model : Model Grant.t :=
  {| pk := Grant.Id;
     set_pk k r := Grant.mk k (Grant.Address r) (Grant.Height r)
                     (Grant.Stake r) (Grant.Proposer r)
                     (Grant.ProposerAddress r) (Grant.Grant r);
     pk_set_pk := fun _ _ => eq_refl |}.

#[global] Instance ProposalVote_Model : Model ProposalVote.t :=
  {| pk := ProposalVote.Id;
     set_pk k r := ProposalVote.mk k (ProposalVote.Proposal r)
                     (ProposalVote.VoterIndex r) (ProposalVote.VoterAddress r)
                     (ProposalVote.Height r) (ProposalVote.Vote r);
     pk_set_pk := fun _ _ => eq_refl |}.

#[global] Instance GrantVote_Model : Model GrantVote.t :=
  {| pk := GrantVote.Id;
     set_pk k r := GrantVote.mk k (GrantVote.ProposerIndex r)
                     (GrantVote.ProposerAddress r) (GrantVote.AccountIndex r)
                     (GrantVote.AccountAddr r) (GrantVote.VoterIndex r)
                     (GrantVote.VoterAddress r) (GrantVote.Height r)
                     (GrantVote.Vote r);
     pk_set_pk := fun _ _ => eq_refl |}.

#[global] Instance Discussion_Model : Model Discussion.t :=
  {| pk := Discussion.Id;
     set_pk k r := Discussion.mk k (Discussion.Proposal r)
                     (Discussion.SpeakerIndex r) (Discussion.SpeakerAddress r)
                     (Discussion.Data r) (Discussion.Height r);
     pk_set_pk := fun _ _ => eq_refl |}.

Section Tables.
Context {R : Type} `{Model R}.

Definition table := list R.

(** The largest key in use (0 for an empty table). *)
Definition max_pk (t : table) : Z := fold_right Z.max 0 (map pk t).

(** The key sqlite gives the next row inserted without one. *)
Definition next_pk (t : table) : Z := 1 + max_pk t.

(** [Where(p).First(&out)]: the matching row of the least primary key
    (gorm orders [First] by primary key); [None] is [ErrRecordNotFound],
    which leaves [out] as it was. *)
Fixpoint first_where (p : R -> bool) (t : table) : option R :=
    match t with
    | [] => None
    | r :: t' =>
        match first_where p t' with
        | Some r' => if p r && (pk r <=? pk r') then Some r else Some r'
        | None => if p r then Some r else None
        end
    end.

(** [First(&out, id)]: the row of that primary key. *)
Definition first_pk (k : Z) (t : table) : option R :=
    first_where (fun r => pk r =? k) t.

(** [Create(&r)] of a row with a blank key. *)
Definition create (r : R) (t : table) : table :=
    t ++ [if pk r =? 0 then set_pk (next_pk t) r else r].

(** [Save(&r)]. *)
Definition save (r : R) (t : table) : table :=
    if pk r =? 0 then create r t
    else if existsb (fun x => pk x =? pk r) t
         then map (fun x => if pk x =? pk r then r else x) t
         else create r t.
(** The row [Save] or [Create] stores for [r]. *)
Definition stored (r : R) (t : table) : R :=
  if pk r =? 0 then set_pk (next_pk t) r else r.

End Tables.

Arguments table R : clear implicits.

(** ** What the indexer imports

    [abci.Event], the typed events and decoders of [hac_types], the
    account of [state] and the commit of the RPC client are declared outside
    the two files; the records below have the fields the indexer reads, and
    the decoders and the event-type constants are taken as parameters. *)

Module Event.
Record t := mk { Type_ : string; Attributes : list (string * string) }.
End Event.

Module EventGrant.
Record t := mk {
  Validator : Z; Address : string; Amount : Z; ProposerIndex : Z;
  ProposerAddress : string; Grant : bool; AgentUrl : string }.
End EventGrant.

Module EventDiscussion.
Record t := mk {
  Proposal : Z; Speaker : Z; SpeakerAddress : string; Data : string }.
End EventDiscussion.

Module EventSettleProposal.
Record t := mk { Proposal : Z; State : Z }.
End EventSettleProposal.

Module EventProposal.
Record t := mk {
  ProposalIndex : Z; Proposer : Z; ProposerAddress : string;
  Data : string; Status : Z }.
End EventProposal.

Module Account.
Record t := mk { Index : Z; Address : string }.
End Account.

Module CommitSig.
Record t := mk { ValidatorAddress : list Z; VoteCode : Z }.
End CommitSig.

Module ResultCommit.
Record t := mk { Height : Z; Signatures : list CommitSig.t }.
End ResultCommit.

Module ResponseQuery.
Record t := mk { Code : Z; Value : string }.
End ResponseQuery.

Class hac_types := {
  EventGrantType : string;
  EventDiscussionType : string;
  EventSettleProposalType : string;
  EventProposalType : string;
  ParseEventGrant : Event.t -> option EventGrant.t;
  DecodeEventDiscussion : Event.t -> option EventDiscussion.t;
  DecodeEventSettleProposal : Event.t -> option EventSettleProposal.t;
  DecodeEventProposal : Event.t -> option EventProposal.t;
  (** [state.Account.UnmarshalJSON] *)
  UnmarshalJSON : string -> option Account.t
}.

(** ** Errors and the log *)

Inductive db_op : Type :=
| OpOpen
| OpAutoMigrate
| OpFirstHeight
| OpSaveHeight (h : Height.t)
| OpSaveGrant (g : Grant.t)
| OpSaveValidator (v : Validator.t)
| OpSaveDiscussion (d : Discussion.t)
| OpFirstProposal (id : Z)
| OpSaveProposal (p : Proposal.t)
| OpWhereNewHeight (h : Z)
| OpWhereSettleHeight (h : Z)
| OpWhereGrantHeight (h : Z)
| OpFirstProposalVote (height voter : Z)
| OpCreateProposalVote (v : ProposalVote.t)
| OpFirstGrantVote (height voter : Z)
| OpCreateGrantVote (v : GrantVote.t).

Inductive error : Type :=
| ErrRecordNotFound
| ErrStore (op : db_op)
| ErrDial
| ErrRPC
| ErrInvalidHex
| ErrResponseCode
| ErrUnmarshal
| ErrSigAddress (address : string)
| ErrAgent.

(** [err != gorm.ErrRecordNotFound] *)
Definition not_ErrRecordNotFound (e : error) : bool :=
  match e with ErrRecordNotFound => false | _ => true end.

Inductive Value : Type :=
| VZ (z : Z)
| VString (s : string)
| VErr (e : error)
| VEvent (e : Event.t).

Inductive LogEntry : Type :=
| Info (msg : string) (keyvals : list (string * Value))
| Error (msg : string) (keyvals : list (string * Value)).

(** ** The outside: chain RPC service, advisory agent, store failures

    One [World] answers the calls of one pass of the indexer (the head
    query of a tick, or one height of the catch-up loop).  An RPC answer
    [None] is a call that returned [nil, err].

    The advisory agent is the package variable [ElizaCli], which neither
    file assigns: the program that starts the indexer does.  The last
    three fields are the answers of the client it was given; an indexer
    started without one (a nil [ElizaCli], on which the first call of a
    Discussion or Proposal handler panics, after its write to the store) is
    outside these worlds. *)

Record World := {
  Status : option Z;
  BlockResults : Z -> option (list (list Event.t));
  Commit : Z -> option ResultCommit.t;
  ABCIQuery : string -> list Z -> option ResponseQuery.t;
  IsRunning : bool;
  Dial : bool;
  db_fails : db_op -> bool;
  AddDiscussion : Z -> string -> string -> option error;
  AddProposal : Z -> string -> string -> option error;
  CommentPropoal : Z -> string -> string + error
}.

(** ** The indexer's state *)

Module DB.
Record t := mk {
  heights : table Height.t;
  validators : table Validator.t;
  proposals : table Proposal.t;
  grants : table Grant.t;
  proposal_votes : table ProposalVote.t;
  grant_votes : table GrantVote.t;
  discussions : table Discussion.t }.
Definition empty : t := mk [] [] [] [] [] [] [].
Definition with_heights f (d : t) : t :=
  mk (f (heights d)) (validators d) (proposals d) (grants d)
     (proposal_votes d) (grant_votes d) (discussions d).
Definition with_validators f (d : t) : t :=
  mk (heights d) (f (validators d)) (proposals d) (grants d)
     (proposal_votes d) (grant_votes d) (discussions d).
Definition with_proposals f (d : t) : t :=
  mk (heights d) (validators d) (f (proposals d)) (grants d)
     (proposal_votes d) (grant_votes d) (discussions d).
Definition with_grants f (d : t) : t :=
  mk (heights d) (validators d) (proposals d) (f (grants d))
     (proposal_votes d) (grant_votes d) (discussions d).
Definition with_proposal_votes f (d : t) : t :=
  mk (heights d) (validators d) (proposals d) (grants d)
     (f (proposal_votes d)) (grant_votes d) (discussions d).
Definition with_grant_votes f (d : t) : t :=
  mk (heights d) (validators d) (proposals d) (grants d)
     (proposal_votes d) (f (grant_votes d)) (discussions d).
Definition with_discussions f (d : t) : t :=
  mk (heights d) (validators d) (proposals d) (grants d)
     (proposal_votes d) (grant_votes d) (f (discussions d)).
End DB.

(** The persisted IndexProgress height: the [Height] row of key 1, 0 when
    there is none. *)
Definition persisted (d : DB.t) : Z :=
  match first_pk 1 (DB.heights d) with
  | Some h => Height.Height h
  | None => 0
  end.

Inductive HTTP : Type := mkHTTP (remote : string).

Module ChainIndexer.
Record t := mk {
  logger : list LogEntry;
  Url : string;
  Height : Z;
  db : DB.t;
  cli : option HTTP }.
Definition with_log e (c : t) : t :=
  mk (logger c ++ [e]) (Url c) (Height c) (db c) (cli c).
Definition with_Height h (c : t) : t :=
  mk (logger c) (Url c) h (db c) (cli c).
Definition with_db f (c : t) : t :=
  mk (logger c) (Url c) (Height c) (f (db c)) (cli c).
Definition with_cli x (c : t) : t :=
  mk (logger c) (Url c) (Height c) (db c) x.
End ChainIndexer.

(** ** Programs over the indexer: a value, or a panic, and the state *)

Inductive Result (A : Type) : Type :=
| Ok (a : A) (c : ChainIndexer.t)
| Panic (c : ChainIndexer.t).
Arguments Panic {A} c.

Definition M (A : Type) : Type := ChainIndexer.t -> Result A.

Definition ret {A} (a : A) : M A := fun c => Ok a c.

Definition bind {A B} (m : M A) (k : A -> M B) : M B :=
  fun c => match m c with
           | Ok a c' => k a c'
           | Panic c' => Panic c'
           end.

Definition panic {A} : M A := fun c => Panic c.

Notation "x <- m ;; k" := (bind m (fun x => k))
  (at level 61, m at next level, right associativity).
Notation "m ;; k" := (bind m (fun _ => k))
  (at level 61, right associativity).
Notation "' pat <- m ;; k" :=
  (bind m (fun x => match x with pat => k end))
  (at level 61, pat pattern, m at next level, right associativity).

Definition state_of {A} (r : Result A) : ChainIndexer.t :=
  match r with Ok _ c => c | Panic c => c end.

Definition log (e : LogEntry) : M unit :=
  fun c => Ok tt (ChainIndexer.with_log e c).

(** [if err != nil { c.logger.Error(msg, "err", err) }] *)
Definition log_err (msg : string) (err : option error) : M unit :=
  match err with
  | Some e => log (Error msg [("err"%string, VErr e)])
  | None => ret tt
  end.

(** A method call on [c.cli]: a nil client is a nil dereference. *)
Definition the_cli : M HTTP :=
  fun c => match ChainIndexer.cli c with
           | Some h => Ok h c
           | None => Panic c
           end.

(** [c.cli, err = comethttp.New(c.Url, "/websocket")] *)
Definition connect (w : World) : M (option error) :=
  fun c => if Dial w
           then Ok None (ChainIndexer.with_cli
                           (Some (mkHTTP (ChainIndexer.Url c))) c)
           else Ok (Some ErrDial) (ChainIndexer.with_cli None c).

(** The block every RPC call site repeats after a failed call:
    [[
      if !c.cli.IsRunning() {
          c.cli.Stop()
          c.cli, err = comethttp.New(c.Url, "/websocket")
          if err != nil { c.logger.Error("reconnect fail", "err", err); <leave> }
      }
    ]]
    The result is the error that makes the caller leave, if any. *)
Definition reconnect_unless_running (w : World) : M (option error) :=
  if IsRunning w then ret None
  else err <- connect w ;;
       log_err "reconnect fail" err ;;
       ret err.

(** A store write: it fails as the world says, or applies [f]. *)
Definition db_exec (w : World) (op : db_op) (f : DB.t -> DB.t)
  : M (option error) :=
  fun c => if db_fails w op then Ok (Some (ErrStore op)) c
           else Ok None (ChainIndexer.with_db f c).

(** A store read [First(&out)]: the value of [out] after the call and the
    error. *)
Definition db_first {R} (w : World) (op : db_op) (q : DB.t -> option R)
    (out : R) : M (R * option error) :=
  fun c => if db_fails w op then Ok (out, Some (ErrStore op)) c
           else match q (ChainIndexer.db c) with
                | Some r => Ok (r, None) c
                | None => Ok (out, Some ErrRecordNotFound) c
                end.

(** ** client.go: the ChainIndexer *)

Section Indexer.
Context `{hac_types}.

Local Open Scope string_scope.
Local Open Scope Z_scope.

Definition eventHandler : Type := World -> Event.t -> Z -> M unit.

Definition decode_fail (event : Event.t) : M unit :=
  log (Error "decode event fail" [("event", VEvent event)]).

Definition handleEventGrant : eventHandler := fun w event height =>
  match ParseEventGrant event with
  | None => decode_fail event
  | Some ev =>
      let grant := {|
        Grant.Id := EventGrant.Validator ev;
        Grant.Address := EventGrant.Address ev;
        Grant.Height := u64 height;
        Grant.Stake := EventGrant.Amount ev;
        Grant.Proposer := EventGrant.ProposerIndex ev;
        Grant.ProposerAddress := EventGrant.ProposerAddress ev;
        Grant.Grant := EventGrant.Grant ev |} in
      err <- db_exec w (OpSaveGrant grant) (DB.with_grants (save grant)) ;;
      log_err "save account fail" err ;;
      let val := {|
        Validator.Id := EventGrant.Validator ev;
        Validator.Address := EventGrant.Address ev;
        Validator.Character := "";
        Validator.Stake := EventGrant.Amount ev;
        Validator.AgentUrl := EventGrant.AgentUrl ev |} in
      err <- db_exec w (OpSaveValidator val) (DB.with_validators (save val)) ;;
      log_err "save validator fail" err
  end.

Definition handleEventDiscussion : eventHandler := fun w event height =>
  match DecodeEventDiscussion event with
  | None => decode_fail event
  | Some ev =>
      let discusstion := {|
        Discussion.Id := 0;
        Discussion.Proposal := EventDiscussion.Proposal ev;
        Discussion.SpeakerIndex := EventDiscussion.Speaker ev;
        Discussion.SpeakerAddress := EventDiscussion.SpeakerAddress ev;
        Discussion.Data := EventDiscussion.Data ev;
        Discussion.Height := u64 height |} in
      err <- db_exec w (OpSaveDiscussion discusstion)
               (DB.with_discussions (save discusstion)) ;;
      log_err "save discusstion fail" err ;;
      log_err "add discussion fail"
        (AddDiscussion w (EventDiscussion.Proposal ev)
           (EventDiscussion.SpeakerAddress ev) (EventDiscussion.Data ev))
  end.

Definition handleEventSettleProposal : eventHandler := fun w event height =>
  match DecodeEventSettleProposal event with
  | None => decode_fail event
  | Some ev =>
      let id := EventSettleProposal.Proposal ev in
      '(proposal, err) <- db_first w (OpFirstProposal id)
                            (fun d => first_pk id (DB.proposals d))
                            Proposal.zero ;;
      match err with
      | Some e => log (Error "get proposal fail" [("err", VErr e)])
      | None =>
          let proposal := {|
            Proposal.Id := Proposal.Id proposal;
            Proposal.ProposerIndex := Proposal.ProposerIndex proposal;
            Proposal.ProposerAddress := Proposal.ProposerAddress proposal;
            Proposal.Data := Proposal.Data proposal;
            Proposal.NewHeight := Proposal.NewHeight proposal;
            Proposal.SettleHeight := u64 height;
            Proposal.Status := u64 (EventSettleProposal.State ev) |} in
          err <- db_exec w (OpSaveProposal proposal)
                   (DB.with_proposals (save proposal)) ;;
          log_err "save proposal fail" err
      end
  end.

Definition handleEventProposal : eventHandler := fun w event height =>
  match DecodeEventProposal event with
  | None => decode_fail event
  | Some ev =>
      let proposal := {|
        Proposal.Id := EventProposal.ProposalIndex ev;
        Proposal.ProposerIndex := EventProposal.Proposer ev;
        Proposal.ProposerAddress := EventProposal.ProposerAddress ev;
        Proposal.Data := EventProposal.Data ev;
        Proposal.NewHeight := u64 height;
        Proposal.SettleHeight := 0;
        Proposal.Status := EventProposal.Status ev |} in
      err <- db_exec w (OpSaveProposal proposal)
               (DB.with_proposals (save proposal)) ;;
      log_err "save proposal fail" err ;;
      log_err "add proposal fail"
        (AddProposal w (EventProposal.ProposalIndex ev)
           (EventProposal.ProposerAddress ev) (EventProposal.Data ev)) ;;
      match CommentPropoal w (EventProposal.ProposalIndex ev)
              (EventProposal.ProposerAddress ev) with
      | inr e => log (Error "comment proposal fail" [("err", VErr e)])
      | inl comment =>
          log (Info "comment proposal" [("comment", VString comment)])
      end
  end.

(** The map [c.eventHandlers] that [NewChainIndexer] builds; a Go map
    literal cannot repeat a constant key, so a lookup finds at most one
    entry. *)
Definition eventHandlers : list (string * eventHandler) :=
  [ (EventGrantType, handleEventGrant);
    (EventDiscussionType, handleEventDiscussion);
    (EventSettleProposalType, handleEventSettleProposal);
    (EventProposalType, handleEventProposal) ].

Fixpoint lookup_handler (m : list (string * eventHandler)) (key : string)
  : option eventHandler :=
  match m with
  | [] => None
  | (k, h) :: m' => if String.eqb k key then Some h else lookup_handler m' key
  end.

Definition handleEvent : eventHandler := fun w event height =>
  match lookup_handler eventHandlers (Event.Type_ event) with
  | Some h => h w event height
  | None => ret tt
  end.

(** The key of the point query: the decoded address, or the index written
    in hexadecimal with an even number of digits. *)
Definition account_key (index : Z) (address : string) : list Z + error :=
  if (0 <? length address)%nat then
    match DecodeString address with
    | Some dat => inl dat
    | None => inr ErrInvalidHex
    end
  else
    let s := String "0" (Sprintf_x index) in
    let s := if Nat.odd (length s) then substring 1 (length s - 1) s else s in
    inl (match DecodeString s with Some dat => dat | None => [] end).

Definition queryAccount (w : World) (index : Z) (address : string)
  : M (option Account.t * option error) :=
  match account_key index address with
  | inr e => ret (None, Some e)
  | inl dat =>
      the_cli ;;
      let res := ABCIQuery w "/accounts/" dat in
      err <- match res with
             | Some _ => ret None
             | None =>
                 log (Error "ABCIQuery fail" [("err", VErr ErrRPC)]) ;;
                 reconnect_unless_running w
             end ;;
      match err with
      | Some e => ret (None, Some e)
      | None =>
          match res with
          | None => panic
          | Some res =>
              if negb (ResponseQuery.Code res =? 0)
              then ret (None, Some ErrResponseCode)
              else match UnmarshalJSON (ResponseQuery.Value res) with
                   | None => ret (None, Some ErrUnmarshal)
                   | Some act => ret (Some act, None)
                   end
          end
      end
  end.

(** The loop over [res.Commit.Signatures] of the new-proposal and of the
    settle-proposal branch of [handleVote]; the two are the same text but
    for the proposal they name.  A result [Some e] is [return e]. *)
Fixpoint proposal_votes_of (w : World) (proposal voteHeight : Z)
    (sigs : list CommitSig.t) : M (option error) :=
  match sigs with
  | [] => ret None
  | v :: rest =>
      let address := HexBytes_String (CommitSig.ValidatorAddress v) in
      '(acc, err) <- queryAccount w 0 address ;;
      match err, acc with
      | Some e, _ => ret (Some e)
      | None, None => ret (Some (ErrSigAddress address))
      | None, Some acc =>
          let voter := Account.Index acc in
          '(_, err) <- db_first w (OpFirstProposalVote voteHeight voter)
              (fun d => first_where
                 (fun r => (ProposalVote.Height r =? voteHeight)
                           && (ProposalVote.VoterIndex r =? voter))
                 (DB.proposal_votes d))
              (ProposalVote.mk 0 0 0 "" 0 0) ;;
          match err with
          | None => proposal_votes_of w proposal voteHeight rest
          | Some e =>
              if not_ErrRecordNotFound e then ret (Some e)
              else
                let vote := {|
                  ProposalVote.Id := 0;
                  ProposalVote.Proposal := proposal;
                  ProposalVote.VoterIndex := voter;
                  ProposalVote.VoterAddress := address;
                  ProposalVote.Height := u64 voteHeight;
                  ProposalVote.Vote := u64 (CommitSig.VoteCode v) |} in
                err <- db_exec w (OpCreateProposalVote vote)
                         (DB.with_proposal_votes (create vote)) ;;
                match err with
                | Some e => ret (Some e)
                | None => proposal_votes_of w proposal voteHeight rest
                end
          end
      end
  end.

(** The loop of the grant branch. *)
Fixpoint grant_votes_of (w : World) (grant : Grant.t) (voteHeight : Z)
    (sigs : list CommitSig.t) : M (option error) :=
  match sigs with
  | [] => ret None
  | v :: rest =>
      let address := HexBytes_String (CommitSig.ValidatorAddress v) in
      '(acc, err) <- queryAccount w 0 address ;;
      match err, acc with
      | Some e, _ => ret (Some e)
      | None, None => ret (Some (ErrSigAddress address))
      | None, Some acc =>
          let voter := Account.Index acc in
          '(_, err) <- db_first w (OpFirstGrantVote voteHeight voter)
              (fun d => first_where
                 (fun r => (GrantVote.Height r =? voteHeight)
                           && (GrantVote.VoterIndex r =? voter))
                 (DB.grant_votes d))
              (GrantVote.mk 0 0 "" 0 "" 0 "" 0 0) ;;
          match err with
          | None => grant_votes_of w grant voteHeight rest
          | Some e =>
              if not_ErrRecordNotFound e then ret (Some e)
              else
                let vote := {|
                  GrantVote.Id := 0;
                  GrantVote.ProposerIndex := Grant.Proposer grant;
                  GrantVote.ProposerAddress := Grant.ProposerAddress grant;
                  GrantVote.AccountIndex := Grant.Id grant;
                  GrantVote.AccountAddr := Grant.Address grant;
                  GrantVote.VoterIndex := voter;
                  GrantVote.VoterAddress := Account.Address acc;
                  GrantVote.Height := u64 voteHeight;
                  GrantVote.Vote := u64 (CommitSig.VoteCode v) |} in
                err <- db_exec w (OpCreateGrantVote vote)
                         (DB.with_grant_votes (create vote)) ;;
                match err with
                | Some e => ret (Some e)
                | None => grant_votes_of w grant voteHeight rest
                end
          end
      end
  end.

(** [if err := q.First(&out).Error; err != nil
        { if err != gorm.ErrRecordNotFound { return err } }]:
    the error that makes [handleVote] return, if any. *)
Definition fatal (err : option error) : option error :=
  match err with
  | Some e => if not_ErrRecordNotFound e then Some e else None
  | None => None
  end.

Definition handleVote (w : World) (height : Z) : M (option error) :=
  the_cli ;;
  let res := Commit w height in
  err <- match res with
         | Some _ => ret None
         | None =>
             log (Error "get Commit fail" [("err", VErr ErrRPC)]) ;;
             reconnect_unless_running w
         end ;;
  match err with
  | Some e => ret (Some e)
  | None =>
  match res with
  | None => panic
  | Some res =>
  let voteHeight := ResultCommit.Height res in
  let sigs := ResultCommit.Signatures res in
  (* new proposal *)
  '(newProposel, err) <- db_first w (OpWhereNewHeight voteHeight)
      (fun d => first_where (fun p => Proposal.NewHeight p =? voteHeight)
                  (DB.proposals d))
      Proposal.zero ;;
  match fatal err with
  | Some e => ret (Some e)
  | None =>
  if negb (Proposal.Id newProposel =? 0)
  then proposal_votes_of w (Proposal.Id newProposel) voteHeight sigs
  else
  (* settle proposal *)
  '(settleProposel, err) <- db_first w (OpWhereSettleHeight voteHeight)
      (fun d => first_where (fun p => Proposal.SettleHeight p =? voteHeight)
                  (DB.proposals d))
      Proposal.zero ;;
  match fatal err with
  | Some e => ret (Some e)
  | None =>
  if negb (Proposal.Id settleProposel =? 0)
  then proposal_votes_of w (Proposal.Id settleProposel) voteHeight sigs
  else
  (* grant grant *)
  '(grant, err) <- db_first w (OpWhereGrantHeight voteHeight)
      (fun d => first_where (fun g => Grant.Height g =? voteHeight)
                  (DB.grants d))
      Grant.zero ;;
  match fatal err with
  | Some e => ret (Some e)
  | None =>
  if negb (Grant.Id grant =? 0)
  then grant_votes_of w grant voteHeight sigs
  else ret None
  end end end end end.

(** [for _, res := range events.TxsResults
       { for _, event := range res.Events { c.handleEvent(ctx, event, c.Height) } }] *)
Fixpoint handle_events (w : World) (events : list Event.t) (height : Z)
  : M unit :=
  match events with
  | [] => ret tt
  | event :: rest => handleEvent w event height ;; handle_events w rest height
  end.

Fixpoint handle_txs (w : World) (txs : list (list Event.t)) (height : Z)
  : M unit :=
  match txs with
  | [] => ret tt
  | res :: rest => handle_events w res height ;; handle_txs w rest height
  end.

(** One pass of the body of [for b.SyncInfo.LatestBlockHeight > c.Height]
    in [Start].  Every [continue] of the body ends the pass; so does its
    last statement.  Nothing between the reads of [c.Height] writes it,
    so it is read once. *)
Definition sync_height (w : World) : M unit :=
  fun c =>
  let height := ChainIndexer.Height c in
  (log (Info "indexer syncing" [("height", VZ height)]) ;;
   the_cli ;;
   let events := BlockResults w height in
   err <- match events with
          | Some _ => ret None
          | None =>
              log (Error "get status fail" [("err", VErr ErrRPC)]) ;;
              reconnect_unless_running w
          end ;;
   match err with
   | Some _ => ret tt
   | None =>
       match events with
       | None => panic
       | Some events =>
           handle_txs w events height ;;
           err <- handleVote w height ;;
           match err with
           | Some e =>
               log (Error "handleVote fail"
                      [("height", VZ height); ("err", VErr e)])
           | None =>
               let h := Height.mk 1 (u64 height) in
               err <- db_exec w (OpSaveHeight h) (DB.with_heights (save h)) ;;
               match err with
               | Some e => log (Error "save height fail" [("err", VErr e)])
               | None =>
                   fun c' =>
                     Ok tt (ChainIndexer.with_Height
                              (i64 (ChainIndexer.Height c' + 1)) c')
               end
           end
       end
   end) c.

(** How a tick is seen to end: the indexer is back at the [select]
    ([Idle]), or the observation (the worlds at hand) ended while the
    condition of the catch-up loop was still true. *)
Inductive LoopEnd : Type := Idle | CatchingUp.

(** [for latest > c.Height { ... }], one world for each pass. *)
Fixpoint catch_up (latest : Z) (ws : list World) : M LoopEnd :=
  fun c =>
  if latest >? ChainIndexer.Height c then
    match ws with
    | [] => Ok CatchingUp c
    | w :: ws' =>
        match sync_height w c with
        | Ok _ c' => catch_up latest ws' c'
        | Panic c' => Panic c'
        end
    end
  else Ok Idle c.

(** The [case <-ticker.C] of [Start]: [w] answers the tick's own calls and
    [ws] the passes of its catch-up loop.  [b.SyncInfo.LatestBlockHeight]
    is an [int64]. *)
Definition tick (w : World) (ws : list World) : M LoopEnd :=
  fun c =>
  (err <- match ChainIndexer.cli c with
          | Some _ => ret None
          | None =>
              err <- connect w ;;
              log_err "connect fail" err ;;
              ret err
          end ;;
   match err with
   | Some _ => ret Idle
   | None =>
       the_cli ;;
       let b := Status w in
       err <- match b with
              | Some _ => ret None
              | None =>
                  log (Error "get status fail" [("err", VErr ErrRPC)]) ;;
                  reconnect_unless_running w
              end ;;
       match err with
       | Some _ => ret Idle
       | None =>
           match b with
           | None => panic
           | Some latest => catch_up (i64 latest) ws
           end
       end
   end) c.

(** [Start]: the ticks until [ctx.Done()].  A tick whose catch-up loop is
    still running when its worlds end is the last one observed. *)
Fixpoint Start (ticks : list (World * list World)) : M unit :=
  match ticks with
  | [] => ret tt
  | (w, ws) :: rest =>
      e <- tick w ws ;;
      match e with
      | Idle => Start rest
      | CatchingUp => ret tt
      end
  end.

(** [NewChainIndexer]: [file] is the content of the database at [dbPath].
    [db.First(&h)] with [h := Height{Id: 1}] reads the row of key 1. *)
Definition NewChainIndexer (w : World) (logger : list LogEntry)
    (file : DB.t) (chainUrl : string) : ChainIndexer.t + error :=
  if negb (Dial w) then inr ErrDial
  else if db_fails w OpOpen then inr (ErrStore OpOpen)
  else if db_fails w OpAutoMigrate then inr (ErrStore OpAutoMigrate)
  else if db_fails w OpFirstHeight then inr (ErrStore OpFirstHeight)
  else
    let h := match first_pk 1 (DB.heights file) with
             | Some h => h
             | None => Height.mk 1 0
             end in
    inl {| ChainIndexer.logger := logger;
           ChainIndexer.Url := chainUrl;
           ChainIndexer.Height := i64 (u64 (Height.Height h + 1));
           ChainIndexer.db := file;
           ChainIndexer.cli := Some (mkHTTP chainUrl) |}.

End Indexer.

(** ** client.go: the read side

    The getters read the store and write nothing.  Their gorm chains are
    [Where(..).Order("id desc").Offset(page * pageSize).Limit(pageSize).Find],
    [Model(..).Where(..).Count] and [Where("id = ?", id).First].  gorm leaves
    a negative limit or offset out of the statement, and sqlite accepts an
    [OFFSET] only after a [LIMIT]. *)

From Stdlib Require Import Permutation Sorted.

Inductive read_op : Type :=
| ReadFind (what : string)
| ReadCount (what : string)
| ReadFirst (what : string).

Inductive read_error : Type :=
| ReadNotFound
| ReadFailed (op : read_op).

Section Queries.
Context {R : Type} `{Model R}.

(** [ORDER BY id desc]: a row goes before the first row whose key is not
    above its own. *)
Fixpoint insert_desc (r : R) (l : list R) : list R :=
  match l with
  | [] => [r]
  | x :: l' => if pk x <=? pk r then r :: l else x :: insert_desc r l'
  end.

Definition order_desc (t : table R) : list R := fold_right insert_desc [] t.

(** [Offset(offset).Limit(limit)] on the ordered rows; [None] is the
    statement sqlite rejects. *)
Definition limit_offset (limit offset : Z) (rows : list R) : option (list R) :=
  if limit <? 0 then
    if offset <? 0 then Some rows else None
  else
    Some (firstn (Z.to_nat limit)
            (if offset <? 0 then rows else skipn (Z.to_nat offset) rows)).

(** [Where(p).Order("id desc").Offset(page * pageSize).Limit(pageSize).Find];
    the product is a Go [int]. *)
Definition find_page (p : R -> bool) (page pageSize : Z) (t : table R)
  : option (list R) :=
  limit_offset pageSize (i64 (page * pageSize)) (order_desc (filter p t)).

(** [Model(..).Where(p).Count(&total)] *)
Definition count_where (p : R -> bool) (t : table R) : Z :=
  Z.of_nat (List.length (filter p t)).

(** A page and the total, as the four getters that count return them:
    the [Find] first, then the [Count]; an error of either is the
    result. *)
Definition paged (fails : read_op -> bool) (what : string) (p : R -> bool)
    (t : table R) (page pageSize : Z) : (list R * Z) + read_error :=
  if fails (ReadFind what) then inr (ReadFailed (ReadFind what))
  else
    match find_page p page pageSize t with
    | None => inr (ReadFailed (ReadFind what))
    | Some rows =>
        if fails (ReadCount what) then inr (ReadFailed (ReadCount what))
        else inl (rows, count_where p t)
    end.

(** A page alone, as the four getters of votes return it. *)
Definition listed (fails : read_op -> bool) (what : string) (p : R -> bool)
    (t : table R) (page pageSize : Z) : list R + read_error :=
  if fails (ReadFind what) then inr (ReadFailed (ReadFind what))
  else
    match find_page p page pageSize t with
    | None => inr (ReadFailed (ReadFind what))
    | Some rows => inl rows
    end.

(** [Where("id = ?", id).First(&out)] with [out] a zero value: the value
    returned and the error. *)
Definition by_id (fails : read_op -> bool) (what : string) (zero : R)
    (id : Z) (t : table R) : R * option read_error :=
  if fails (ReadFirst what) then (zero, Some (ReadFailed (ReadFirst what)))
  else
    match first_pk id t with
    | Some r => (r, None)
    | None => (zero, Some ReadNotFound)
    end.
End Queries.

Section Getters.
Local Open Scope string_scope.
Variable fails : read_op -> bool.
Variable d : DB.t.

Definition getProposals (page pageSize : Z)
  : (list Proposal.t * Z) + read_error :=
  paged fails "proposals" (fun _ => true) (DB.proposals d) page pageSize.

Definition getProposalById (proposalId : Z)
  : Proposal.t * option read_error :=
  by_id fails "proposals" Proposal.zero proposalId (DB.proposals d).

Definition getProposalsByProposerAddr (proposerAddr : string)
    (page pageSize : Z) : (list Proposal.t * Z) + read_error :=
  paged fails "proposals"
    (fun p => String.eqb (Proposal.ProposerAddress p) proposerAddr)
    (DB.proposals d) page pageSize.

Definition getDiscussionByProposal (proposal : Z) (page pageSize : Z)
  : (list Discussion.t * Z) + read_error :=
  paged fails "discussions"
    (fun x => Z.eqb (Discussion.Proposal x) proposal)
    (DB.discussions d) page pageSize.

Definition getGrantById (grantId : Z) : Grant.t * option read_error :=
  by_id fails "grants" Grant.zero grantId (DB.grants d).

Definition getGrants (page pageSize : Z) : (list Grant.t * Z) + read_error :=
  paged fails "grants" (fun _ => true) (DB.grants d) page pageSize.

Definition getProposalVotesByProposal (proposal : Z) (page pageSize : Z)
  : list ProposalVote.t + read_error :=
  listed fails "proposal_votes"
    (fun v => Z.eqb (ProposalVote.Proposal v) proposal)
    (DB.proposal_votes d) page pageSize.

Definition getGrantVotesByGrant (grant : Z) (page pageSize : Z)
  : list GrantVote.t + read_error :=
  listed fails "grant_votes"
    (fun v => Z.eqb (GrantVote.AccountIndex v) grant)
    (DB.grant_votes d) page pageSize.

Definition getProposalVotesByVoter (voter : string) (page pageSize : Z)
  : list ProposalVote.t + read_error :=
  listed fails "proposal_votes"
    (fun v => String.eqb (ProposalVote.VoterAddress v) voter)
    (DB.proposal_votes d) page pageSize.

Definition getGrantVotesByVoter (voter : string) (page pageSize : Z)
  : list GrantVote.t + read_error :=
  listed fails "grant_votes"
    (fun v => String.eqb (GrantVote.VoterAddress v) voter)
    (DB.grant_votes d) page pageSize.

End Getters.

(** ** A concrete chain for the examples

    The event-type constants and the decoders of [hac_types] are not in the
    two files; the examples run the indexer on a small instance of them,
    in which an event carries its fields as decimal attributes. *)

Module Sample.
Local Open Scope string_scope.
Local Open Scope Z_scope.

Fixpoint parse_digits (s : string) (acc : Z) : option Z :=
  match s with
  | EmptyString => Some acc
  | String a rest =>
      let n := Z.of_nat (nat_of_ascii a) in
      if (48 <=? n) && (n <=? 57) then parse_digits rest (10 * acc + (n - 48))
      else None
  end.

Definition parse_uint (s : string) : option Z :=
  match s with
  | EmptyString => None
  | _ => parse_digits s 0
  end.

Fixpoint attr (key : string) (attrs : list (string * string)) : option string :=
  match attrs with
  | [] => None
  | (k, v) :: rest => if String.eqb k key then Some v else attr key rest
  end.

Definition attr_uint (key : string) (e : Event.t) : option Z :=
  match attr key (Event.Attributes e) with
  | Some v => parse_uint v
  | None => None
  end.

Definition attr_string (key : string) (e : Event.t) : option string :=
  attr key (Event.Attributes e).

Definition parse_grant (e : Event.t) : option EventGrant.t :=
  match attr_uint "validator" e, attr_string "address" e,
        attr_uint "amount" e, attr_uint "proposer" e with
  | Some v, Some a, Some m, Some p =>
      Some (EventGrant.mk v a m p "" true "")
  | _, _, _, _ => None
  end.

Definition decode_discussion (e : Event.t) : option EventDiscussion.t :=
  match attr_uint "proposal" e, attr_uint "speaker" e, attr_string "data" e with
  | Some p, Some s, Some d => Some (EventDiscussion.mk p s "" d)
  | _, _, _ => None
  end.

Definition decode_settle (e : Event.t) : option EventSettleProposal.t :=
  match attr_uint "proposal" e, attr_uint "state" e with
  | Some p, Some s => Some (EventSettleProposal.mk p s)
  | _, _ => None
  end.

Definition decode_proposal (e : Event.t) : option EventProposal.t :=
  match attr_uint "proposal" e, attr_uint "proposer" e, attr_uint "status" e with
  | Some p, Some r, Some s => Some (EventProposal.mk p r "" "" s)
  | _, _, _ => None
  end.

(** An account is stored as its index in decimal. *)
Definition unmarshal_account (value : string) : option Account.t :=
  match parse_uint value with
  | Some i => Some (Account.mk i value)
  | None => None
  end.

#[export] Instance types : hac_types := {|
  EventGrantType := "grant";
  EventDiscussionType := "discussion";
  EventSettleProposalType := "settle_proposal";
  EventProposalType := "proposal";
  ParseEventGrant := parse_grant;
  DecodeEventDiscussion := decode_discussion;
  DecodeEventSettleProposal := decode_settle;
  DecodeEventProposal := decode_proposal;
  UnmarshalJSON := unmarshal_account |}.

Definition ev_proposal (id : string) : Event.t :=
  Event.mk "proposal" [("proposal", id); ("proposer", "3"); ("status", "1")].

Definition ev_settle (id state : string) : Event.t :=
  Event.mk "settle_proposal" [("proposal", id); ("state", state)].

Definition ev_grant (validator amount : string) : Event.t :=
  Event.mk "grant" [("validator", validator); ("address", "AA");
                    ("amount", amount); ("proposer", "1")].

(** Accounts 1, 2 and 3 live at the addresses 01, 02 and 03; nothing
    else resolves.  [known] is the largest address byte that resolves. *)
Definition accounts (known : Z) (path : string) (dat : list Z)
  : option ResponseQuery.t :=
  match dat with
  | [b] => if (1 <=? b) && (b <=? known)
           then Some (ResponseQuery.mk 0 (HexBytes_String [b]))
           else Some (ResponseQuery.mk 1 "")
  | _ => Some (ResponseQuery.mk 1 "")
  end.

Definition sigs : list CommitSig.t :=
  [CommitSig.mk [1] 2; CommitSig.mk [2] 2; CommitSig.mk [3] 1].

(** A chain whose head is [head], whose block [h] holds the events
    [blocks h], whose commits are signed by [sigs], and on which the
    accounts up to [known] resolve. *)
Definition chain (head : Z) (blocks : Z -> list Event.t) (known : Z) : World := {|
  Status := Some head;
  BlockResults h := Some [blocks h];
  Commit h := Some (ResultCommit.mk h sigs);
  ABCIQuery := accounts known;
  IsRunning := true;
  Dial := true;
  db_fails _ := false;
  AddDiscussion _ _ _ := None;
  AddProposal _ _ _ := None;
  CommentPropoal _ _ := inl "" |}.

(** The same chain while its RPC endpoint answers no call. *)
Definition unreachable (running : bool) : World := {|
  Status := None;
  BlockResults _ := None;
  Commit _ := None;
  ABCIQuery _ _ := None;
  IsRunning := running;
  Dial := true;
  db_fails _ := false;
  AddDiscussion _ _ _ := None;
  AddProposal _ _ _ := None;
  CommentPropoal _ _ := inl "" |}.

(** The endpoint answers no call, the client is not running and no new
    client can be dialled. *)
Definition offline : World := {|
  Status := None;
  BlockResults _ := None;
  Commit _ := None;
  ABCIQuery _ _ := None;
  IsRunning := false;
  Dial := false;
  db_fails _ := false;
  AddDiscussion _ _ _ := None;
  AddProposal _ _ _ := None;
  CommentPropoal _ _ := inl "" |}.

Definition ev_discussion (proposal data : string) : Event.t :=
  Event.mk "discussion" [("proposal", proposal); ("speaker", "2");
                         ("data", data)].

(** The chain, over a store that refuses every write of an event
    handler and accepts the others. *)
Definition chain_refusing_events (head : Z) (blocks : Z -> list Event.t)
    (known : Z) : World := {|
  Status := Some head;
  BlockResults h := Some [blocks h];
  Commit h := Some (ResultCommit.mk h sigs);
  ABCIQuery := accounts known;
  IsRunning := true;
  Dial := true;
  db_fails op := match op with
                 | OpSaveGrant _ | OpSaveValidator _ | OpSaveDiscussion _
                 | OpSaveProposal _ => true
                 | _ => false
                 end;
  AddDiscussion _ _ _ := None;
  AddProposal _ _ _ := None;
  CommentPropoal _ _ := inl "" |}.

Definition no_events (h : Z) : list Event.t := [].

(** Proposal 7 is created in block 100. *)
Definition blocks (h : Z) : list Event.t :=
  if h =? 100 then [ev_proposal "7"]
  else if h =? 150 then [ev_settle "7" "2"]
  else [].

Definition indexer (height : Z) (d : DB.t) : ChainIndexer.t :=
  ChainIndexer.mk [] "tcp://localhost:26657" height d
    (Some (mkHTTP "tcp://localhost:26657")).

Definition proposal7 : Proposal.t := Proposal.mk 7 3 "" "" 100 0 1.

Definition db7 : DB.t := DB.with_proposals (fun _ => [proposal7]) DB.empty.

End Sample.


(** ** Vocabulary of the statements *)

(** The heights the catch-up loop announced in a piece of the log. *)
Definition synced_heights (l : list LogEntry) : list Z :=
  flat_map (fun e =>
    match e with
    | Info msg [(_, VZ h)] =>
        if String.eqb msg "indexer syncing" then [h] else []
    | _ => []
    end) l.

(** [m] relates every state to the state it leaves, also when it panics. *)
Definition preserves {A} (R : ChainIndexer.t -> ChainIndexer.t -> Prop)
    (m : M A) : Prop :=
  forall c, R c (state_of (m c)).

(** [c'] has the progress of [c]: the same in-memory height and the same
    [Height] table, and its log adds no announcement of the loop. *)
Record quiet (c c' : ChainIndexer.t) : Prop := {
  quiet_Height : ChainIndexer.Height c' = ChainIndexer.Height c;
  quiet_Url : ChainIndexer.Url c' = ChainIndexer.Url c;
  quiet_heights :
    DB.heights (ChainIndexer.db c') = DB.heights (ChainIndexer.db c);
  quiet_log : exists extra,
    ChainIndexer.logger c' = ChainIndexer.logger c ++ extra
    /\ synced_heights extra = [] }.

(** [c'] differs from [c] in the two vote tables, the log and the client
    at most. *)
Record votes_only (c c' : ChainIndexer.t) : Prop := {
  vo_Height : ChainIndexer.Height c' = ChainIndexer.Height c;
  vo_Url : ChainIndexer.Url c' = ChainIndexer.Url c;
  vo_heights :
    DB.heights (ChainIndexer.db c') = DB.heights (ChainIndexer.db c);
  vo_validators :
    DB.validators (ChainIndexer.db c') = DB.validators (ChainIndexer.db c);
  vo_proposals :
    DB.proposals (ChainIndexer.db c') = DB.proposals (ChainIndexer.db c);
  vo_grants :
    DB.grants (ChainIndexer.db c') = DB.grants (ChainIndexer.db c);
  vo_discussions :
    DB.discussions (ChainIndexer.db c') = DB.discussions (ChainIndexer.db c) }.

(** What the chain answers to the point query for an address, when the
    call itself goes through: the account, or the error [queryAccount]
    returns; [NoAnswer] is a failed call. *)
Inductive answer : Type :=
| Known (acc : Account.t)
| Unknown (e : error)
| NoAnswer.

Definition lookup `{hac_types} (w : World) (address : string) : answer :=
  match account_key 0 address with
  | inr e => Unknown e
  | inl dat =>
      match ABCIQuery w "/accounts/" dat with
      | None => NoAnswer
      | Some res =>
          if negb (ResponseQuery.Code res =? 0) then Unknown ErrResponseCode
          else match UnmarshalJSON (ResponseQuery.Value res) with
               | None => Unknown ErrUnmarshal
               | Some act => Known act
               end
      end
  end.

(** The address [handleVote] looks a signature up by. *)
Definition signer (v : CommitSig.t) : string :=
  HexBytes_String (CommitSig.ValidatorAddress v).

(** The loop over the signatures, with the vote table it fills left
    open: [get] and [set] select the table, [key r voter] is the condition
    of the lookup by height and voter, [new_vote] the row to insert. *)
Section VotesLoop.
Context `{hac_types} {R : Type} `{Model R}.
Variables (w : World) (first_op : Z -> db_op) (create_op : R -> db_op)
  (key : R -> Z -> bool)
  (get : DB.t -> table R) (set : (table R -> table R) -> DB.t -> DB.t)
  (out : R) (new_vote : CommitSig.t -> Account.t -> R).

Fixpoint votes_loop (sigs : list CommitSig.t) : M (option error) :=
  match sigs with
  | [] => ret None
  | v :: rest =>
      '(acc, err) <- queryAccount w 0 (signer v) ;;
      match err, acc with
      | Some e, _ => ret (Some e)
      | None, None => ret (Some (ErrSigAddress (signer v)))
      | None, Some acc =>
          '(_, err) <- db_first w (first_op (Account.Index acc))
              (fun d => first_where (fun r => key r (Account.Index acc)) (get d))
              out ;;
          match err with
          | None => votes_loop rest
          | Some e =>
              if not_ErrRecordNotFound e then ret (Some e)
              else
                err <- db_exec w (create_op (new_vote v acc))
                         (set (create (new_vote v acc))) ;;
                match err with
                | Some e => ret (Some e)
                | None => votes_loop rest
                end
          end
      end
  end.

(** The signer of [v] resolves and has a row in [c]. *)
Definition recorded (c : ChainIndexer.t) (v : CommitSig.t) : Prop :=
  exists acc r, lookup w (signer v) = Known acc
    /\ db_fails w (first_op (Account.Index acc)) = false
    /\ In r (get (ChainIndexer.db c)) /\ key r (Account.Index acc) = true.
End VotesLoop.

Definition proposal_vote_key (voteHeight : Z) (r : ProposalVote.t) (voter : Z)
  : bool :=
  (ProposalVote.Height r =? voteHeight) && (ProposalVote.VoterIndex r =? voter).

Definition new_proposal_vote (proposal voteHeight : Z) (v : CommitSig.t)
    (acc : Account.t) : ProposalVote.t := {|
  ProposalVote.Id := 0;
  ProposalVote.Proposal := proposal;
  ProposalVote.VoterIndex := Account.Index acc;
  ProposalVote.VoterAddress := signer v;
  ProposalVote.Height := u64 voteHeight;
  ProposalVote.Vote := u64 (CommitSig.VoteCode v) |}.

Definition grant_vote_key (voteHeight : Z) (r : GrantVote.t) (voter : Z)
  : bool :=
  (GrantVote.Height r =? voteHeight) && (GrantVote.VoterIndex r =? voter).

Definition new_grant_vote (grant : Grant.t) (voteHeight : Z) (v : CommitSig.t)
    (acc : Account.t) : GrantVote.t := {|
  GrantVote.Id := 0;
  GrantVote.ProposerIndex := Grant.Proposer grant;
  GrantVote.ProposerAddress := Grant.ProposerAddress grant;
  GrantVote.AccountIndex := Grant.Id grant;
  GrantVote.AccountAddr := Grant.Address grant;
  GrantVote.VoterIndex := Account.Index acc;
  GrantVote.VoterAddress := Account.Address acc;
  GrantVote.Height := u64 voteHeight;
  GrantVote.Vote := u64 (CommitSig.VoteCode v) |}.

(** The three lookups of [handleVote] at the height [vh] of the commit. *)
Definition new_proposal_at (d : DB.t) (vh : Z) : option Proposal.t :=
  first_where (fun p => Proposal.NewHeight p =? vh) (DB.proposals d).

Definition settled_proposal_at (d : DB.t) (vh : Z) : option Proposal.t :=
  first_where (fun p => Proposal.SettleHeight p =? vh) (DB.proposals d).

Definition grant_at (d : DB.t) (vh : Z) : option Grant.t :=
  first_where (fun g => Grant.Height g =? vh) (DB.grants d).

(** None of the three lookups fails. *)
Definition lookups_answer (w : World) (vh : Z) : Prop :=
  db_fails w (OpWhereNewHeight vh) = false
  /\ db_fails w (OpWhereSettleHeight vh) = false
  /\ db_fails w (OpWhereGrantHeight vh) = false.

(** No row of the proposals and grants has a blank key. *)
Definition keyed (d : DB.t) : Prop :=
  Forall (fun p => Proposal.Id p <> 0) (DB.proposals d)
  /\ Forall (fun g => Grant.Id g <> 0) (DB.grants d).

Definition or_zero_proposal (o : option Proposal.t) : Proposal.t :=
  match o with Some p => p | None => Proposal.zero end.

Definition or_zero_grant (o : option Grant.t) : Grant.t :=
  match o with Some g => g | None => Grant.zero end.

(** The record [handleVote] reconciles at the height [vh], if any: the
    key of a proposal, or a grant. *)
Definition reconciled (d : DB.t) (vh : Z) : option (Z + Grant.t) :=
  let p := or_zero_proposal (new_proposal_at d vh) in
  if negb (Proposal.Id p =? 0) then Some (inl (Proposal.Id p))
  else
    let p := or_zero_proposal (settled_proposal_at d vh) in
    if negb (Proposal.Id p =? 0) then Some (inl (Proposal.Id p))
    else
      let g := or_zero_grant (grant_at d vh) in
      if negb (Grant.Id g =? 0) then Some (inr g) else None.

(** The key by which a vote row is looked up. *)
Definition proposal_vote_id (r : ProposalVote.t) : Z * Z :=
  (ProposalVote.Height r, ProposalVote.VoterIndex r).

Definition grant_vote_id (r : GrantVote.t) : Z * Z :=
  (GrantVote.Height r, GrantVote.VoterIndex r).

(** The table for the record [k] holds a vote of [voter] at [vh]. *)
Definition has_vote (d : DB.t) (k : Z + Grant.t) (vh voter : Z) : Prop :=
  match k with
  | inl _ => exists r, In r (DB.proposal_votes d)
                       /\ proposal_vote_id r = (vh, voter)
  | inr _ => exists r, In r (DB.grant_votes d)
                       /\ grant_vote_id r = (vh, voter)
  end.

Section PassVocabulary.
Local Open Scope string_scope.

(** The state in which a pass dispatches the events of its height. *)
Definition announced (c : ChainIndexer.t) : ChainIndexer.t :=
  ChainIndexer.with_log
    (Info "indexer syncing" [("height", VZ (ChainIndexer.Height c))]) c.

(** The state a pass leaves when everything went well up to and including
    the write of the height; [c2] is the state after reconciliation. *)
Definition advanced (c2 : ChainIndexer.t) : ChainIndexer.t :=
  let height := ChainIndexer.Height c2 in
  ChainIndexer.with_Height (i64 (height + 1))
    (ChainIndexer.with_db
       (DB.with_heights (save (Height.mk 1 (u64 height)))) c2).

(** [c'] has the progress of [c]. *)
Definition same_progress (c c' : ChainIndexer.t) : Prop :=
  ChainIndexer.Height c' = ChainIndexer.Height c
  /\ DB.heights (ChainIndexer.db c') = DB.heights (ChainIndexer.db c).

End PassVocabulary.

(** The states the indexer resumes from: the in-memory height is an
    [int64] block height, one above the persisted height. *)
Definition resumable (c : ChainIndexer.t) : Prop :=
  1 <= ChainIndexer.Height c <= 2 ^ 63 - 1
  /\ persisted (ChainIndexer.db c) + 1 = ChainIndexer.Height c.

(** From [c] to [c'] neither height decreased, and the heights the loop
    announced in between are at or above the in-memory height of [c]. *)
Definition moves_on (c c' : ChainIndexer.t) : Prop :=
  persisted (ChainIndexer.db c) <= persisted (ChainIndexer.db c')
  /\ ChainIndexer.Height c <= ChainIndexer.Height c'
  /\ exists extra,
       ChainIndexer.logger c' = ChainIndexer.logger c ++ extra
       /\ Forall (fun h => ChainIndexer.Height c <= h) (synced_heights extra).

(** [c'] has no blank key among its proposals and grants if [c] has
    none. *)
Definition keeps_keyed (c c' : ChainIndexer.t) : Prop :=
  keyed (ChainIndexer.db c) -> keyed (ChainIndexer.db c').

(** ** Vocabulary of the read side *)

(** No two rows of the table have the same primary key. *)
Definition unique_keys {R} `{Model R} (t : table R) : Prop :=
  NoDup (map pk t).

(** The keys fall strictly along the list. *)
Definition descending {R} `{Model R} (l : list R) : Prop :=
  StronglySorted (fun a b => pk b < pk a) l.

(** The rows of the pages [0 .. n-1] of a getter that counts, one page
    after the other. *)
Definition pages {R} (get : Z -> (list R * Z) + read_error) (n : nat)
  : list R :=
  flat_map (fun i => match get (Z.of_nat i) with
                     | inl (rows, _) => rows
                     | inr _ => []
                     end) (seq 0 n).

(** The same for a getter that returns the page alone. *)
Definition pages_listed {R} (get : Z -> list R + read_error) (n : nat)
  : list R :=
  flat_map (fun i => match get (Z.of_nat i) with
                     | inl rows => rows
                     | inr _ => []
                     end) (seq 0 n).

(** [rows] is the page [page], of size [pageSize], of the rows [matching]
    taken by falling key: rows of [matching], at most [pageSize] of them,
    by strictly falling key, and none exactly when the page starts at or
    past the end (or the size is 0). *)
Definition slice_of {R} `{Model R} (rows matching : list R)
    (page pageSize : Z) : Prop :=
  (forall r, In r rows -> In r matching)
  /\ Z.of_nat (List.length rows) <= pageSize
  /\ descending rows
  /\ (rows <> [] <->
      page * pageSize < Z.of_nat (List.length matching) /\ 0 < pageSize).

(** The result of a getter that counts is that page, with the number of
    matching rows as the total. *)
Definition is_page {R} `{Model R} (result : (list R * Z) + read_error)
    (matching : list R) (page pageSize : Z) : Prop :=
  exists rows,
    result = inl (rows, Z.of_nat (List.length matching))
    /\ slice_of rows matching page pageSize.

(** The result of a getter of votes is that page. *)
Definition is_listing {R} `{Model R} (result : list R + read_error)
    (matching : list R) (page pageSize : Z) : Prop :=
  exists rows, result = inl rows /\ slice_of rows matching page pageSize.

(** ** Vocabulary of the handlers *)

(** [m] always returns, never panics, and relates the state it starts
    from to the state it leaves. *)
Definition runs {A} (R : ChainIndexer.t -> ChainIndexer.t -> Prop)
    (m : M A) : Prop :=
  forall c, exists a c', m c = Ok a c' /\ R c c'.

(** What the dispatch of events may change: the validators, proposals,
    grants and discussions, and the log.  It leaves the client, the
    in-memory height, the URL, the [Height] table and both vote tables,
    and the discussions it found stay where they are. *)
Record dispatched (c c' : ChainIndexer.t) : Prop := {
  dp_cli : ChainIndexer.cli c' = ChainIndexer.cli c;
  dp_Height : ChainIndexer.Height c' = ChainIndexer.Height c;
  dp_Url : ChainIndexer.Url c' = ChainIndexer.Url c;
  dp_heights :
    DB.heights (ChainIndexer.db c') = DB.heights (ChainIndexer.db c);
  dp_proposal_votes :
    DB.proposal_votes (ChainIndexer.db c')
    = DB.proposal_votes (ChainIndexer.db c);
  dp_grant_votes :
    DB.grant_votes (ChainIndexer.db c') = DB.grant_votes (ChainIndexer.db c);
  dp_discussions : exists added,
    DB.discussions (ChainIndexer.db c')
    = DB.discussions (ChainIndexer.db c) ++ added;
  dp_logger : exists added,
    ChainIndexer.logger c' = ChainIndexer.logger c ++ added }.

(** ** Vocabulary of the account query *)

(** A byte of a [[]byte]. *)
Definition is_byte (b : Z) : Prop := 0 <= b < 256.

(** The number a byte string writes, most significant byte first. *)
Definition big_endian (bz : list Z) : Z :=
  fold_left (fun a b => 256 * a + b) bz 0.

(** Every value [m] returns satisfies [P]. *)
Definition returns {A} (P : A -> Prop) (m : M A) : Prop :=
  forall c a c', m c = Ok a c' -> P a.

(** The errors [queryAccount] returns. *)
Definition query_error (e : error) : Prop :=
  e = ErrInvalidHex \/ e = ErrDial \/ e = ErrResponseCode \/ e = ErrUnmarshal.

(** An error other than "signature validator address is not account". *)
Definition known_signer_error (e : error) : Prop :=
  forall address, e <> ErrSigAddress address.

Definition no_signer_error (r : option error) : Prop :=
  forall e, r = Some e -> known_signer_error e.

(** The string of a list of hexadecimal digits, in lower case, and the
    number it writes. *)
Definition hex_string (ds : list Z) : string :=
  fold_right (fun d s => String (hexdigit false d) s) EmptyString ds.

Definition hex_number (ds : list Z) : Z :=
  fold_left (fun a d => 16 * a + d) ds 0.

Definition is_digit (d : Z) : Prop := 0 <= d < 16.

(** ** Vocabulary of the store as the indexer leaves it *)

(** No table of the store has a repeated primary key. *)
Definition unique_db (d : DB.t) : Prop :=
  unique_keys (DB.heights d) /\ unique_keys (DB.validators d)
  /\ unique_keys (DB.proposals d) /\ unique_keys (DB.grants d)
  /\ unique_keys (DB.proposal_votes d) /\ unique_keys (DB.grant_votes d)
  /\ unique_keys (DB.discussions d).

(** [c'] has the property [P] of the store if [c] has it. *)
Definition keeps (P : DB.t -> Prop) (c c' : ChainIndexer.t) : Prop :=
  P (ChainIndexer.db c) -> P (ChainIndexer.db c').

(** ** Vocabulary of the loop *)

(** The heights a run announces, from the in-memory height it starts
    with to the one it ends with: a pass announces the in-memory height
    and leaves it ([walk_retry]) or moves it up by one ([walk_next]). *)
Inductive walk : Z -> list Z -> Z -> Prop :=
| walk_end h : walk h [] h
| walk_retry h l h' : walk h l h' -> walk h (h :: l) h'
| walk_next h l h' : walk (h + 1) l h' -> walk h (h :: l) h'.

(** From [c] the indexer went to [c'] height by height. *)
Definition in_order (c c' : ChainIndexer.t) : Prop :=
  resumable c'
  /\ exists extra,
       ChainIndexer.logger c' = ChainIndexer.logger c ++ extra
       /\ walk (ChainIndexer.Height c) (synced_heights extra)
            (ChainIndexer.Height c').

(** The heights [h, h + 1, ..., h + n - 1]. *)
Fixpoint heights_from (h : Z) (n : nat) : list Z :=
  match n with
  | O => []
  | S n' => h :: heights_from (h + 1) n'
  end.

(** A world in which a pass meets no failure: the store works, the
    block results and the commit of every block height are there, the
    commit is of a height that is a block height, and the chain knows
    every signer. *)
Definition healthy `{hac_types} (w : World) : Prop :=
  (forall op, db_fails w op = false)
  /\ (forall h, BlockResults w h <> None)
  /\ (forall h, 0 <= h < 2 ^ 63 -> exists res,
        Commit w h = Some res
        /\ 0 <= ResultCommit.Height res < 2 ^ 63
        /\ Forall (fun v => exists acc, lookup w (signer v) = Known acc)
             (ResultCommit.Signatures res)).

(** [c'] has the store, the client and the in-memory height of [c]. *)
Definition same_store (c c' : ChainIndexer.t) : Prop :=
  ChainIndexer.db c' = ChainIndexer.db c
  /\ ChainIndexer.cli c' = ChainIndexer.cli c
  /\ ChainIndexer.Height c' = ChainIndexer.Height c.

(** The store refuses every write of an event handler. *)
Definition refuses_events (w : World) : Prop :=
  (forall g, db_fails w (OpSaveGrant g) = true)
  /\ (forall v, db_fails w (OpSaveValidator v) = true)
  /\ (forall d, db_fails w (OpSaveDiscussion d) = true)
  /\ (forall p, db_fails w (OpSaveProposal p) = true).
Unset Implicit Arguments.

Lemma u64_small z : 0 <= z < 2 ^ 64 -> u64 z = z.
Proof. intros Hz. unfold u64. apply Z.mod_small. exact Hz. Qed.

Lemma i64_small z : - 2 ^ 63 <= z < 2 ^ 63 -> i64 z = z.
Proof. intros Hz. unfold i64. rewrite Z.mod_small; lia. Qed.

Lemma i64_range z : - 2 ^ 63 <= i64 z < 2 ^ 63.
Proof.
  unfold i64. pose proof (Z.mod_pos_bound (z + 2 ^ 63) (2 ^ 64)). lia.
Qed.

Lemma NoDup_snoc {A} (l : list A) (y : A) :
  NoDup l -> ~ In y l -> NoDup (l ++ [y]).
Proof.
  induction l as [|x l IH]; simpl; intros Hl Hy.
  - constructor; [tauto|constructor].
  - inversion Hl; subst. constructor.
    + rewrite in_app_iff. simpl. intros [Hx|[Hx|[]]]; [tauto|].
      apply Hy. auto.
    + apply IH; tauto.
Qed.

Section TableFacts.
Context {R : Type} `{Model R}.
Implicit Types (t : table R) (p : R -> bool).

Lemma first_where_Some p t r :
  first_where p t = Some r -> In r t /\ p r = true.
Proof.
  revert r. induction t as [|x t IH]; simpl; intros r Hr; [discriminate|].
  destruct (first_where p t) as [r'|].
  - destruct (p x) eqn:Hx; simpl in Hr.
    + destruct (pk x <=? pk r'); inversion Hr; subst.
      * auto.
      * destruct (IH r eq_refl). auto.
    + inversion Hr; subst. destruct (IH r eq_refl). auto.
  - destruct (p x) eqn:Hx; inversion Hr; subst. auto.
Qed.

Lemma first_where_None p t :
  first_where p t = None <-> (forall r, In r t -> p r = false).
Proof.
  induction t as [|x t IH]; simpl.
  - split; [intros _ r []|reflexivity].
  - destruct (first_where p t) as [r'|].
    + split.
      * destruct (p x && (pk x <=? pk r')); discriminate.
      * intros Hall. destruct IH as [_ IH].
        assert (Some r' = None) by (apply IH; intros; apply Hall; auto).
        discriminate.
    + destruct IH as [IH _]. specialize (IH eq_refl).
      destruct (p x) eqn:Hx; split; try discriminate; auto.
      * intros Hall. rewrite Hall in Hx by auto. discriminate.
      * intros _ r [<-|Hr]; auto.
Qed.

Lemma first_where_found p t r :
  In r t -> p r = true -> exists r', first_where p t = Some r'.
Proof.
  intros Hin Hp. destruct (first_where p t) as [r'|] eqn:E; [eauto|].
  rewrite first_where_None in E. rewrite E in Hp by assumption. discriminate.
Qed.

Lemma first_where_least p t r x :
  first_where p t = Some r -> In x t -> p x = true -> pk r <= pk x.
Proof.
  revert r. induction t as [|y t IH]; simpl; intros r Hr Hin Hp; [tauto|].
  destruct (first_where p t) as [r'|] eqn:E.
  - destruct (p y) eqn:Hy; simpl in Hr.
    + destruct (pk y <=? pk r') eqn:Hle; inversion Hr; subst.
      * destruct Hin as [<-|Hin]; [lia|].
        specialize (IH r' eq_refl Hin Hp). lia.
      * destruct Hin as [<-|Hin]; [lia|]. apply IH; auto.
    + inversion Hr; subst. destruct Hin as [<-|Hin]; [congruence|].
      apply IH; auto.
  - rewrite first_where_None in E.
    destruct (p y) eqn:Hy; inversion Hr; subst.
    destruct Hin as [<-|Hin]; [lia|]. rewrite E in Hp by assumption.
    discriminate.
Qed.

Lemma first_where_snoc_false p t x :
  p x = false -> first_where p (t ++ [x]) = first_where p t.
Proof.
  intros Hx. induction t as [|y t IH]; simpl.
  - rewrite Hx. reflexivity.
  - rewrite IH. reflexivity.
Qed.

Lemma first_where_snoc_new p t x :
  first_where p t = None -> p x = true -> first_where p (t ++ [x]) = Some x.
Proof.
  intros Hn Hx. induction t as [|y t IH]; simpl in *.
  - rewrite Hx. reflexivity.
  - destruct (first_where p t) as [r'|] eqn:E.
    + destruct (p y && (pk y <=? pk r')); discriminate.
    + rewrite IH by reflexivity. destruct (p y); [discriminate|]. reflexivity.
Qed.

Lemma first_where_map p f t :
  (forall x, p (f x) = p x) -> (forall x, p x = true -> f x = x) ->
  first_where p (map f t) = first_where p t.
Proof.
  intros Hp Hf. induction t as [|y t IH]; simpl; [reflexivity|].
  rewrite IH, Hp. destruct (first_where p t) as [r'|].
  - destruct (p y) eqn:Hy; simpl; [|reflexivity].
    rewrite Hf by assumption. reflexivity.
  - destruct (p y) eqn:Hy; [|reflexivity]. rewrite Hf by assumption.
    reflexivity.
Qed.

Lemma max_pk_ge t x : In x t -> pk x <= max_pk t.
Proof.
  unfold max_pk. induction t as [|y t IH]; simpl; [tauto|].
  intros [<-|Hin]; [lia|]. specialize (IH Hin). lia.
Qed.

Lemma max_pk_nonneg t : 0 <= max_pk t.
Proof. unfold max_pk. induction t; simpl; lia. Qed.

Lemma pk_stored_nonzero r t : pk (stored r t) <> 0.
Proof.
  unfold stored. destruct (pk r =? 0) eqn:E.
  - rewrite pk_set_pk. unfold next_pk. pose proof (max_pk_nonneg t). lia.
  - apply Z.eqb_neq. exact E.
Qed.

Lemma first_pk_Some k t r : first_pk k t = Some r -> In r t /\ pk r = k.
Proof.
  unfold first_pk. intros E. apply first_where_Some in E.
  destruct E as [Hin E]. apply Z.eqb_eq in E. auto.
Qed.

Lemma first_pk_save_same r t :
  pk r <> 0 -> first_pk (pk r) (save r t) = Some r.
Proof.
  intros Hr. unfold save, create, first_pk.
  apply Z.eqb_neq in Hr. rewrite Hr.
  destruct (existsb (fun x => pk x =? pk r) t) eqn:Ex.
  - clear Hr. induction t as [|y t IH]; simpl in *; [discriminate|].
    destruct (pk y =? pk r) eqn:Ey; simpl in *.
    + rewrite Z.eqb_refl. simpl.
      destruct (first_where _ (map _ t)) as [r'|] eqn:E; [|reflexivity].
      apply first_where_Some in E. destruct E as [_ E].
      apply Z.eqb_eq in E. rewrite E, Z.leb_refl. reflexivity.
    + rewrite IH by assumption. rewrite Ey. reflexivity.
  - apply first_where_snoc_new.
    + apply first_where_None. intros x Hx.
      destruct (pk x =? pk r) eqn:E; [|reflexivity].
      assert (existsb (fun x => pk x =? pk r) t = true)
        by (apply existsb_exists; eauto).
      congruence.
    + apply Z.eqb_refl.
Qed.

Lemma first_pk_save_other k r t x :
  first_pk k t = Some x -> k <> pk r -> first_pk k (save r t) = Some x.
Proof.
  intros Hx Hk. unfold save, create, first_pk in *.
  assert (Hnew : first_where (fun r0 => pk r0 =? k)
                   (t ++ [if pk r =? 0 then set_pk (next_pk t) r else r])
                 = Some x).
  { rewrite first_where_snoc_false; [assumption|].
    apply Z.eqb_neq. destruct (pk r =? 0); [|congruence].
    rewrite pk_set_pk. apply first_where_Some in Hx. destruct Hx as [Hin Hx].
    apply Z.eqb_eq in Hx. pose proof (max_pk_ge _ _ Hin). unfold next_pk. lia. }
  destruct (pk r =? 0); [assumption|].
  destruct (existsb _ t); [|assumption].
  rewrite first_where_map; [assumption| |].
  - intros y. destruct (pk y =? pk r) eqn:E; [|reflexivity].
    apply Z.eqb_eq in E. rewrite E. reflexivity.
  - intros y Hy. apply Z.eqb_eq in Hy. destruct (pk y =? pk r) eqn:E; auto.
    apply Z.eqb_eq in E. congruence.
Qed.

Lemma first_pk_save_absent k r t :
  first_pk k t = None -> k <> pk (stored r t) ->
  first_pk k (save r t) = None.
Proof.
  intros Hx Hk. unfold save, create, first_pk, stored in *.
  assert (Hnew : first_where (fun r0 => pk r0 =? k)
                   (t ++ [if pk r =? 0 then set_pk (next_pk t) r else r])
                 = None).
  { rewrite first_where_snoc_false; [assumption|].
    apply Z.eqb_neq. congruence. }
  destruct (pk r =? 0) eqn:E0; [assumption|].
  destruct (existsb _ t); [|assumption].
  rewrite first_where_map; [assumption| |].
  - intros y. destruct (pk y =? pk r) eqn:E; [|reflexivity].
    apply Z.eqb_eq in E. rewrite E. reflexivity.
  - intros y Hy. apply Z.eqb_eq in Hy. destruct (pk y =? pk r) eqn:E; auto.
    apply Z.eqb_eq in E. congruence.
Qed.

Lemma save_length_update r t x :
  pk r <> 0 -> first_pk (pk r) t = Some x ->
  List.length (save r t) = List.length t.
Proof.
  intros Hr Hx. unfold save. apply Z.eqb_neq in Hr. rewrite Hr.
  apply first_pk_Some in Hx. destruct Hx as [Hin Hx].
  assert (E : existsb (fun y => pk y =? pk r) t = true).
  { apply existsb_exists. exists x. split; [assumption|]. apply Z.eqb_eq.
    assumption. }
  rewrite E. apply length_map.
Qed.

Lemma save_pk_nonzero r t :
  Forall (fun x => pk x <> 0) t -> Forall (fun x => pk x <> 0) (save r t).
Proof.
  intros Ht. unfold save, create.
  assert (Hnew : Forall (fun x => pk x <> 0)
            (t ++ [if pk r =? 0 then set_pk (next_pk t) r else r])).
  { apply Forall_app. split; [assumption|]. constructor; [|constructor].
    apply (pk_stored_nonzero r t). }
  destruct (pk r =? 0) eqn:E0; [assumption|].
  destruct (existsb _ t); [|assumption].
  apply Forall_map. apply Forall_impl with (2 := Ht). intros y Hy.
  destruct (pk y =? pk r); [|assumption]. apply Z.eqb_neq. assumption.
Qed.

End TableFacts.

(** ** What the parts of the indexer leave alone *)

Section Frames.
Context `{hac_types}.

Lemma quiet_refl c : quiet c c.
Proof. constructor; try reflexivity. exists []. rewrite app_nil_r. auto. Qed.

Lemma synced_heights_app l1 l2 :
  synced_heights (l1 ++ l2) = synced_heights l1 ++ synced_heights l2.
Proof. unfold synced_heights. apply flat_map_app. Qed.

Lemma quiet_trans c1 c2 c3 : quiet c1 c2 -> quiet c2 c3 -> quiet c1 c3.
Proof.
  intros [H1 U1 T1 (e1 & L1 & S1)] [H2 U2 T2 (e2 & L2 & S2)].
  constructor; try congruence.
  exists (e1 ++ e2). rewrite L2, L1, app_assoc, synced_heights_app, S1, S2.
  auto.
Qed.

Lemma votes_only_refl c : votes_only c c.
Proof. constructor; reflexivity. Qed.

Lemma votes_only_trans c1 c2 c3 :
  votes_only c1 c2 -> votes_only c2 c3 -> votes_only c1 c3.
Proof. intros [] []. constructor; congruence. Qed.

Section Preserves.
Variable R : ChainIndexer.t -> ChainIndexer.t -> Prop.
Hypothesis R_refl : forall c, R c c.
Hypothesis R_trans : forall c1 c2 c3, R c1 c2 -> R c2 c3 -> R c1 c3.

Lemma preserves_ret A (a : A) : preserves R (ret a).
Proof. intros c. apply R_refl. Qed.

Lemma preserves_panic A : preserves R (@panic A).
Proof. intros c. apply R_refl. Qed.

Lemma preserves_the_cli : preserves R the_cli.
Proof. intros c. unfold the_cli. destruct (ChainIndexer.cli c); apply R_refl. Qed.

Lemma preserves_bind A B (m : M A) (k : A -> M B) :
  preserves R m -> (forall a, preserves R (k a)) -> preserves R (bind m k).
Proof.
  intros Hm Hk c. unfold bind. specialize (Hm c).
  destruct (m c) as [a c'|c']; simpl in *; [|assumption].
  eapply R_trans; [eassumption|]. apply Hk.
Qed.

Lemma preserves_db_first A w op (q : DB.t -> option A) out :
  preserves R (db_first w op q out).
Proof.
  intros c. unfold db_first. destruct (db_fails w op); [apply R_refl|].
  destruct (q _); apply R_refl.
Qed.

End Preserves.

Lemma quiet_log_err msg err : preserves quiet (log_err msg err).
Proof.
  intros c. destruct err; simpl; [|apply quiet_refl].
  constructor; simpl; try reflexivity.
  eexists [_]; split; [reflexivity|]. reflexivity.
Qed.

Lemma votes_only_log e : preserves votes_only (log e).
Proof. intros c. constructor; reflexivity. Qed.

Lemma votes_only_log_err msg err : preserves votes_only (log_err msg err).
Proof. intros c. destruct err; simpl; constructor; reflexivity. Qed.

Lemma quiet_connect w : preserves quiet (connect w).
Proof.
  intros c. unfold connect. destruct (Dial w); simpl;
    (constructor; simpl; try reflexivity; exists []; rewrite app_nil_r; auto).
Qed.

Lemma votes_only_connect w : preserves votes_only (connect w).
Proof. intros c. unfold connect. destruct (Dial w); constructor; reflexivity. Qed.

Lemma quiet_reconnect w : preserves quiet (reconnect_unless_running w).
Proof.
  unfold reconnect_unless_running. destruct (IsRunning w).
  - apply preserves_ret, quiet_refl.
  - apply preserves_bind; [apply quiet_trans|apply quiet_connect|intros].
    apply preserves_bind; [apply quiet_trans|apply quiet_log_err|intros].
    apply preserves_ret, quiet_refl.
Qed.

Lemma votes_only_reconnect w :
  preserves votes_only (reconnect_unless_running w).
Proof.
  unfold reconnect_unless_running. destruct (IsRunning w).
  - apply preserves_ret, votes_only_refl.
  - apply preserves_bind; [apply votes_only_trans|apply votes_only_connect|intros].
    apply preserves_bind; [apply votes_only_trans|apply votes_only_log_err|intros].
    apply preserves_ret, votes_only_refl.
Qed.

(** A store write that leaves the [Height] table alone. *)
Lemma quiet_db_exec w op f :
  (forall d, DB.heights (f d) = DB.heights d) ->
  preserves quiet (db_exec w op f).
Proof.
  intros Hf c. unfold db_exec. destruct (db_fails w op); simpl.
  - apply quiet_refl.
  - constructor; simpl; auto. exists []. rewrite app_nil_r. auto.
Qed.

End Frames.

(** Decomposes a goal [preserves R m] along the structure of [m]. *)
Ltac frame R_refl R_trans leaf :=
  repeat first
    [ apply (@preserves_ret _ R_refl)
    | apply (@preserves_panic _ R_refl)
    | apply (@preserves_the_cli _ R_refl)
    | apply (@preserves_db_first _ R_refl)
    | apply (@preserves_bind _ R_trans); [|intros]
    | leaf
    | match goal with
      | |- preserves _ (match ?x with _ => _ end) => destruct x
      | |- preserves _ (if ?x then _ else _) => destruct x
      end ].

Ltac quiet_leaf :=
  first [ apply quiet_log_err | apply quiet_reconnect | apply quiet_connect
        | apply quiet_db_exec; intros []; reflexivity
        | (intros ?c; constructor; simpl; try reflexivity;
           eexists [_]; split; reflexivity) ].

Ltac votes_leaf :=
  first [ apply votes_only_log_err | apply votes_only_reconnect
        | apply votes_only_connect | apply votes_only_log
        | (intros ?c; unfold db_exec; destruct (db_fails _ _);
           constructor; reflexivity) ].

Section Frames2.
Context `{hac_types}.

Lemma quiet_handleEventGrant w e h : preserves quiet (handleEventGrant w e h).
Proof. unfold handleEventGrant, decode_fail. frame quiet_refl quiet_trans quiet_leaf. Qed.

Lemma quiet_handleEventDiscussion w e h :
  preserves quiet (handleEventDiscussion w e h).
Proof. unfold handleEventDiscussion, decode_fail. frame quiet_refl quiet_trans quiet_leaf. Qed.

Lemma quiet_handleEventSettleProposal w e h :
  preserves quiet (handleEventSettleProposal w e h).
Proof.
  unfold handleEventSettleProposal, decode_fail.
  frame quiet_refl quiet_trans quiet_leaf.
Qed.

Lemma quiet_handleEventProposal w e h :
  preserves quiet (handleEventProposal w e h).
Proof.
  unfold handleEventProposal, decode_fail.
  frame quiet_refl quiet_trans quiet_leaf.
Qed.

Lemma quiet_handleEvent w e h : preserves quiet (handleEvent w e h).
Proof.
  unfold handleEvent, eventHandlers, lookup_handler.
  repeat match goal with
         | |- context [if ?b then _ else _] => destruct b
         end;
    first [ apply quiet_handleEventGrant | apply quiet_handleEventDiscussion
          | apply quiet_handleEventSettleProposal
          | apply quiet_handleEventProposal
          | apply preserves_ret, quiet_refl ].
Qed.

Lemma quiet_handle_events w es h : preserves quiet (handle_events w es h).
Proof.
  induction es as [|e es IH]; simpl.
  - apply preserves_ret, quiet_refl.
  - apply preserves_bind; [apply quiet_trans|apply quiet_handleEvent|auto].
Qed.

Lemma quiet_handle_txs w txs h : preserves quiet (handle_txs w txs h).
Proof.
  induction txs as [|e es IH]; simpl.
  - apply preserves_ret, quiet_refl.
  - apply preserves_bind; [apply quiet_trans|apply quiet_handle_events|auto].
Qed.

Lemma quiet_queryAccount w i a : preserves quiet (queryAccount w i a).
Proof. unfold queryAccount. frame quiet_refl quiet_trans quiet_leaf. Qed.

Lemma votes_only_queryAccount w i a :
  preserves votes_only (queryAccount w i a).
Proof. unfold queryAccount. frame votes_only_refl votes_only_trans votes_leaf. Qed.

Lemma quiet_proposal_votes_of w p vh sigs :
  preserves quiet (proposal_votes_of w p vh sigs).
Proof.
  induction sigs as [|v sigs IH]; simpl.
  - apply preserves_ret, quiet_refl.
  - frame quiet_refl quiet_trans ltac:(first [apply quiet_queryAccount | apply IH | quiet_leaf]).
Qed.

Lemma votes_only_proposal_votes_of w p vh sigs :
  preserves votes_only (proposal_votes_of w p vh sigs).
Proof.
  induction sigs as [|v sigs IH]; simpl.
  - apply preserves_ret, votes_only_refl.
  - frame votes_only_refl votes_only_trans
      ltac:(first [apply votes_only_queryAccount | apply IH | votes_leaf]).
Qed.

Lemma quiet_grant_votes_of w g vh sigs :
  preserves quiet (grant_votes_of w g vh sigs).
Proof.
  induction sigs as [|v sigs IH]; simpl.
  - apply preserves_ret, quiet_refl.
  - frame quiet_refl quiet_trans ltac:(first [apply quiet_queryAccount | apply IH | quiet_leaf]).
Qed.

Lemma votes_only_grant_votes_of w g vh sigs :
  preserves votes_only (grant_votes_of w g vh sigs).
Proof.
  induction sigs as [|v sigs IH]; simpl.
  - apply preserves_ret, votes_only_refl.
  - frame votes_only_refl votes_only_trans
      ltac:(first [apply votes_only_queryAccount | apply IH | votes_leaf]).
Qed.

Lemma db_same_queryAccount w i a c :
  ChainIndexer.db (state_of (queryAccount w i a c)) = ChainIndexer.db c.
Proof.
  unfold queryAccount, bind, the_cli, ret, panic, log, reconnect_unless_running,
    log_err, connect.
  destruct (account_key i a); [|reflexivity].
  destruct (ChainIndexer.cli c); [|reflexivity].
  destruct (ABCIQuery w _ _) as [res|]; simpl.
  - destruct (negb _); [reflexivity|]. destruct (UnmarshalJSON _); reflexivity.
  - destruct (IsRunning w); [reflexivity|]. unfold bind.
    destruct (Dial w); reflexivity.
Qed.

Lemma quiet_handleVote w h : preserves quiet (handleVote w h).
Proof.
  unfold handleVote.
  frame quiet_refl quiet_trans
    ltac:(first [apply quiet_proposal_votes_of | apply quiet_grant_votes_of
                | quiet_leaf]).
Qed.

Lemma votes_only_handleVote w h : preserves votes_only (handleVote w h).
Proof.
  unfold handleVote.
  frame votes_only_refl votes_only_trans
    ltac:(first [apply votes_only_proposal_votes_of
                | apply votes_only_grant_votes_of | votes_leaf]).
Qed.

End Frames2.

Section Progress.
Context `{hac_types}.
Local Open Scope string_scope.

Lemma quiet_same_progress c c' : quiet c c' -> same_progress c c'.
Proof. intros []. split; assumption. Qed.

(** The pass, written out along its outcomes. *)
Lemma sync_height_eq w c :
  sync_height w c =
  let height := ChainIndexer.Height c in
  match ChainIndexer.cli c with
  | None => Panic (announced c)
  | Some _ =>
      match BlockResults w height with
      | None =>
          match reconnect_unless_running w
                  (ChainIndexer.with_log
                     (Error "get status fail" [("err", VErr ErrRPC)])
                     (announced c)) with
          | Ok (Some _) c' => Ok tt c'
          | Ok None c' => Panic c'
          | Panic c' => Panic c'
          end
      | Some events =>
          match handle_txs w events height (announced c) with
          | Panic c' => Panic c'
          | Ok _ c1 =>
              match handleVote w height c1 with
              | Panic c' => Panic c'
              | Ok (Some e) c2 =>
                  Ok tt (ChainIndexer.with_log
                           (Error "handleVote fail"
                              [("height", VZ height); ("err", VErr e)]) c2)
              | Ok None c2 =>
                  let h := Height.mk 1 (u64 height) in
                  if db_fails w (OpSaveHeight h)
                  then Ok tt (ChainIndexer.with_log
                                (Error "save height fail"
                                   [("err", VErr (ErrStore (OpSaveHeight h)))])
                                c2)
                  else Ok tt (ChainIndexer.with_Height
                                (i64 (ChainIndexer.Height c2 + 1))
                                (ChainIndexer.with_db
                                   (DB.with_heights (save h)) c2))
              end
          end
      end
  end.
Proof.
  unfold sync_height, bind, log, the_cli, announced, db_exec, ret, panic.
  simpl. destruct (ChainIndexer.cli c); [|reflexivity].
  destruct (BlockResults w (ChainIndexer.Height c)).
  - destruct (handle_txs _ _ _ _) as [[] c1|]; [|reflexivity].
    destruct (handleVote _ _ _) as [[e|] c2|]; try reflexivity.
    destruct (db_fails _ _); reflexivity.
  - destruct (reconnect_unless_running _ _) as [[e|] c'|]; reflexivity.
Qed.

Lemma sync_height_cases w c :
  same_progress c (state_of (sync_height w c))
  \/ exists events c1 c2,
       BlockResults w (ChainIndexer.Height c) = Some events
       /\ handle_txs w events (ChainIndexer.Height c) (announced c) = Ok tt c1
       /\ handleVote w (ChainIndexer.Height c) c1 = Ok None c2
       /\ db_fails w (OpSaveHeight (Height.mk 1 (u64 (ChainIndexer.Height c))))
          = false
       /\ ChainIndexer.Height c2 = ChainIndexer.Height c
       /\ sync_height w c = Ok tt (advanced c2).
Proof.
  rewrite sync_height_eq. cbv zeta.
  destruct (ChainIndexer.cli c); [|left; split; reflexivity].
  destruct (BlockResults w (ChainIndexer.Height c)) as [events|].
  - pose proof (quiet_handle_txs w events (ChainIndexer.Height c) (announced c))
      as Q1.
    destruct (handle_txs _ _ _ _) as [[] c1|c1] eqn:E1; simpl in Q1;
      [|left; apply quiet_same_progress in Q1; exact Q1].
    pose proof (quiet_handleVote w (ChainIndexer.Height c) c1) as Q2.
    apply quiet_same_progress in Q1. apply quiet_same_progress in Q2.
    destruct Q1 as [Q1 Q1']. simpl in Q1, Q1'.
    destruct (handleVote _ _ _) as [[e|] c2|c2] eqn:E2; simpl in Q2;
      destruct Q2 as [Q2 Q2'];
      try (left; split; simpl; congruence).
    destruct (db_fails _ _) eqn:F; [left; split; simpl; congruence|].
    right. exists events, c1, c2. repeat split; try congruence.
    unfold advanced. rewrite Q2, Q1. reflexivity.
  - pose proof (quiet_reconnect w (ChainIndexer.with_log
                     (Error "get status fail" [("err", VErr ErrRPC)])
                     (announced c))) as Q.
    apply quiet_same_progress in Q. destruct Q as [Q Q']. simpl in Q, Q'.
    left. destruct (reconnect_unless_running _ _) as [[e|] c'|c']; split; assumption.
Qed.

(** A pass in which reconciliation returns an error, or the write of the
    height fails, leaves the progress as it was. *)
Lemma pass_without_progress w c events c1 :
  BlockResults w (ChainIndexer.Height c) = Some events ->
  handle_txs w events (ChainIndexer.Height c) (announced c) = Ok tt c1 ->
  (exists e c2, handleVote w (ChainIndexer.Height c) c1 = Ok (Some e) c2)
  \/ (exists c2, handleVote w (ChainIndexer.Height c) c1 = Ok None c2
        /\ db_fails w (OpSaveHeight (Height.mk 1 (u64 (ChainIndexer.Height c))))
           = true) ->
  same_progress c (state_of (sync_height w c)).
Proof.
  intros Ev E1 Hfail.
  destruct (sync_height_cases w c)
    as [Hs|(events' & c1' & c2' & Ev' & E1' & E2' & F' & _)]; [exact Hs|].
  exfalso. rewrite Ev in Ev'. inversion Ev'; subst events'.
  rewrite E1 in E1'. inversion E1'; subst c1'.
  destruct Hfail as [(e & c2 & E2)|(c2 & E2 & F)]; congruence.
Qed.

Lemma same_progress_persisted c c' :
  same_progress c c' ->
  persisted (ChainIndexer.db c') = persisted (ChainIndexer.db c).
Proof. intros [_ E]. unfold persisted. rewrite E. reflexivity. Qed.

Lemma persisted_advanced c2 :
  persisted (ChainIndexer.db (advanced c2)) = u64 (ChainIndexer.Height c2).
Proof.
  unfold persisted, advanced. simpl.
  pose proof (first_pk_save_same (Height.mk 1 (u64 (ChainIndexer.Height c2)))
                (DB.heights (ChainIndexer.db c2))) as E.
  cbn [pk Height_Model Height.Id] in E. rewrite E; [reflexivity|discriminate].
Qed.

End Progress.

(** ** The loop over the signatures *)

Section LoopShape.
Context `{hac_types}.

Lemma proposal_votes_of_loop w proposal vh sigs :
  proposal_votes_of w proposal vh sigs =
  votes_loop w (OpFirstProposalVote vh) OpCreateProposalVote
    (proposal_vote_key vh) DB.proposal_votes DB.with_proposal_votes
    (ProposalVote.mk 0 0 0 "" 0 0) (new_proposal_vote proposal vh) sigs.
Proof.
  induction sigs as [|v sigs IH]; simpl; [reflexivity|].
  rewrite IH. reflexivity.
Qed.

Lemma grant_votes_of_loop w grant vh sigs :
  grant_votes_of w grant vh sigs =
  votes_loop w (OpFirstGrantVote vh) OpCreateGrantVote
    (grant_vote_key vh) DB.grant_votes DB.with_grant_votes
    (GrantVote.mk 0 0 "" 0 "" 0 "" 0 0) (new_grant_vote grant vh) sigs.
Proof.
  induction sigs as [|v sigs IH]; simpl; [reflexivity|].
  rewrite IH. reflexivity.
Qed.

Lemma queryAccount_Known w a c acc :
  ChainIndexer.cli c <> None -> lookup w a = Known acc ->
  queryAccount w 0 a c = Ok (Some acc, None) c.
Proof.
  unfold lookup, queryAccount. intros Hc.
  destruct (account_key 0 a) as [dat|e]; [|discriminate].
  unfold bind, the_cli, ret. destruct (ChainIndexer.cli c); [|congruence].
  destruct (ABCIQuery w _ dat) as [res|]; [|discriminate].
  destruct (negb _); [discriminate|].
  destruct (UnmarshalJSON _); [|discriminate].
  intros [= ->]. reflexivity.
Qed.

Lemma queryAccount_Unknown w a c e :
  ChainIndexer.cli c <> None -> lookup w a = Unknown e ->
  queryAccount w 0 a c = Ok (None, Some e) c.
Proof.
  unfold lookup, queryAccount. intros Hc.
  destruct (account_key 0 a) as [dat|e']; [|intros [= ->]; reflexivity].
  unfold bind, the_cli, ret. destruct (ChainIndexer.cli c); [|congruence].
  destruct (ABCIQuery w _ dat) as [res|]; [|discriminate].
  destruct (negb _); [intros [= ->]; reflexivity|].
  destruct (UnmarshalJSON _); [discriminate|].
  intros [= ->]. reflexivity.
Qed.

(** An account comes back only as the chain's answer, and the call that
    brings it leaves the indexer as it was. *)
Lemma queryAccount_account w a c x c' :
  queryAccount w 0 a c = Ok (x, None) c' ->
  c' = c /\ ChainIndexer.cli c <> None /\ exists acc, x = Some acc /\ lookup w a = Known acc.
Proof.
  unfold lookup, queryAccount.
  destruct (account_key 0 a) as [dat|e']; [|discriminate].
  unfold bind, the_cli, ret, panic, log, reconnect_unless_running, connect, log_err.
  destruct (ChainIndexer.cli c) eqn:Hc; [|discriminate].
  destruct (ABCIQuery w _ dat) as [res|].
  - destruct (negb _); [discriminate|].
    destruct (UnmarshalJSON _); [|discriminate].
    intros [= <- <-]. repeat split; [congruence|eauto].
  - simpl. destruct (IsRunning w); [discriminate|].
    unfold bind. destruct (Dial w); simpl; discriminate.
Qed.

End LoopShape.

Section LoopFacts.
Context `{hac_types} {R : Type} `{Model R}.
Variables (w : World) (first_op : Z -> db_op) (create_op : R -> db_op)
  (key : R -> Z -> bool)
  (get : DB.t -> table R) (set : (table R -> table R) -> DB.t -> DB.t)
  (out : R) (new_vote : CommitSig.t -> Account.t -> R).

Hypothesis get_set : forall f d, get (set f d) = f (get d).
Hypothesis new_vote_blank : forall v acc, pk (new_vote v acc) = 0.
Hypothesis key_new_vote :
  forall v acc k, key (set_pk k (new_vote v acc)) (Account.Index acc) = true.

Let loop := votes_loop w first_op create_op key get set out new_vote.
Let rows (c : ChainIndexer.t) : table R := get (ChainIndexer.db c).

Let recorded := recorded w first_op key get.

Lemma rows_create c r :
  rows (ChainIndexer.with_db (set (create r)) c) = create r (rows c).
Proof. unfold rows. simpl. apply get_set. Qed.

Lemma create_new_vote v acc t :
  create (new_vote v acc) t = t ++ [set_pk (next_pk t) (new_vote v acc)].
Proof. unfold create. rewrite new_vote_blank. reflexivity. Qed.

Lemma recorded_create c r v :
  recorded c v -> recorded (ChainIndexer.with_db (set (create r)) c) v.
Proof.
  intros (acc & x & Hl & Hf & Hin & Hk). exists acc, x.
  repeat split; try assumption. simpl. rewrite get_set. unfold create.
  apply in_or_app. auto.
Qed.

(** One step of the loop for a signer who resolves. *)
Lemma loop_step v rest c acc :
  ChainIndexer.cli c <> None -> lookup w (signer v) = Known acc ->
  loop (v :: rest) c =
  if db_fails w (first_op (Account.Index acc))
  then Ok (Some (ErrStore (first_op (Account.Index acc)))) c
  else match first_where (fun r => key r (Account.Index acc)) (rows c) with
       | Some _ => loop rest c
       | None =>
           if db_fails w (create_op (new_vote v acc))
           then Ok (Some (ErrStore (create_op (new_vote v acc)))) c
           else loop rest (ChainIndexer.with_db
                             (set (create (new_vote v acc))) c)
       end.
Proof.
  intros Hc Hl. unfold loop. simpl. unfold bind at 1.
  rewrite (queryAccount_Known _ _ _ _ Hc Hl).
  unfold bind at 1. unfold db_first. fold (rows c).
  destruct (db_fails w (first_op _)); [reflexivity|].
  destruct (first_where _ (rows c)); [reflexivity|]. simpl.
  unfold bind, db_exec. destruct (db_fails w (create_op _)); reflexivity.
Qed.

(** A run that returns no error has resolved every signer and leaves a
    row for each; it only adds rows, and touches neither log nor client. *)
Lemma loop_success sigs : forall c c',
  loop sigs c = Ok None c' ->
  Forall (recorded c') sigs
  /\ (forall v, recorded c v -> recorded c' v)
  /\ ChainIndexer.cli c' = ChainIndexer.cli c
  /\ ChainIndexer.logger c' = ChainIndexer.logger c
  /\ (sigs <> [] -> ChainIndexer.cli c <> None).
Proof.
  induction sigs as [|v sigs IH]; intros c c' Hrun.
  - inversion Hrun; subst. repeat split; auto.
  - assert (Hq : exists acc, ChainIndexer.cli c <> None
                   /\ lookup w (signer v) = Known acc).
    { unfold loop in Hrun. simpl in Hrun. unfold bind at 1 in Hrun.
      destruct (queryAccount w 0 (signer v) c) as [[x [e|]] c1|] eqn:Q;
        [inversion Hrun| |discriminate].
      apply queryAccount_account in Q.
      destruct Q as (-> & Hc & acc & -> & Hl). eauto. }
    destruct Hq as (acc & Hc & Hl).
    rewrite (loop_step _ _ _ _ Hc Hl) in Hrun.
    destruct (db_fails w (first_op _)) eqn:F1; [discriminate|].
    destruct (first_where _ (rows c)) as [r|] eqn:Q.
    + destruct (IH _ _ Hrun) as (Hall & Hmono & Hcli & Hlog & _).
      repeat split; auto. constructor; [|assumption].
      apply Hmono. apply first_where_Some in Q. destruct Q as [Hin Hk].
      exists acc, r. auto.
    + destruct (db_fails w (create_op _)) eqn:F2; [discriminate|].
      destruct (IH _ _ Hrun) as (Hall & Hmono & Hcli & Hlog & _).
      repeat split; auto.
      * constructor; [|assumption]. apply Hmono.
        exists acc, (set_pk (next_pk (rows c)) (new_vote v acc)).
        repeat split; auto.
        simpl. rewrite get_set. fold (rows c). rewrite create_new_vote.
        apply in_or_app. simpl. auto.
      * intros v' Hv'. apply Hmono. apply recorded_create. assumption.
Qed.

(** Where every signer is recorded the loop changes nothing. *)
Lemma loop_recorded sigs c :
  ChainIndexer.cli c <> None -> Forall (recorded c) sigs ->
  loop sigs c = Ok None c.
Proof.
  intros Hc Hall. induction Hall as [|v sigs Hv Hall IH]; [reflexivity|].
  destruct Hv as (acc & r & Hl & Hf & Hin & Hk).
  rewrite (loop_step _ _ _ _ Hc Hl), Hf.
  destruct (first_where_found (fun r => key r (Account.Index acc)) _ _ Hin Hk)
    as [r' Hr'].
  fold (rows c) in Hr'. rewrite Hr'. exact IH.
Qed.

(** Running the loop again after it succeeded changes nothing. *)
Lemma loop_idempotent sigs c c' :
  loop sigs c = Ok None c' -> loop sigs c' = Ok None c'.
Proof.
  intros Hrun. destruct sigs as [|v sigs]; [reflexivity|].
  destruct (loop_success _ _ _ Hrun) as (Hall & _ & Hcli & _ & Hc).
  apply loop_recorded; [|assumption]. rewrite Hcli. apply Hc. discriminate.
Qed.

(** The loop completes where every signer resolves and the store does
    not fail. *)
Lemma loop_completes sigs : forall c,
  ChainIndexer.cli c <> None ->
  Forall (fun v => exists acc, lookup w (signer v) = Known acc) sigs ->
  (forall op, db_fails w op = false) ->
  exists c', loop sigs c = Ok None c'.
Proof.
  induction sigs as [|v sigs IH]; intros c Hc Hall Hdb.
  - exists c. reflexivity.
  - inversion Hall as [|? ? (acc & Hl) Hall']; subst.
    rewrite (loop_step _ _ _ _ Hc Hl), !Hdb.
    destruct (first_where _ (rows c)); apply IH; auto.
Qed.

(** The loop returns an error where the chain answers every query and
    rejects one signer; the client stays as it was. *)
Lemma loop_rejects sigs : forall c,
  ChainIndexer.cli c <> None ->
  Forall (fun v => lookup w (signer v) <> NoAnswer) sigs ->
  Exists (fun v => exists e, lookup w (signer v) = Unknown e) sigs ->
  exists e c', loop sigs c = Ok (Some e) c'
               /\ ChainIndexer.cli c' = ChainIndexer.cli c.
Proof.
  induction sigs as [|v sigs IH]; intros c Hc Hall Hex.
  - inversion Hex.
  - inversion Hall as [|? ? Hv Hall']; subst.
    destruct (lookup w (signer v)) as [acc|e|] eqn:Hl; [| |congruence].
    + assert (Hex' : Exists (fun v => exists e, lookup w (signer v) = Unknown e)
                       sigs).
      { inversion Hex as [? ? (e & He)|]; subst; [congruence|assumption]. }
      rewrite (loop_step _ _ _ _ Hc Hl).
      destruct (db_fails w (first_op _)); [eauto|].
      destruct (first_where _ (rows c)); [apply IH; auto|].
      destruct (db_fails w (create_op _)); [eauto|].
      destruct (IH (ChainIndexer.with_db (set (create (new_vote v acc))) c))
        as (e & c' & Hrun & Hcli); auto.
      exists e, c'. auto.
    + exists e, c. unfold loop. simpl. unfold bind.
      rewrite (queryAccount_Unknown _ _ _ _ Hc Hl). auto.
Qed.

(** A property of the store that holds when the loop starts and that
    the insertion of a vote for a voter without a row keeps, holds when the
    loop ends, however it ends. *)
Lemma loop_invariant_db (P : DB.t -> Prop) :
  (forall d v acc, P d ->
     first_where (fun r => key r (Account.Index acc)) (get d) = None ->
     P (set (create (new_vote v acc)) d)) ->
  forall sigs c,
    P (ChainIndexer.db c) -> P (ChainIndexer.db (state_of (loop sigs c))).
Proof.
  intros HP. induction sigs as [|v sigs IH]; intros c Hc; [exact Hc|].
  unfold loop. simpl. unfold bind at 1.
  pose proof (db_same_queryAccount w 0 (signer v) c) as Q.
  destruct (queryAccount w 0 (signer v) c) as [[x [e|]] c1|c1];
    simpl in Q; try (simpl; rewrite Q; exact Hc).
  destruct x as [acc|]; [|simpl; rewrite Q; exact Hc].
  unfold bind at 1, db_first.
  destruct (db_fails w (first_op _)); [simpl; rewrite Q; exact Hc|].
  destruct (first_where _ (get (ChainIndexer.db c1))) eqn:E.
  - apply IH. rewrite Q. exact Hc.
  - simpl. unfold bind at 1, db_exec.
    destruct (db_fails w (create_op _)); [simpl; rewrite Q; exact Hc|].
    apply IH. simpl. apply HP; [rewrite Q; exact Hc|exact E].
Qed.

Lemma loop_invariant (P : table R -> Prop) :
  (forall t v acc, P t ->
     first_where (fun r => key r (Account.Index acc)) t = None ->
     P (create (new_vote v acc) t)) ->
  forall sigs c, P (rows c) -> P (rows (state_of (loop sigs c))).
Proof.
  intros HP sigs c. unfold rows.
  apply (loop_invariant_db (fun d => P (get d))).
  intros d v acc Hd Hn. rewrite get_set. apply HP; assumption.
Qed.

(** The loop writes to its own table only. *)
Lemma loop_frame {X} (proj : DB.t -> X) sigs c :
  (forall f d, proj (set f d) = proj d) ->
  proj (ChainIndexer.db (state_of (loop sigs c))) = proj (ChainIndexer.db c).
Proof.
  intros Hproj.
  apply (loop_invariant_db (fun d => proj d = proj (ChainIndexer.db c)));
    [|reflexivity].
  intros d v acc Hd _. rewrite Hproj. exact Hd.
Qed.

(** Every row the loop leaves was there before or is a vote it made. *)
Lemma loop_rows sigs c r :
  In r (rows (state_of (loop sigs c))) ->
  In r (rows c) \/ exists v acc k, r = set_pk k (new_vote v acc).
Proof.
  revert r.
  apply (loop_invariant
           (fun t => forall r, In r t ->
              In r (rows c) \/ exists v acc k, r = set_pk k (new_vote v acc))).
  - intros t v acc Ht _ r. rewrite create_new_vote. intros Hr.
    apply in_app_or in Hr. destruct Hr as [Hr|[<-|[]]]; [auto|]. right. eauto.
  - auto.
Qed.

(** Two rows of the table never carry the same key [K], if that is so at
    the start and the lookup is by [K]. *)
Lemma loop_NoDup (K : R -> Z * Z) (vh : Z) sigs c :
  (forall r voter, key r voter = true <-> K r = (vh, voter)) ->
  NoDup (map K (rows c)) -> NoDup (map K (rows (state_of (loop sigs c)))).
Proof.
  intros HK. apply (loop_invariant (fun t => NoDup (map K t))).
  intros t v acc Ht Hnone. rewrite create_new_vote, map_app. simpl.
  rewrite first_where_None in Hnone.
  assert (Hfresh : ~ In (K (set_pk (next_pk t) (new_vote v acc))) (map K t)).
  { intros Hin. apply in_map_iff in Hin. destruct Hin as (r & Hr & Hin).
    specialize (Hnone r Hin).
    assert (key r (Account.Index acc) = true); [|congruence].
    apply HK. rewrite Hr. apply HK. apply key_new_vote. }
  apply NoDup_snoc; assumption.
Qed.

End LoopFacts.

(** ** Vote reconciliation *)

Section Reconcile.
Context `{hac_types}.

(** [handleVote] once the commit is there, written out along its
    branches. *)
Lemma handleVote_eq w h c res :
  ChainIndexer.cli c <> None -> Commit w h = Some res ->
  handleVote w h c =
  let vh := ResultCommit.Height res in
  let sigs := ResultCommit.Signatures res in
  let d := ChainIndexer.db c in
  if db_fails w (OpWhereNewHeight vh)
  then Ok (Some (ErrStore (OpWhereNewHeight vh))) c
  else
    let p := or_zero_proposal (new_proposal_at d vh) in
    if negb (Proposal.Id p =? 0)
    then proposal_votes_of w (Proposal.Id p) vh sigs c
    else
      if db_fails w (OpWhereSettleHeight vh)
      then Ok (Some (ErrStore (OpWhereSettleHeight vh))) c
      else
        let p := or_zero_proposal (settled_proposal_at d vh) in
        if negb (Proposal.Id p =? 0)
        then proposal_votes_of w (Proposal.Id p) vh sigs c
        else
          if db_fails w (OpWhereGrantHeight vh)
          then Ok (Some (ErrStore (OpWhereGrantHeight vh))) c
          else
            let g := or_zero_grant (grant_at d vh) in
            if negb (Grant.Id g =? 0)
            then grant_votes_of w g vh sigs c
            else Ok None c.
Proof.
  intros Hc Hres. unfold handleVote. rewrite Hres.
  unfold bind at 1, the_cli. destruct (ChainIndexer.cli c); [|congruence].
  unfold bind at 1, ret at 1. cbv zeta.
  unfold bind at 1, db_first at 1.
  destruct (db_fails w (OpWhereNewHeight _)); [reflexivity|].
  unfold new_proposal_at, settled_proposal_at, grant_at.
  destruct (first_where _ (DB.proposals (ChainIndexer.db c))) as [p|]; simpl.
  - destruct (Proposal.Id p =? 0); simpl; [|reflexivity].
    unfold bind at 1, db_first at 1.
    destruct (db_fails w (OpWhereSettleHeight _)); [reflexivity|].
    destruct (first_where _ (DB.proposals (ChainIndexer.db c))) as [p'|]; simpl.
    + destruct (Proposal.Id p' =? 0); simpl; [|reflexivity].
      unfold bind at 1, db_first at 1.
      destruct (db_fails w (OpWhereGrantHeight _)); [reflexivity|].
      destruct (first_where _ (DB.grants (ChainIndexer.db c))) as [g|]; simpl;
        [|reflexivity].
      destruct (Grant.Id g =? 0); reflexivity.
    + unfold bind at 1, db_first at 1.
      destruct (db_fails w (OpWhereGrantHeight _)); [reflexivity|].
      destruct (first_where _ (DB.grants (ChainIndexer.db c))) as [g|]; simpl;
        [|reflexivity].
      destruct (Grant.Id g =? 0); reflexivity.
  - unfold bind at 1, db_first at 1.
    destruct (db_fails w (OpWhereSettleHeight _)); [reflexivity|].
    destruct (first_where _ (DB.proposals (ChainIndexer.db c))) as [p'|]; simpl.
    + destruct (Proposal.Id p' =? 0); simpl; [|reflexivity].
      unfold bind at 1, db_first at 1.
      destruct (db_fails w (OpWhereGrantHeight _)); [reflexivity|].
      destruct (first_where _ (DB.grants (ChainIndexer.db c))) as [g|]; simpl;
        [|reflexivity].
      destruct (Grant.Id g =? 0); reflexivity.
    + unfold bind at 1, db_first at 1.
      destruct (db_fails w (OpWhereGrantHeight _)); [reflexivity|].
      destruct (first_where _ (DB.grants (ChainIndexer.db c))) as [g|]; simpl;
        [|reflexivity].
      destruct (Grant.Id g =? 0); reflexivity.
Qed.


(** [handleVote] runs the loop of the record that [reconciled] names. *)
Lemma handleVote_reconciled w h c res :
  ChainIndexer.cli c <> None -> Commit w h = Some res ->
  lookups_answer w (ResultCommit.Height res) ->
  handleVote w h c =
  let vh := ResultCommit.Height res in
  let sigs := ResultCommit.Signatures res in
  match reconciled (ChainIndexer.db c) vh with
  | Some (inl proposal) => proposal_votes_of w proposal vh sigs c
  | Some (inr grant) => grant_votes_of w grant vh sigs c
  | None => Ok None c
  end.
Proof.
  intros Hc Hres (F1 & F2 & F3). rewrite (handleVote_eq w h c res Hc Hres).
  cbv zeta. rewrite F1, F2, F3. unfold reconciled.
  destruct (negb (Proposal.Id (or_zero_proposal (new_proposal_at _ _)) =? 0));
    [reflexivity|].
  destruct (negb (Proposal.Id (or_zero_proposal (settled_proposal_at _ _)) =? 0));
    [reflexivity|].
  destruct (negb (Grant.Id (or_zero_grant (grant_at _ _)) =? 0)); reflexivity.
Qed.

Lemma proposal_vote_key_id vh r voter :
  proposal_vote_key vh r voter = true <-> proposal_vote_id r = (vh, voter).
Proof.
  unfold proposal_vote_key, proposal_vote_id.
  rewrite andb_true_iff, !Z.eqb_eq. split; [intros [-> ->]|intros [= -> ->]]; auto.
Qed.

Lemma grant_vote_key_id vh r voter :
  grant_vote_key vh r voter = true <-> grant_vote_id r = (vh, voter).
Proof.
  unfold grant_vote_key, grant_vote_id.
  rewrite andb_true_iff, !Z.eqb_eq. split; [intros [-> ->]|intros [= -> ->]]; auto.
Qed.

Lemma key_new_proposal_vote proposal vh v acc k :
  u64 vh = vh ->
  proposal_vote_key vh (set_pk k (new_proposal_vote proposal vh v acc))
    (Account.Index acc) = true.
Proof.
  intros Hvh. unfold proposal_vote_key. simpl. rewrite Hvh, !Z.eqb_refl.
  reflexivity.
Qed.

Lemma key_new_grant_vote grant vh v acc k :
  u64 vh = vh ->
  grant_vote_key vh (set_pk k (new_grant_vote grant vh v acc))
    (Account.Index acc) = true.
Proof.
  intros Hvh. unfold grant_vote_key. simpl. rewrite Hvh, !Z.eqb_refl.
  reflexivity.
Qed.

(** Running [handleVote] again after it succeeded changes nothing. *)
Lemma handleVote_idempotent w h c c1 res :
  Commit w h = Some res -> u64 (ResultCommit.Height res) = ResultCommit.Height res ->
  handleVote w h c = Ok None c1 -> handleVote w h c1 = Ok None c1.
Proof.
  intros Hres Hvh Hrun.
  assert (Hc : ChainIndexer.cli c <> None).
  { intros Hc. unfold handleVote, bind, the_cli in Hrun. rewrite Hc in Hrun.
    discriminate. }
  pose proof (votes_only_handleVote w h c) as V. rewrite Hrun in V. simpl in V.
  destruct V as [_ _ _ _ Vp Vg _].
  rewrite (handleVote_eq w h c res Hc Hres) in Hrun. cbv zeta in Hrun.
  assert (Hloop1 : forall p,
    proposal_votes_of w p (ResultCommit.Height res)
      (ResultCommit.Signatures res) c = Ok None c1 ->
    ChainIndexer.cli c1 <> None
    /\ proposal_votes_of w p (ResultCommit.Height res)
         (ResultCommit.Signatures res) c1 = Ok None c1).
  { intros p. rewrite !proposal_votes_of_loop. intros Hl.
    destruct (ResultCommit.Signatures res) as [|v sigs] eqn:Hs.
    - inversion Hl; subst. auto.
    - split.
      + eapply loop_success in Hl;
          [|reflexivity|reflexivity
           |intros; apply key_new_proposal_vote; assumption].
        destruct Hl as (_ & _ & -> & _). assumption.
      + eapply loop_idempotent; [| | |exact Hl];
          [reflexivity|reflexivity
          |intros; apply key_new_proposal_vote; assumption]. }
  assert (Hloop2 : forall g,
    grant_votes_of w g (ResultCommit.Height res)
      (ResultCommit.Signatures res) c = Ok None c1 ->
    ChainIndexer.cli c1 <> None
    /\ grant_votes_of w g (ResultCommit.Height res)
         (ResultCommit.Signatures res) c1 = Ok None c1).
  { intros g. rewrite !grant_votes_of_loop. intros Hl.
    destruct (ResultCommit.Signatures res) as [|v sigs] eqn:Hs.
    - inversion Hl; subst. auto.
    - split.
      + eapply loop_success in Hl;
          [|reflexivity|reflexivity
           |intros; apply key_new_grant_vote; assumption].
        destruct Hl as (_ & _ & -> & _). assumption.
      + eapply loop_idempotent; [| | |exact Hl];
          [reflexivity|reflexivity
          |intros; apply key_new_grant_vote; assumption]. }
  assert (Hgo : forall Hc1 : ChainIndexer.cli c1 <> None,
            handleVote w h c1 =
            _ ) by (intros Hc1; exact (handleVote_eq w h c1 res Hc1 Hres)).
  cbv zeta in Hgo. unfold new_proposal_at, settled_proposal_at, grant_at in *.
  rewrite Vp, Vg in Hgo.
  destruct (db_fails w (OpWhereNewHeight _)); [discriminate|].
  destruct (negb (Proposal.Id _ =? 0)).
  { destruct (Hloop1 _ Hrun) as [Hc1 Hl1]. rewrite (Hgo Hc1). exact Hl1. }
  destruct (db_fails w (OpWhereSettleHeight _)); [discriminate|].
  destruct (negb (Proposal.Id _ =? 0)).
  { destruct (Hloop1 _ Hrun) as [Hc1 Hl1]. rewrite (Hgo Hc1). exact Hl1. }
  destruct (db_fails w (OpWhereGrantHeight _)); [discriminate|].
  destruct (negb (Grant.Id _ =? 0)).
  { destruct (Hloop2 _ Hrun) as [Hc1 Hl1]. rewrite (Hgo Hc1). exact Hl1. }
  inversion Hrun; subst. rewrite (Hgo Hc). reflexivity.
Qed.


(** Neither loop pairs a height and a voter twice. *)
Lemma handleVote_NoDup w h c res :
  Commit w h = Some res ->
  u64 (ResultCommit.Height res) = ResultCommit.Height res ->
  (NoDup (map proposal_vote_id (DB.proposal_votes (ChainIndexer.db c))) ->
   NoDup (map proposal_vote_id
            (DB.proposal_votes (ChainIndexer.db (state_of (handleVote w h c))))))
  /\ (NoDup (map grant_vote_id (DB.grant_votes (ChainIndexer.db c))) ->
      NoDup (map grant_vote_id
               (DB.grant_votes (ChainIndexer.db (state_of (handleVote w h c)))))).
Proof.
  intros Hres Hvh.
  destruct (ChainIndexer.cli c) eqn:Hc.
  2:{ unfold handleVote, bind, the_cli. rewrite Hc. simpl. auto. }
  assert (Hc' : ChainIndexer.cli c <> None) by congruence.
  rewrite (handleVote_eq w h c res Hc' Hres). cbv zeta.
  assert (HP : forall p,
    (NoDup (map proposal_vote_id (DB.proposal_votes (ChainIndexer.db c))) ->
     NoDup (map proposal_vote_id (DB.proposal_votes (ChainIndexer.db
       (state_of (proposal_votes_of w p (ResultCommit.Height res)
                    (ResultCommit.Signatures res) c))))))
    /\ (NoDup (map grant_vote_id (DB.grant_votes (ChainIndexer.db c))) ->
        NoDup (map grant_vote_id (DB.grant_votes (ChainIndexer.db
          (state_of (proposal_votes_of w p (ResultCommit.Height res)
                       (ResultCommit.Signatures res) c))))))).
  { intros p. rewrite proposal_votes_of_loop. split; intros Hn.
    - eapply (loop_NoDup w _ _ _ DB.proposal_votes DB.with_proposal_votes);
        [reflexivity|reflexivity| |apply proposal_vote_key_id|exact Hn].
      intros; apply key_new_proposal_vote; assumption.
    - rewrite (loop_frame w _ _ _ DB.proposal_votes DB.with_proposal_votes
                 _ _ DB.grant_votes); [exact Hn|reflexivity]. }
  assert (HG : forall g,
    (NoDup (map proposal_vote_id (DB.proposal_votes (ChainIndexer.db c))) ->
     NoDup (map proposal_vote_id (DB.proposal_votes (ChainIndexer.db
       (state_of (grant_votes_of w g (ResultCommit.Height res)
                    (ResultCommit.Signatures res) c))))))
    /\ (NoDup (map grant_vote_id (DB.grant_votes (ChainIndexer.db c))) ->
        NoDup (map grant_vote_id (DB.grant_votes (ChainIndexer.db
          (state_of (grant_votes_of w g (ResultCommit.Height res)
                       (ResultCommit.Signatures res) c))))))).
  { intros g. rewrite grant_votes_of_loop. split; intros Hn.
    - rewrite (loop_frame w _ _ _ DB.grant_votes DB.with_grant_votes
                 _ _ DB.proposal_votes); [exact Hn|reflexivity].
    - eapply (loop_NoDup w _ _ _ DB.grant_votes DB.with_grant_votes);
        [reflexivity|reflexivity| |apply grant_vote_key_id|exact Hn].
      intros; apply key_new_grant_vote; assumption. }
  destruct (db_fails w (OpWhereNewHeight _)); [simpl; auto|].
  destruct (negb (Proposal.Id _ =? 0)); [apply HP|].
  destruct (db_fails w (OpWhereSettleHeight _)); [simpl; auto|].
  destruct (negb (Proposal.Id _ =? 0)); [apply HP|].
  destruct (db_fails w (OpWhereGrantHeight _)); [simpl; auto|].
  destruct (negb (Grant.Id _ =? 0)); [apply HG|]. simpl. auto.
Qed.


(** What the loop of a proposal leaves in the store. *)
Lemma proposal_votes_of_effect w proposal vh sigs c :
  let c' := state_of (proposal_votes_of w proposal vh sigs c) in
  DB.grant_votes (ChainIndexer.db c') = DB.grant_votes (ChainIndexer.db c)
  /\ forall r, In r (DB.proposal_votes (ChainIndexer.db c')) ->
       In r (DB.proposal_votes (ChainIndexer.db c))
       \/ (ProposalVote.Proposal r = proposal
           /\ ProposalVote.Height r = u64 vh).
Proof.
  cbv zeta. rewrite proposal_votes_of_loop. split.
  - apply (loop_frame w _ _ _ DB.proposal_votes DB.with_proposal_votes
             _ _ DB.grant_votes). reflexivity.
  - intros r Hr.
    apply (loop_rows w _ _ _ DB.proposal_votes DB.with_proposal_votes) in Hr;
      [|reflexivity|reflexivity].
    destruct Hr as [Hr|(v & acc & k & ->)]; [left; exact Hr|right].
    split; reflexivity.
Qed.

(** What the loop of a grant leaves in the store. *)
Lemma grant_votes_of_effect w grant vh sigs c :
  let c' := state_of (grant_votes_of w grant vh sigs c) in
  DB.proposal_votes (ChainIndexer.db c')
  = DB.proposal_votes (ChainIndexer.db c)
  /\ forall r, In r (DB.grant_votes (ChainIndexer.db c')) ->
       In r (DB.grant_votes (ChainIndexer.db c))
       \/ (GrantVote.AccountIndex r = Grant.Id grant
           /\ GrantVote.Height r = u64 vh).
Proof.
  cbv zeta. rewrite grant_votes_of_loop. split.
  - apply (loop_frame w _ _ _ DB.grant_votes DB.with_grant_votes
             _ _ DB.proposal_votes). reflexivity.
  - intros r Hr.
    apply (loop_rows w _ _ _ DB.grant_votes DB.with_grant_votes) in Hr;
      [|reflexivity|reflexivity].
    destruct Hr as [Hr|(v & acc & k & ->)]; [left; exact Hr|right].
    split; reflexivity.
Qed.


Lemma reconciled_votes_only c c' vh :
  votes_only c c' ->
  reconciled (ChainIndexer.db c') vh = reconciled (ChainIndexer.db c) vh.
Proof.
  intros [_ _ _ _ Vp Vg _].
  unfold reconciled, new_proposal_at, settled_proposal_at, grant_at.
  rewrite Vp, Vg. reflexivity.
Qed.

(** Where the height has a record to reconcile, the chain answers every
    query and rejects a signer, [handleVote] returns an error. *)
Lemma handleVote_rejects w h c res k :
  ChainIndexer.cli c <> None -> Commit w h = Some res ->
  lookups_answer w (ResultCommit.Height res) ->
  reconciled (ChainIndexer.db c) (ResultCommit.Height res) = Some k ->
  Forall (fun v => lookup w (signer v) <> NoAnswer) (ResultCommit.Signatures res) ->
  Exists (fun v => exists e, lookup w (signer v) = Unknown e)
    (ResultCommit.Signatures res) ->
  exists e c1, handleVote w h c = Ok (Some e) c1
               /\ ChainIndexer.cli c1 = ChainIndexer.cli c.
Proof.
  intros Hc Hres Hans Hk Hall Hex.
  rewrite (handleVote_reconciled w h c res Hc Hres Hans). cbv zeta.
  rewrite Hk. destruct k as [p|g].
  - rewrite proposal_votes_of_loop. apply loop_rejects; assumption.
  - rewrite grant_votes_of_loop. apply loop_rejects; assumption.
Qed.

(** Where every signer resolves and the store works, [handleVote]
    succeeds and leaves a vote of every signer. *)
Lemma handleVote_completes w h c res k :
  ChainIndexer.cli c <> None -> Commit w h = Some res ->
  (forall op, db_fails w op = false) ->
  u64 (ResultCommit.Height res) = ResultCommit.Height res ->
  reconciled (ChainIndexer.db c) (ResultCommit.Height res) = Some k ->
  Forall (fun v => exists acc, lookup w (signer v) = Known acc)
    (ResultCommit.Signatures res) ->
  exists c2,
    handleVote w h c = Ok None c2
    /\ Forall (fun v => exists acc,
                 lookup w (signer v) = Known acc
                 /\ has_vote (ChainIndexer.db c2) k (ResultCommit.Height res)
                      (Account.Index acc))
         (ResultCommit.Signatures res).
Proof.
  intros Hc Hres Hdb Hvh Hk Hall.
  assert (Hans : lookups_answer w (ResultCommit.Height res))
    by (repeat split; apply Hdb).
  rewrite (handleVote_reconciled w h c res Hc Hres Hans). cbv zeta.
  rewrite Hk. destruct k as [p|g].
  - rewrite proposal_votes_of_loop.
    destruct (loop_completes w (OpFirstProposalVote (ResultCommit.Height res))
                OpCreateProposalVote
                (proposal_vote_key (ResultCommit.Height res))
                DB.proposal_votes DB.with_proposal_votes
                (ProposalVote.mk 0 0 0 "" 0 0)
                (new_proposal_vote p (ResultCommit.Height res))
                _ c Hc Hall Hdb) as [c2 Hrun].
    exists c2. split; [exact Hrun|].
    eapply loop_success in Hrun;
      [|reflexivity|reflexivity|intros; apply key_new_proposal_vote; assumption].
    destruct Hrun as (Hrec & _). apply Forall_impl with (2 := Hrec).
    intros v (acc & r & Hl & _ & Hin & Hkey). exists acc. split; [exact Hl|].
    simpl. exists r. split; [exact Hin|]. apply proposal_vote_key_id. exact Hkey.
  - rewrite grant_votes_of_loop.
    destruct (loop_completes w (OpFirstGrantVote (ResultCommit.Height res))
                OpCreateGrantVote
                (grant_vote_key (ResultCommit.Height res))
                DB.grant_votes DB.with_grant_votes
                (GrantVote.mk 0 0 "" 0 "" 0 "" 0 0)
                (new_grant_vote g (ResultCommit.Height res))
                _ c Hc Hall Hdb) as [c2 Hrun].
    exists c2. split; [exact Hrun|].
    eapply loop_success in Hrun;
      [|reflexivity|reflexivity|intros; apply key_new_grant_vote; assumption].
    destruct Hrun as (Hrec & _). apply Forall_impl with (2 := Hrec).
    intros v (acc & r & Hl & _ & Hin & Hkey). exists acc. split; [exact Hl|].
    simpl. exists r. split; [exact Hin|]. apply grant_vote_key_id. exact Hkey.
Qed.

End Reconcile.

(** ** Progress over ticks *)

Section Ticks.
Context `{hac_types}.
Local Open Scope string_scope.
Local Open Scope list_scope.
Local Open Scope Z_scope.

Lemma moves_on_refl c : moves_on c c.
Proof.
  repeat split; try lia. exists []. rewrite app_nil_r. split; [reflexivity|].
  constructor.
Qed.

Lemma moves_on_trans c1 c2 c3 :
  moves_on c1 c2 -> moves_on c2 c3 -> moves_on c1 c3.
Proof.
  intros (P1 & H1 & e1 & L1 & F1) (P2 & H2 & e2 & L2 & F2).
  repeat split; try lia. exists (e1 ++ e2).
  rewrite L2, L1, app_assoc. split; [reflexivity|].
  rewrite synced_heights_app. apply Forall_app. split; [exact F1|].
  apply Forall_impl with (2 := F2). intros h Hh. lia.
Qed.

Lemma quiet_moves_on c c' : quiet c c' -> moves_on c c'.
Proof.
  intros [Hh _ Ht (extra & Hl & Hs)]. unfold moves_on, persisted.
  rewrite Ht, Hh. repeat split; try lia. exists extra. rewrite Hs.
  split; [exact Hl|constructor].
Qed.

(** The log after a pass: the announcement of its height, and nothing
    else that announces a height. *)
Lemma sync_height_log w c :
  exists extra,
    ChainIndexer.logger (state_of (sync_height w c))
    = ChainIndexer.logger c
      ++ Info "indexer syncing" [("height", VZ (ChainIndexer.Height c))]
         :: extra
    /\ synced_heights extra = [].
Proof.
  assert (Hq : forall c', quiet (announced c) c' ->
    exists extra,
      ChainIndexer.logger c'
      = ChainIndexer.logger c
        ++ Info "indexer syncing" [("height", VZ (ChainIndexer.Height c))]
           :: extra
      /\ synced_heights extra = []).
  { intros c' [_ _ _ (extra & Hl & Hs)]. exists extra. split; [|exact Hs].
    rewrite Hl. simpl. rewrite <- app_assoc. reflexivity. }
  assert (Hlog : forall c' msg kv, quiet (announced c) c' ->
    quiet (announced c) (ChainIndexer.with_log (Error msg kv) c')).
  { intros c' msg kv Q. eapply quiet_trans; [exact Q|].
    constructor; try reflexivity. exists [Error msg kv]. split; reflexivity. }
  rewrite sync_height_eq. cbv zeta.
  destruct (ChainIndexer.cli c); [|apply Hq, quiet_refl].
  destruct (BlockResults w (ChainIndexer.Height c)) as [events|].
  - pose proof (quiet_handle_txs w events (ChainIndexer.Height c) (announced c))
      as Q1.
    destruct (handle_txs _ _ _ _) as [[] c1|c1]; simpl in Q1; [|apply Hq, Q1].
    pose proof (quiet_handleVote w (ChainIndexer.Height c) c1) as Q2.
    assert (Q : quiet (announced c)
                  (state_of (handleVote w (ChainIndexer.Height c) c1)))
      by (eapply quiet_trans; eassumption).
    destruct (handleVote _ _ _) as [[e|] c2|c2]; simpl in Q;
      [apply Hq, Hlog, Q| |apply Hq, Q].
    destruct (db_fails _ _); [apply Hq, Hlog, Q|].
    destruct (Hq c2 Q) as (extra & Hl & Hs). exists extra. auto.
  - pose proof (quiet_reconnect w (ChainIndexer.with_log
                     (Error "get status fail" [("err", VErr ErrRPC)])
                     (announced c))) as Q.
    assert (Q' : quiet (announced c)
                   (state_of (reconnect_unless_running w
                      (ChainIndexer.with_log
                         (Error "get status fail" [("err", VErr ErrRPC)])
                         (announced c))))).
    { eapply quiet_trans; [|exact Q]. apply Hlog, quiet_refl. }
    destruct (reconnect_unless_running _ _) as [[e|] c'|c']; apply Hq, Q'.
Qed.

(** A pass from a resumable state, below the head of the chain. *)
Lemma sync_height_moves_on w c latest :
  resumable c -> ChainIndexer.Height c < latest <= 2 ^ 63 - 1 ->
  moves_on c (state_of (sync_height w c))
  /\ (forall c', sync_height w c = Ok tt c' -> resumable c').
Proof.
  intros [Hr Hp] Hlt.
  destruct (sync_height_log w c) as (extra & Hl & Hs).
  assert (Hlogs : exists extra0,
    ChainIndexer.logger (state_of (sync_height w c))
    = ChainIndexer.logger c ++ extra0
    /\ Forall (fun h => ChainIndexer.Height c <= h) (synced_heights extra0)).
  { eexists. split; [exact Hl|]. simpl. rewrite Hs. constructor; [lia|constructor]. }
  destruct (sync_height_cases w c)
    as [[Hh Ht]|(events & c1 & c2 & _ & _ & _ & _ & Hh & Hrun)].
  - split.
    + unfold moves_on, persisted. rewrite Ht, Hh.
      repeat split; try lia. exact Hlogs.
    + intros c' Hc'. rewrite Hc' in Hh, Ht. simpl in Hh, Ht.
      unfold resumable, persisted in *. rewrite Ht, Hh. auto.
  - assert (Hp2 : persisted (ChainIndexer.db (advanced c2))
                  = ChainIndexer.Height c).
    { rewrite persisted_advanced, Hh. apply u64_small. lia. }
    assert (Hh2 : ChainIndexer.Height (advanced c2) = ChainIndexer.Height c + 1).
    { unfold advanced. simpl. rewrite Hh. apply i64_small. lia. }
    split.
    + rewrite Hrun in *. cbn [state_of] in *. unfold moves_on.
      rewrite Hp2, Hh2. repeat split; try lia. exact Hlogs.
    + intros c' Hc'. rewrite Hrun in Hc'. inversion Hc'; subst c'.
      unfold resumable. rewrite Hp2, Hh2. lia.
Qed.

Lemma catch_up_moves_on latest ws : forall c,
  resumable c -> latest <= 2 ^ 63 - 1 ->
  moves_on c (state_of (catch_up latest ws c))
  /\ (forall e c', catch_up latest ws c = Ok e c' -> resumable c').
Proof.
  induction ws as [|w ws IH]; intros c Hr Hlat; simpl.
  - destruct (latest >? ChainIndexer.Height c); simpl;
      (split; [apply moves_on_refl|intros e c' [= _ <-]; exact Hr]).
  - destruct (latest >? ChainIndexer.Height c) eqn:Hgt; simpl.
    2:{ split; [apply moves_on_refl|intros e c' [= _ <-]; exact Hr]. }
    apply Z.gtb_lt in Hgt.
    destruct (sync_height_moves_on w c latest Hr) as [Hm Hres]; [lia|].
    destruct (sync_height w c) as [[] c1|c1]; simpl in Hm.
    + specialize (Hres c1 eq_refl).
      destruct (IH c1 Hres Hlat) as [Hm' Hres'].
      split; [eapply moves_on_trans; eassumption|exact Hres'].
    + split; [exact Hm|discriminate].
Qed.

Lemma resumable_quiet c c' : quiet c c' -> resumable c -> resumable c'.
Proof.
  intros [Hh _ Ht _] Hr. unfold resumable, persisted in *. rewrite Ht, Hh.
  exact Hr.
Qed.

(** The tick, written out along its outcomes. *)
Lemma tick_eq w ws c :
  tick w ws c =
  let query := fun c1 =>
    match ChainIndexer.cli c1 with
    | None => Panic c1
    | Some _ =>
        match Status w with
        | Some latest => catch_up (i64 latest) ws c1
        | None =>
            match reconnect_unless_running w
                    (ChainIndexer.with_log
                       (Error "get status fail" [("err", VErr ErrRPC)]) c1) with
            | Ok (Some _) c2 => Ok Idle c2
            | Ok None c2 => Panic c2
            | Panic c2 => Panic c2
            end
        end
    end in
  match ChainIndexer.cli c with
  | Some _ => query c
  | None =>
      if Dial w
      then query (ChainIndexer.with_cli (Some (mkHTTP (ChainIndexer.Url c))) c)
      else Ok Idle (ChainIndexer.with_log
                      (Error "connect fail" [("err", VErr ErrDial)])
                      (ChainIndexer.with_cli None c))
  end.
Proof.
  unfold tick, bind, connect, log_err, log, ret, the_cli, panic.
  destruct (ChainIndexer.cli c) eqn:Hc; simpl.
  - rewrite Hc. destruct (Status w); [reflexivity|].
    destruct (reconnect_unless_running w _) as [[e|] c2|c2]; reflexivity.
  - destruct (Dial w); simpl; [|reflexivity].
    destruct (Status w); [reflexivity|].
    destruct (reconnect_unless_running w _) as [[e|] c2|c2]; reflexivity.
Qed.

Lemma tick_moves_on w ws c :
  resumable c ->
  moves_on c (state_of (tick w ws c))
  /\ (forall e c', tick w ws c = Ok e c' -> resumable c').
Proof.
  intros Hr. rewrite tick_eq. cbv zeta.
  assert (Hend : forall c2, quiet c c2 -> moves_on c c2 /\ resumable c2).
  { intros c2 Q2. split; [apply quiet_moves_on, Q2|].
    eapply resumable_quiet; eassumption. }
  assert (Hquery : forall c1, quiet c c1 ->
    let r :=
      match ChainIndexer.cli c1 with
      | None => Panic c1
      | Some _ =>
          match Status w with
          | Some latest => catch_up (i64 latest) ws c1
          | None =>
              match reconnect_unless_running w
                      (ChainIndexer.with_log
                         (Error "get status fail" [("err", VErr ErrRPC)]) c1) with
              | Ok (Some _) c2 => Ok Idle c2
              | Ok None c2 => Panic c2
              | Panic c2 => Panic c2
              end
          end
      end in
    moves_on c (state_of r) /\ (forall e c', r = Ok e c' -> resumable c')).
  { intros c1 Q1. cbv zeta. destruct (Hend c1 Q1) as [Hm1 Hr1].
    destruct (ChainIndexer.cli c1); [|split; [exact Hm1|discriminate]].
    destruct (Status w) as [latest|].
    - destruct (catch_up_moves_on (i64 latest) ws c1 Hr1) as [Hm Hres].
      { pose proof (i64_range latest). lia. }
      split; [eapply moves_on_trans; eassumption|exact Hres].
    - match goal with |- context [reconnect_unless_running w ?c0] =>
        pose proof (quiet_reconnect w c0) as Q2;
        assert (Q3 : quiet c (state_of (reconnect_unless_running w c0)))
      end.
      { eapply quiet_trans; [exact Q1|]. eapply quiet_trans; [|exact Q2].
        constructor; try reflexivity. eexists [_]. split; reflexivity. }
      destruct (reconnect_unless_running w _) as [[e|] c2|c2]; simpl in Q3;
        destruct (Hend c2 Q3) as [Hm Hres]; simpl;
        (split; [exact Hm|]); try discriminate.
      intros e' c' Heq. inversion Heq; subst. exact Hres. }
  destruct (ChainIndexer.cli c) eqn:Hc.
  - apply (Hquery c (quiet_refl c)).
  - destruct (Dial w).
    + apply Hquery. constructor; try reflexivity.
      exists []. rewrite app_nil_r. auto.
    + assert (Q : quiet c (ChainIndexer.with_log
                      (Error "connect fail" [("err", VErr ErrDial)])
                      (ChainIndexer.with_cli None c))).
      { constructor; try reflexivity. eexists [_]. split; reflexivity. }
      destruct (Hend _ Q) as [Hm Hres]. simpl. split; [exact Hm|].
      intros e' c' Heq. inversion Heq; subst. exact Hres.
Qed.

Lemma Start_moves_on ticks : forall c,
  resumable c -> moves_on c (state_of (Start ticks c)).
Proof.
  induction ticks as [|[w ws] ticks IH]; intros c Hr; simpl.
  - apply moves_on_refl.
  - unfold bind. destruct (tick_moves_on w ws c Hr) as [Hm Hres].
    destruct (tick w ws c) as [e c1|c1]; simpl in Hm; [|exact Hm].
    destruct e; simpl; [|exact Hm].
    eapply moves_on_trans; [exact Hm|]. apply IH. apply (Hres Idle). reflexivity.
Qed.

(** More ticks move the state the earlier ticks left further on. *)
Lemma Start_app_moves_on ticks more : forall c,
  resumable c ->
  moves_on (state_of (Start ticks c)) (state_of (Start (ticks ++ more) c)).
Proof.
  induction ticks as [|[w ws] ticks IH]; intros c Hr; simpl.
  - apply Start_moves_on. exact Hr.
  - unfold bind. destruct (tick_moves_on w ws c Hr) as [_ Hres].
    destruct (tick w ws c) as [e c1|c1]; simpl; [|apply moves_on_refl].
    destruct e; simpl; [|apply moves_on_refl].
    apply IH. apply (Hres Idle). reflexivity.
Qed.

(** C8.  The indexer that [NewChainIndexer] builds on a store whose
    persisted height is N (0 when there is no record; N + 1 being an
    [int64]) starts at the in-memory height N + 1.  From there, over every
    sequence of ticks, whatever errors and panics they meet, the persisted
    height never falls below N and never decreases when more ticks are
    run, and every height the catch-up loop processes is above N. *)
Theorem progress_monotone_from_resume_point w0 lg file url c :
  NewChainIndexer w0 lg file url = inl c ->
  0 <= persisted file < 2 ^ 63 - 1 ->
  let N := persisted file in
  ChainIndexer.Height c = N + 1
  /\ forall ticks more,
       let c1 := state_of (Start ticks c) in
       let c2 := state_of (Start (ticks ++ more) c) in
       N <= persisted (ChainIndexer.db c1)
       /\ persisted (ChainIndexer.db c1) <= persisted (ChainIndexer.db c2)
       /\ exists extra,
            ChainIndexer.logger c1 = lg ++ extra
            /\ Forall (fun h => N < h) (synced_heights extra).
Proof.
  intros Hnew Hrange N.
  assert (Hc : ChainIndexer.Height c = N + 1
               /\ ChainIndexer.db c = file /\ ChainIndexer.logger c = lg).
  { unfold NewChainIndexer in Hnew.
    destruct (negb (Dial w0)); [discriminate|].
    do 3 (destruct (db_fails w0 _); [discriminate|]).
    inversion Hnew; subst c; clear Hnew. simpl. repeat split.
    subst N. unfold persisted in *.
    destruct (first_pk 1 (DB.heights file)) as [h|]; simpl in *;
      (rewrite u64_small by lia; rewrite i64_small by lia; reflexivity). }
  destruct Hc as (Hh & Hdb & Hlog). split; [exact Hh|].
  assert (Hr : resumable c).
  { unfold resumable. rewrite Hh, Hdb. fold N. lia. }
  intros ticks more c1 c2.
  destruct (Start_moves_on ticks c Hr) as (Hp1 & _ & extra & Hl & Hf).
  destruct (Start_app_moves_on ticks more c Hr) as (Hp2 & _).
  rewrite Hdb in Hp1. fold N in Hp1. fold c1 in Hp1, Hl, Hp2. fold c2 in Hp2.
  repeat split; try assumption.
  exists extra. rewrite <- Hlog. split; [exact Hl|].
  apply Forall_impl with (2 := Hf). intros h Hle. lia.
Qed.

End Ticks.

(** ** No blank keys

    [Save] never stores a row under the key 0, so a store that the indexer
    filled has none among its proposals and grants. *)

Section Keyed.
Context `{hac_types}.
Local Open Scope string_scope.
Local Open Scope Z_scope.

Lemma keeps_keyed_refl c : keeps_keyed c c.
Proof. intros K. exact K. Qed.

Lemma keeps_keyed_trans c1 c2 c3 :
  keeps_keyed c1 c2 -> keeps_keyed c2 c3 -> keeps_keyed c1 c3.
Proof. unfold keeps_keyed. auto. Qed.

Lemma keyed_empty : keyed DB.empty.
Proof. split; constructor. Qed.

Lemma keyed_db_exec w op f :
  (forall d, keyed d -> keyed (f d)) -> preserves keeps_keyed (db_exec w op f).
Proof.
  intros Hf c K. unfold db_exec. destruct (db_fails w op); simpl; auto.
Qed.

Lemma keyed_same_db A (m : M A) :
  (forall c, ChainIndexer.db (state_of (m c)) = ChainIndexer.db c) ->
  preserves keeps_keyed m.
Proof. intros Hm c K. rewrite Hm. exact K. Qed.

Lemma keyed_save_proposal q d :
  keyed d -> keyed (DB.with_proposals (save q) d).
Proof.
  intros [Kp Kg]. split; simpl; [|exact Kg].
  exact (save_pk_nonzero q (DB.proposals d) Kp).
Qed.

Lemma keyed_save_grant g d :
  keyed d -> keyed (DB.with_grants (save g) d).
Proof.
  intros [Kp Kg]. split; simpl; [exact Kp|].
  exact (save_pk_nonzero g (DB.grants d) Kg).
Qed.

Lemma keyed_log_err msg err : preserves keeps_keyed (log_err msg err).
Proof. apply keyed_same_db. intros c. destruct err; reflexivity. Qed.

Lemma keyed_handleEvent w e h : preserves keeps_keyed (handleEvent w e h).
Proof.
  unfold handleEvent, eventHandlers, lookup_handler.
  repeat match goal with
         | |- context [if ?b then _ else _] => destruct b
         end;
    unfold handleEventGrant, handleEventDiscussion, handleEventSettleProposal,
      handleEventProposal, decode_fail;
    frame keeps_keyed_refl keeps_keyed_trans
      ltac:(first [ apply keyed_log_err
                  | apply keyed_db_exec; intros d K;
                    first [ apply keyed_save_proposal, K
                          | apply keyed_save_grant, K | exact K ]
                  | apply keyed_same_db; intros c0; reflexivity ]).
Qed.

Lemma keyed_handle_txs w txs h : preserves keeps_keyed (handle_txs w txs h).
Proof.
  assert (Hev : forall es, preserves keeps_keyed (handle_events w es h)).
  { induction es as [|e es IH]; simpl.
    - apply preserves_ret, keeps_keyed_refl.
    - apply preserves_bind;
        [apply keeps_keyed_trans|apply keyed_handleEvent|auto]. }
  induction txs as [|es txs IH]; simpl.
  - apply preserves_ret, keeps_keyed_refl.
  - apply preserves_bind; [apply keeps_keyed_trans|apply Hev|auto].
Qed.

(** A pass over a height keeps the proposals and grants free of blank
    keys. *)
Lemma keyed_sync_height w c :
  keyed (ChainIndexer.db c) ->
  keyed (ChainIndexer.db (state_of (sync_height w c))).
Proof.
  intros K. rewrite sync_height_eq. cbv zeta.
  destruct (ChainIndexer.cli c); [|exact K].
  destruct (BlockResults w (ChainIndexer.Height c)) as [events|].
  - pose proof (keyed_handle_txs w events (ChainIndexer.Height c) (announced c) K)
      as K1.
    destruct (handle_txs _ _ _ _) as [[] c1|c1]; simpl in K1; [|exact K1].
    pose proof (votes_only_handleVote w (ChainIndexer.Height c) c1) as V.
    assert (K2 : keyed (ChainIndexer.db
                   (state_of (handleVote w (ChainIndexer.Height c) c1)))).
    { destruct V as [_ _ _ _ Vp Vg _]. unfold keyed. rewrite Vp, Vg. exact K1. }
    destruct (handleVote _ _ _) as [[e|] c2|c2]; simpl in K2; try exact K2.
    destruct (db_fails _ _); exact K2.
  - pose proof (votes_only_reconnect w (ChainIndexer.with_log
                     (Error "get status fail" [("err", VErr ErrRPC)])
                     (announced c))) as V.
    assert (K2 : keyed (ChainIndexer.db (state_of
                   (reconnect_unless_running w (ChainIndexer.with_log
                     (Error "get status fail" [("err", VErr ErrRPC)])
                     (announced c)))))).
    { destruct V as [_ _ _ _ Vp Vg _]. unfold keyed. rewrite Vp, Vg. exact K. }
    destruct (reconnect_unless_running _ _) as [[e|] c'|c']; exact K2.
Qed.

End Keyed.

(** ** The sync loop and vote reconciliation: what the specification
       says of them *)

Section Claims.
Context `{hac_types}.
Local Open Scope string_scope.
Local Open Scope Z_scope.

(** C1.  In a pass of the sync loop over the height H, the persisted
    IndexProgress height (and the in-memory height with it) changes only
    as the last step of a pass that fetched the block results of H,
    dispatched every event of them and got success from vote
    reconciliation, and then it is H; when vote reconciliation returns an
    error, or the write of the height fails, neither the persisted height
    nor the in-memory height moves. *)
Theorem height_written_after_reconciliation w c :
  let height := ChainIndexer.Height c in
  let c' := state_of (sync_height w c) in
  (same_progress c c'
   \/ exists events c1 c2,
        BlockResults w height = Some events
        /\ handle_txs w events height (announced c) = Ok tt c1
        /\ handleVote w height c1 = Ok None c2
        /\ db_fails w (OpSaveHeight (Height.mk 1 (u64 height))) = false
        /\ sync_height w c = Ok tt (advanced c2)
        /\ persisted (ChainIndexer.db c') = u64 height
        /\ ChainIndexer.Height c' = i64 (height + 1))
  /\ (forall events c1,
        ChainIndexer.cli c <> None ->
        BlockResults w height = Some events ->
        handle_txs w events height (announced c) = Ok tt c1 ->
        (exists e c2, handleVote w height c1 = Ok (Some e) c2)
        \/ (exists c2, handleVote w height c1 = Ok None c2
                       /\ db_fails w (OpSaveHeight (Height.mk 1 (u64 height)))
                          = true) ->
        same_progress c c'
        /\ persisted (ChainIndexer.db c') = persisted (ChainIndexer.db c)).
Proof.
  intros height c'. subst height c'. split.
  - destruct (sync_height_cases w c)
      as [Hs|(events & c1 & c2 & Ev & E1 & E2 & F & Hh & Hr)]; [left; exact Hs|].
    right. exists events, c1, c2. repeat split; try assumption.
    + rewrite Hr. cbn [state_of]. rewrite persisted_advanced, Hh. reflexivity.
    + rewrite Hr. cbn [state_of]. unfold advanced. simpl. rewrite Hh.
      reflexivity.
  - intros events c1 Hc Ev E1 Hfail.
    pose proof (pass_without_progress w c events c1 Ev E1 Hfail) as Hs.
    split; [exact Hs|]. apply same_progress_persisted. exact Hs.
Qed.

(** C2.  Running vote reconciliation for a height a second time, against
    the same commit and the same answers of the chain, after it returned
    success, returns success again and leaves the indexer, and so every
    vote row, exactly as the first run left it; and no run of it, however
    it ends, makes two rows of a vote table carry the same (height, voter
    index) pair: a row is inserted only for a pair that has none.  (The
    height of the commit is a block height, a non-negative [int64].) *)
Theorem vote_reconciliation_idempotent w h c c1 res :
  Commit w h = Some res ->
  0 <= ResultCommit.Height res < 2 ^ 63 ->
  handleVote w h c = Ok None c1 ->
  handleVote w h c1 = Ok None c1
  /\ (forall c0,
        NoDup (map proposal_vote_id (DB.proposal_votes (ChainIndexer.db c0))) ->
        NoDup (map proposal_vote_id
                 (DB.proposal_votes
                    (ChainIndexer.db (state_of (handleVote w h c0))))))
  /\ (forall c0,
        NoDup (map grant_vote_id (DB.grant_votes (ChainIndexer.db c0))) ->
        NoDup (map grant_vote_id
                 (DB.grant_votes
                    (ChainIndexer.db (state_of (handleVote w h c0)))))).
Proof.
  intros Hres Hrange Hrun.
  assert (Hvh : u64 (ResultCommit.Height res) = ResultCommit.Height res)
    by (apply u64_small; lia).
  split; [exact (handleVote_idempotent w h c c1 res Hres Hvh Hrun)|].
  split; intros c0; apply (handleVote_NoDup w h c0 res Hres Hvh).
Qed.

(** C3.  With the commit of the height at hand, the three lookups
    answering, and no blank key among the proposals and grants, vote
    reconciliation takes the first kind of record that matches the height
    [vh] of the commit, in the order: a proposal created at [vh], a
    proposal settled at [vh], a grant of [vh].  It runs the loop of that
    record and nothing else: a match of a proposal leaves the grant votes
    alone and every row it adds names that proposal, a match of a grant
    leaves the proposal votes alone; and where none matches it returns
    success and changes nothing. *)
Theorem reconciliation_priority w h c res :
  ChainIndexer.cli c <> None ->
  Commit w h = Some res ->
  lookups_answer w (ResultCommit.Height res) ->
  keyed (ChainIndexer.db c) ->
  let vh := ResultCommit.Height res in
  let sigs := ResultCommit.Signatures res in
  let d := ChainIndexer.db c in
  let c' := state_of (handleVote w h c) in
  let created p := In p (DB.proposals d) /\ Proposal.NewHeight p = vh in
  let settled p := In p (DB.proposals d) /\ Proposal.SettleHeight p = vh in
  let granted g := In g (DB.grants d) /\ Grant.Height g = vh in
  ((exists p, created p) ->
   exists p, created p
     /\ handleVote w h c = proposal_votes_of w (Proposal.Id p) vh sigs c
     /\ DB.grant_votes (ChainIndexer.db c') = DB.grant_votes d
     /\ forall r, In r (DB.proposal_votes (ChainIndexer.db c')) ->
          In r (DB.proposal_votes d)
          \/ (ProposalVote.Proposal r = Proposal.Id p
              /\ ProposalVote.Height r = u64 vh))
  /\ ((forall p, ~ created p) -> (exists p, settled p) ->
      exists p, settled p
        /\ handleVote w h c = proposal_votes_of w (Proposal.Id p) vh sigs c
        /\ DB.grant_votes (ChainIndexer.db c') = DB.grant_votes d
        /\ forall r, In r (DB.proposal_votes (ChainIndexer.db c')) ->
             In r (DB.proposal_votes d)
             \/ (ProposalVote.Proposal r = Proposal.Id p
                 /\ ProposalVote.Height r = u64 vh))
  /\ ((forall p, ~ created p) -> (forall p, ~ settled p) ->
      (exists g, granted g) ->
      exists g, granted g
        /\ handleVote w h c = grant_votes_of w g vh sigs c
        /\ DB.proposal_votes (ChainIndexer.db c') = DB.proposal_votes d
        /\ forall r, In r (DB.grant_votes (ChainIndexer.db c')) ->
             In r (DB.grant_votes d)
             \/ (GrantVote.AccountIndex r = Grant.Id g
                 /\ GrantVote.Height r = u64 vh))
  /\ ((forall p, ~ created p) -> (forall p, ~ settled p) ->
      (forall g, ~ granted g) ->
      handleVote w h c = Ok None c).
Proof.
  intros Hc Hres Hans [Kp Kg]. cbv zeta.
  rewrite (handleVote_reconciled w h c res Hc Hres Hans). cbv zeta.
  unfold reconciled.
  assert (Hfound : forall (q : Proposal.t -> bool),
    (exists p, In p (DB.proposals (ChainIndexer.db c)) /\ q p = true) ->
    exists p, first_where q (DB.proposals (ChainIndexer.db c)) = Some p
              /\ In p (DB.proposals (ChainIndexer.db c)) /\ q p = true
              /\ negb (Proposal.Id p =? 0) = true).
  { intros q (p & Hin & Hq).
    destruct (first_where_found q _ p Hin Hq) as [p' Hp'].
    exists p'. split; [exact Hp'|]. apply first_where_Some in Hp'.
    destruct Hp' as [Hin' Hq']. repeat split; auto.
    rewrite Forall_forall in Kp. apply negb_true_iff, Z.eqb_neq, Kp, Hin'. }
  assert (Hnone : forall (q : Proposal.t -> bool),
    (forall p, ~ (In p (DB.proposals (ChainIndexer.db c)) /\ q p = true)) ->
    first_where q (DB.proposals (ChainIndexer.db c)) = None).
  { intros q Hq. apply first_where_None. intros p Hin.
    destruct (q p) eqn:E; [|reflexivity]. exfalso. apply (Hq p). auto. }
  assert (Hnew_none :
    (forall p, ~ (In p (DB.proposals (ChainIndexer.db c))
                  /\ Proposal.NewHeight p = ResultCommit.Height res)) ->
    new_proposal_at (ChainIndexer.db c) (ResultCommit.Height res) = None).
  { intros Hn. apply Hnone. intros p [Hin Hq]. apply (Hn p).
    apply Z.eqb_eq in Hq. auto. }
  assert (Hset_none :
    (forall p, ~ (In p (DB.proposals (ChainIndexer.db c))
                  /\ Proposal.SettleHeight p = ResultCommit.Height res)) ->
    settled_proposal_at (ChainIndexer.db c) (ResultCommit.Height res) = None).
  { intros Hn. apply Hnone. intros p [Hin Hq]. apply (Hn p).
    apply Z.eqb_eq in Hq. auto. }
  repeat split.
  - intros (p & Hin & Hp).
    destruct (Hfound (fun p => Proposal.NewHeight p =? ResultCommit.Height res))
      as (p' & Hf & Hin' & Hq & Hk).
    { exists p. split; [exact Hin|]. apply Z.eqb_eq. exact Hp. }
    exists p'. apply Z.eqb_eq in Hq. split; [auto|].
    unfold new_proposal_at. rewrite Hf. simpl. rewrite Hk.
    split; [reflexivity|]. apply proposal_votes_of_effect.
  - intros Hn (p & Hin & Hp). rewrite (Hnew_none Hn). simpl.
    destruct (Hfound (fun p => Proposal.SettleHeight p =? ResultCommit.Height res))
      as (p' & Hf & Hin' & Hq & Hk).
    { exists p. split; [exact Hin|]. apply Z.eqb_eq. exact Hp. }
    exists p'. apply Z.eqb_eq in Hq. split; [auto|].
    unfold settled_proposal_at. rewrite Hf. simpl. rewrite Hk.
    split; [reflexivity|]. apply proposal_votes_of_effect.
  - intros Hn Hs (g & Hin & Hg). rewrite (Hnew_none Hn), (Hset_none Hs). simpl.
    destruct (first_where_found
                (fun g => Grant.Height g =? ResultCommit.Height res) _ g Hin)
      as [g' Hf]; [apply Z.eqb_eq; exact Hg|].
    pose proof (first_where_Some _ _ _ Hf) as [Hin' Hq]. apply Z.eqb_eq in Hq.
    exists g'. split; [auto|]. unfold grant_at. rewrite Hf. simpl.
    assert (Hk : negb (Grant.Id g' =? 0) = true).
    { rewrite Forall_forall in Kg. apply negb_true_iff, Z.eqb_neq, Kg, Hin'. }
    rewrite Hk. split; [reflexivity|]. apply grant_votes_of_effect.
  - intros Hn Hs Hg. rewrite (Hnew_none Hn), (Hset_none Hs). simpl.
    unfold grant_at. rewrite (proj2 (first_where_None _ _)); [reflexivity|].
    intros g Hin. destruct (Grant.Height g =? _) eqn:E; [|reflexivity].
    exfalso. apply (Hg g). apply Z.eqb_eq in E. auto.
Qed.

(** C10.  Where every lookup of vote reconciliation finds nothing or a
    record whose primary key is 0, the record found is taken for no
    record: reconciliation returns success and leaves the indexer, and
    with it both vote tables, as they were. *)
Theorem blank_key_taken_for_no_record w h c res :
  ChainIndexer.cli c <> None ->
  Commit w h = Some res ->
  lookups_answer w (ResultCommit.Height res) ->
  let vh := ResultCommit.Height res in
  let d := ChainIndexer.db c in
  (forall p, new_proposal_at d vh = Some p -> Proposal.Id p = 0) ->
  (forall p, settled_proposal_at d vh = Some p -> Proposal.Id p = 0) ->
  (forall g, grant_at d vh = Some g -> Grant.Id g = 0) ->
  handleVote w h c = Ok None c.
Proof.
  intros Hc Hres Hans vh d Hn Hs Hg.
  rewrite (handleVote_reconciled w h c res Hc Hres Hans). cbv zeta.
  unfold reconciled. fold vh d.
  assert (E1 : Proposal.Id (or_zero_proposal (new_proposal_at d vh)) = 0).
  { destruct (new_proposal_at d vh) as [p|]; [apply Hn|]; reflexivity. }
  assert (E2 : Proposal.Id (or_zero_proposal (settled_proposal_at d vh)) = 0).
  { destruct (settled_proposal_at d vh) as [p|]; [apply Hs|]; reflexivity. }
  assert (E3 : Grant.Id (or_zero_grant (grant_at d vh)) = 0).
  { destruct (grant_at d vh) as [g|]; [apply Hg|]; reflexivity. }
  rewrite E1, E2, E3. reflexivity.
Qed.

(** C4, as the code has it.  For a height that has a record to reconcile
    (a proposal created or settled at the height of its commit, or a grant
    of that height, with a key that is not 0) and whose commit holds a
    signature for whose address the chain answers with no account, vote
    reconciliation returns an error; the pass that ran it leaves the
    persisted and the in-memory height as they were; and reconciliation of
    the same commit, run again from the state the failed run left (or from
    any state with that record to reconcile) once every address resolves
    and the store works, returns success and leaves a vote row of every
    signer. *)
Theorem unresolved_signer_fails_pending_height w h c res k :
  ChainIndexer.cli c <> None ->
  Commit w h = Some res ->
  0 <= ResultCommit.Height res < 2 ^ 63 ->
  lookups_answer w (ResultCommit.Height res) ->
  reconciled (ChainIndexer.db c) (ResultCommit.Height res) = Some k ->
  Forall (fun v => lookup w (signer v) <> NoAnswer)
    (ResultCommit.Signatures res) ->
  Exists (fun v => exists e, lookup w (signer v) = Unknown e)
    (ResultCommit.Signatures res) ->
  exists e c1,
    handleVote w h c = Ok (Some e) c1
    /\ (forall c0 events,
          ChainIndexer.Height c0 = h ->
          BlockResults w h = Some events ->
          handle_txs w events h (announced c0) = Ok tt c ->
          same_progress c0 (state_of (sync_height w c0))
          /\ persisted (ChainIndexer.db (state_of (sync_height w c0)))
             = persisted (ChainIndexer.db c0))
    /\ ChainIndexer.cli c1 <> None
    /\ reconciled (ChainIndexer.db c1) (ResultCommit.Height res) = Some k
    /\ (forall w' c',
          ChainIndexer.cli c' <> None ->
          reconciled (ChainIndexer.db c') (ResultCommit.Height res) = Some k ->
          Commit w' h = Some res ->
          (forall op, db_fails w' op = false) ->
          Forall (fun v => exists acc, lookup w' (signer v) = Known acc)
            (ResultCommit.Signatures res) ->
          exists c2,
            handleVote w' h c' = Ok None c2
            /\ Forall (fun v => exists acc,
                         lookup w' (signer v) = Known acc
                         /\ has_vote (ChainIndexer.db c2) k
                              (ResultCommit.Height res) (Account.Index acc))
                 (ResultCommit.Signatures res)).
Proof.
  intros Hc Hres Hrange Hans Hk Hall Hex.
  destruct (handleVote_rejects w h c res k Hc Hres Hans Hk Hall Hex)
    as (e & c1 & Hrun & Hcli).
  exists e, c1. split; [exact Hrun|]. split; [|split; [|split]].
  - intros c0 events Hh Ev E1. subst h.
    assert (Hs : same_progress c0 (state_of (sync_height w c0))).
    { apply (pass_without_progress w c0 events c Ev E1). left. eauto. }
    split; [exact Hs|]. apply same_progress_persisted. exact Hs.
  - congruence.
  - pose proof (votes_only_handleVote w h c) as V. rewrite Hrun in V.
    simpl in V. rewrite (reconciled_votes_only c c1 _ V). exact Hk.
  - intros w' c' Hc' Hk' Hres' Hdb Hknown.
    apply handleVote_completes; try assumption. apply u64_small. lia.
Qed.

(** C5.  What the claim forbids happens: after an RPC call that returned
    an error, the indexer goes on to read the result unless a
    reconnection was tried and failed, that is, whenever the client still
    reports itself running, or was replaced by a fresh one.  The result is
    nil and the read is a panic, which ends the loop: in the tick after
    the head query, in the pass after the fetch of the block results, in
    vote reconciliation after the fetch of the commit, and in the account
    lookup after the point query. *)
Theorem rpc_error_then_nil_dereference w c :
  ChainIndexer.cli c <> None ->
  IsRunning w = true \/ Dial w = true ->
  (Status w = None -> forall ws, exists c', tick w ws c = Panic c')
  /\ (BlockResults w (ChainIndexer.Height c) = None ->
      exists c', sync_height w c = Panic c')
  /\ (forall h, Commit w h = None -> exists c', handleVote w h c = Panic c')
  /\ (forall index address dat,
        account_key index address = inl dat ->
        ABCIQuery w "/accounts/" dat = None ->
        exists c', queryAccount w index address c = Panic c').
Proof.
  intros Hc Hup.
  assert (Hre : forall c0, exists c', reconnect_unless_running w c0 = Ok None c').
  { intros c0. unfold reconnect_unless_running.
    destruct (IsRunning w) eqn:R; [eexists; reflexivity|].
    destruct Hup as [Hup|Hup]; [discriminate|].
    unfold bind, connect, log_err, ret. rewrite Hup. eexists; reflexivity. }
  destruct (ChainIndexer.cli c) as [cl|] eqn:Hcli; [clear Hc|congruence].
  repeat split.
  - intros Hs ws. unfold tick. rewrite Hcli, Hs.
    unfold bind at 1, ret at 1. unfold bind at 1, the_cli. rewrite Hcli.
    unfold bind at 1. unfold bind at 1, log at 1.
    match goal with |- context [reconnect_unless_running w ?c0] =>
      destruct (Hre c0) as [c' ->] end.
    eexists. reflexivity.
  - intros Hb. rewrite sync_height_eq. cbv zeta. rewrite Hcli, Hb.
    match goal with |- context [reconnect_unless_running w ?c0] =>
      destruct (Hre c0) as [c' ->] end.
    eexists. reflexivity.
  - intros h Hcm. unfold handleVote. rewrite Hcm.
    unfold bind at 1, the_cli. rewrite Hcli.
    unfold bind at 1. unfold bind at 1, log at 1.
    match goal with |- context [reconnect_unless_running w ?c0] =>
      destruct (Hre c0) as [c' ->] end.
    eexists. reflexivity.
  - intros index address dat Hkey Hq. unfold queryAccount. rewrite Hkey, Hq.
    unfold bind at 1, the_cli. rewrite Hcli.
    unfold bind at 1. unfold bind at 1, log at 1.
    match goal with |- context [reconnect_unless_running w ?c0] =>
      destruct (Hre c0) as [c' ->] end.
    eexists. reflexivity.
Qed.

(** C6, as the code has it.  A pass over the height H in which vote
    reconciliation returns an error, or the write of the height fails,
    ends without moving the persisted or the in-memory height; the
    catch-up loop then tests its condition, which is still true, and runs
    its next pass, over H again, within the same tick. *)
Theorem failed_pass_retried_in_same_tick w c events c1 latest :
  ChainIndexer.cli c <> None ->
  latest > ChainIndexer.Height c ->
  BlockResults w (ChainIndexer.Height c) = Some events ->
  handle_txs w events (ChainIndexer.Height c) (announced c) = Ok tt c1 ->
  (exists e c2, handleVote w (ChainIndexer.Height c) c1 = Ok (Some e) c2)
  \/ (exists c2, handleVote w (ChainIndexer.Height c) c1 = Ok None c2
        /\ db_fails w (OpSaveHeight (Height.mk 1 (u64 (ChainIndexer.Height c))))
           = true) ->
  exists c',
    sync_height w c = Ok tt c'
    /\ ChainIndexer.Height c' = ChainIndexer.Height c
    /\ persisted (ChainIndexer.db c') = persisted (ChainIndexer.db c)
    /\ (forall ws, catch_up latest (w :: ws) c = catch_up latest ws c')
    /\ (forall w' ws,
          catch_up latest (w :: w' :: ws) c =
          match sync_height w' c' with
          | Ok _ c'' => catch_up latest ws c''
          | Panic c'' => Panic c''
          end).
Proof.
  intros Hc Hlt Ev E1 Hfail.
  pose proof (pass_without_progress w c events c1 Ev E1 Hfail) as Hs.
  assert (Hok : exists c', sync_height w c = Ok tt c').
  { rewrite sync_height_eq. cbv zeta.
    destruct (ChainIndexer.cli c); [|congruence]. rewrite Ev, E1.
    destruct Hfail as [(e & c2 & ->)|(c2 & -> & ->)]; eexists; reflexivity. }
  destruct Hok as [c' Hok]. rewrite Hok in Hs. simpl in Hs.
  destruct Hs as [Hh Ht].
  assert (Hcond : (latest >? ChainIndexer.Height c) = true)
    by (apply Z.gtb_lt; lia).
  exists c'. repeat split.
  - exact Hok.
  - exact Hh.
  - unfold persisted. rewrite Ht. reflexivity.
  - intros ws. simpl. rewrite Hcond, Hok. reflexivity.
  - intros w' ws. simpl. rewrite Hcond, Hok, Hh, Hcond. reflexivity.
Qed.

End Claims.


(** ** The event handlers *)

Section HandlerClaims.
Context `{hac_types}.
Local Open Scope string_scope.
Local Open Scope Z_scope.


(** The proposal table after the Proposal handler wrote [q]. *)
Lemma handleEventProposal_proposals w event height c ev :
  DecodeEventProposal event = Some ev ->
  let q := {|
    Proposal.Id := EventProposal.ProposalIndex ev;
    Proposal.ProposerIndex := EventProposal.Proposer ev;
    Proposal.ProposerAddress := EventProposal.ProposerAddress ev;
    Proposal.Data := EventProposal.Data ev;
    Proposal.NewHeight := u64 height;
    Proposal.SettleHeight := 0;
    Proposal.Status := EventProposal.Status ev |} in
  DB.proposals (ChainIndexer.db (state_of (handleEventProposal w event height c)))
  = if db_fails w (OpSaveProposal q)
    then DB.proposals (ChainIndexer.db c)
    else save q (DB.proposals (ChainIndexer.db c)).
Proof.
  intros Hdec q. unfold handleEventProposal. rewrite Hdec. fold q.
  unfold bind, db_exec, log_err, log, ret.
  destruct (db_fails w (OpSaveProposal q)); simpl;
    destruct (AddProposal w _ _ _); destruct (CommentPropoal w _ _);
    reflexivity.
Qed.




End HandlerClaims.

(** ** The read side: ordering and pages *)

Lemma In_firstn {A} n (l : list A) x : In x (firstn n l) -> In x l.
Proof.
  revert n. induction l as [|y l IH]; intros n Hx.
  - rewrite firstn_nil in Hx. destruct Hx.
  - destruct n; simpl in Hx; [destruct Hx|].
    destruct Hx as [<-|Hx]; [left; reflexivity|right; eapply IH, Hx].
Qed.

Lemma In_skipn {A} n (l : list A) x : In x (skipn n l) -> In x l.
Proof.
  revert n. induction l as [|y l IH]; intros n Hx.
  - rewrite skipn_nil in Hx. destruct Hx.
  - destruct n; simpl in Hx; [exact Hx|]. right. eapply IH, Hx.
Qed.

Section QueryFacts.
Context {R : Type} `{Model R}.
Implicit Types (t l : list R) (p : R -> bool).

Lemma insert_desc_perm r l : Permutation (insert_desc r l) (r :: l).
Proof.
  induction l as [|x l IH]; simpl; [apply Permutation_refl|].
  destruct (pk x <=? pk r); [apply Permutation_refl|].
  eapply Permutation_trans; [apply perm_skip, IH|apply perm_swap].
Qed.

Lemma order_desc_perm t : Permutation (order_desc t) t.
Proof.
  induction t as [|x t IH]; simpl; [constructor|].
  eapply Permutation_trans; [apply insert_desc_perm|apply perm_skip, IH].
Qed.

Lemma order_desc_In t x : In x (order_desc t) <-> In x t.
Proof.
  split; apply Permutation_in; [|apply Permutation_sym]; apply order_desc_perm.
Qed.

Lemma order_desc_length t : List.length (order_desc t) = List.length t.
Proof. apply Permutation_length, order_desc_perm. Qed.

Lemma insert_desc_sorted r l :
  StronglySorted (fun a b => pk b <= pk a) l ->
  StronglySorted (fun a b => pk b <= pk a) (insert_desc r l).
Proof.
  induction l as [|x l IH]; simpl; intros Hs.
  - constructor; constructor.
  - inversion Hs as [|? ? Hl Hx]; subst.
    destruct (pk x <=? pk r) eqn:E.
    + apply Z.leb_le in E. constructor; [exact Hs|].
      constructor; [exact E|]. apply Forall_impl with (2 := Hx).
      intros y Hy. lia.
    + apply Z.leb_gt in E. constructor; [apply IH, Hl|].
      apply Forall_forall. intros y Hy.
      apply (Permutation_in _ (insert_desc_perm r l)) in Hy.
      destruct Hy as [<-|Hy]; [lia|].
      rewrite Forall_forall in Hx. apply Hx, Hy.
Qed.

Lemma order_desc_sorted t :
  StronglySorted (fun a b => pk b <= pk a) (order_desc t).
Proof.
  induction t as [|x t IH]; simpl; [constructor|].
  apply insert_desc_sorted, IH.
Qed.

Lemma sorted_strict l :
  StronglySorted (fun a b => pk b <= pk a) l -> NoDup (map pk l) ->
  descending l.
Proof.
  unfold descending. induction l as [|x l IH]; intros Hs Hn; [constructor|].
  inversion Hs as [|? ? Hl Hx]; subst. inversion Hn as [|? ? Hnot Hn']; subst.
  constructor; [apply IH; assumption|].
  apply Forall_forall. intros y Hy. rewrite Forall_forall in Hx.
  specialize (Hx y Hy). assert (pk y <> pk x); [|lia].
  intros E. apply Hnot. rewrite <- E. apply in_map. exact Hy.
Qed.

Lemma unique_keys_filter p t : unique_keys t -> unique_keys (filter p t).
Proof.
  unfold unique_keys. induction t as [|x t IH]; simpl; intros Hn; [constructor|].
  inversion Hn as [|? ? Hnot Hn']; subst.
  destruct (p x); simpl; [|apply IH, Hn'].
  constructor; [|apply IH, Hn']. intros Hin. apply Hnot.
  apply in_map_iff in Hin. destruct Hin as (y & Hy & Hin).
  apply filter_In in Hin. rewrite <- Hy. apply in_map. tauto.
Qed.

Lemma order_desc_descending t : unique_keys t -> descending (order_desc t).
Proof.
  intros Hn. apply sorted_strict; [apply order_desc_sorted|].
  unfold unique_keys in Hn.
  apply Permutation_NoDup with (l := map pk t); [|exact Hn].
  apply Permutation_map, Permutation_sym, order_desc_perm.
Qed.

Lemma descending_firstn n l : descending l -> descending (firstn n l).
Proof.
  unfold descending. revert n. induction l as [|x l IH]; intros n Hs.
  - rewrite firstn_nil. constructor.
  - destruct n; simpl; [constructor|].
    inversion Hs as [|? ? Hl Hx]; subst. constructor; [apply IH, Hl|].
    apply Forall_forall. intros y Hy. rewrite Forall_forall in Hx.
    apply Hx. revert Hy. clear. revert n.
    induction l as [|z l IH]; intros n Hy.
    + rewrite firstn_nil in Hy. destruct Hy.
    + destruct n; simpl in Hy; [destruct Hy|].
      destruct Hy as [<-|Hy]; [left; reflexivity|right; eapply IH, Hy].
Qed.

Lemma descending_skipn n l : descending l -> descending (skipn n l).
Proof.
  unfold descending. revert n. induction l as [|x l IH]; intros n Hs.
  - rewrite skipn_nil. constructor.
  - destruct n; simpl; [exact Hs|].
    inversion Hs; subst. apply IH. assumption.
Qed.

(** The slice a page is, for a page number and a page size that are not
    negative and whose product is an [int]. *)
Lemma find_page_slice p page pageSize t :
  0 <= page -> 0 <= pageSize -> page * pageSize < 2 ^ 63 ->
  find_page p page pageSize t =
  Some (firstn (Z.to_nat pageSize)
          (skipn (Z.to_nat page * Z.to_nat pageSize) (order_desc (filter p t)))).
Proof.
  intros Hp Hs Hm. unfold find_page, limit_offset.
  rewrite i64_small by nia.
  destruct (pageSize <? 0) eqn:E1; [apply Z.ltb_lt in E1; lia|].
  destruct (page * pageSize <? 0) eqn:E2; [apply Z.ltb_lt in E2; nia|].
  rewrite Z2Nat.inj_mul by lia. reflexivity.
Qed.

Lemma firstn_add_skipn {A} (m a : nat) (l : list A) :
  firstn (m + a) l = firstn m l ++ firstn a (skipn m l).
Proof.
  revert l. induction m as [|m IH]; intros l; simpl; [reflexivity|].
  destruct l as [|x l]; simpl.
  - rewrite firstn_nil. reflexivity.
  - rewrite IH. reflexivity.
Qed.

(** The slices [0 .. n-1] of size [a], one after the other, are the first
    [n * a] elements. *)
Lemma slices_concat {A} (a n : nat) (l : list A) :
  flat_map (fun i => firstn a (skipn (i * a) l)) (seq 0 n) = firstn (n * a) l.
Proof.
  induction n as [|n IH]; [reflexivity|].
  rewrite seq_S, flat_map_app, IH. simpl. rewrite app_nil_r.
  replace (a + n * a)%nat with (n * a + a)%nat by lia.
  symmetry. apply firstn_add_skipn.
Qed.

Lemma flat_map_ext_seq {A} (f g : nat -> list A) n :
  (forall i, (i < n)%nat -> f i = g i) ->
  flat_map f (seq 0 n) = flat_map g (seq 0 n).
Proof.
  intros Hfg.
  induction n as [|n IH]; [reflexivity|].
  rewrite seq_S, !flat_map_app. simpl. rewrite IH, Hfg by auto. reflexivity.
Qed.

End QueryFacts.

Section PagedFacts.
Context {R : Type} `{Model R}.
Variables (fails : read_op -> bool) (what : string) (p : R -> bool)
  (t : table R).
Hypothesis reads : forall op, fails op = false.

Let matching := filter p t.

Lemma paged_slice page pageSize :
  0 <= page -> 0 <= pageSize -> page * pageSize < 2 ^ 63 ->
  paged fails what p t page pageSize =
  inl (firstn (Z.to_nat pageSize)
         (skipn (Z.to_nat page * Z.to_nat pageSize) (order_desc matching)),
       Z.of_nat (List.length matching)).
Proof.
  intros Hp Hs Hm. unfold paged. rewrite !reads.
  rewrite find_page_slice by assumption. reflexivity.
Qed.

Lemma listed_slice page pageSize :
  0 <= page -> 0 <= pageSize -> page * pageSize < 2 ^ 63 ->
  listed fails what p t page pageSize =
  inl (firstn (Z.to_nat pageSize)
         (skipn (Z.to_nat page * Z.to_nat pageSize) (order_desc matching))).
Proof.
  intros Hp Hs Hm. unfold listed. rewrite !reads.
  rewrite find_page_slice by assumption. reflexivity.
Qed.

(** What a slice of the ordered matching rows is like. *)
Lemma slice_shape page pageSize :
  0 <= page -> 0 <= pageSize -> unique_keys t ->
  let rows := firstn (Z.to_nat pageSize)
                (skipn (Z.to_nat page * Z.to_nat pageSize)
                   (order_desc matching)) in
  (forall r, In r rows -> In r t /\ p r = true)
  /\ Z.of_nat (List.length rows) <= pageSize
  /\ descending rows
  /\ (rows <> [] <->
      page * pageSize < Z.of_nat (List.length matching) /\ 0 < pageSize).
Proof.
  intros Hp Hs Hu rows. subst rows.
  set (a := Z.to_nat pageSize). set (k := (Z.to_nat page * a)%nat).
  set (L := order_desc matching).
  assert (HL : List.length L = List.length matching)
    by apply order_desc_length.
  split; [|split; [|split; [|split]]].
  - intros r Hr. apply (proj1 (filter_In p r t)).
    apply (proj1 (order_desc_In _ r)).
    eapply In_skipn, In_firstn; eassumption.
  - pose proof (firstn_le_length a (skipn k L)). lia.
  - apply descending_firstn, descending_skipn, order_desc_descending,
      unique_keys_filter, Hu.
  - intros Hne. destruct a as [|a'] eqn:E; [simpl in Hne; congruence|].
    assert (Hlen : (k < List.length L)%nat).
    { destruct (Nat.lt_ge_cases k (List.length L)) as [Hl|Hl]; [exact Hl|].
      exfalso. apply Hne. rewrite skipn_all2 by exact Hl. reflexivity. }
    subst k. rewrite HL in Hlen. lia.
  - intros [Hlt Hpos] Hnil.
    apply (f_equal (@List.length R)) in Hnil. rewrite length_firstn in Hnil.
    rewrite length_skipn in Hnil. simpl in Hnil. subst k a. rewrite HL in Hnil.
    nia.
Qed.

(** Enough pages hold every matching row once. *)
Lemma slices_cover pageSize n :
  0 < pageSize -> Z.of_nat (List.length matching) <= Z.of_nat n * pageSize ->
  Permutation
    (flat_map (fun i => firstn (Z.to_nat pageSize)
                          (skipn (i * Z.to_nat pageSize) (order_desc matching)))
       (seq 0 n))
    matching.
Proof.
  intros Hs Hn. rewrite slices_concat. rewrite firstn_all2.
  - apply order_desc_perm.
  - rewrite order_desc_length. nia.
Qed.

Lemma pages_paged_cover pageSize n :
  0 < pageSize -> Z.of_nat n * pageSize < 2 ^ 63 ->
  Z.of_nat (List.length matching) <= Z.of_nat n * pageSize ->
  Permutation (pages (fun page => paged fails what p t page pageSize) n)
    matching.
Proof.
  intros Hs Hm Hn. unfold pages.
  rewrite (flat_map_ext_seq _
             (fun i => firstn (Z.to_nat pageSize)
                         (skipn (i * Z.to_nat pageSize) (order_desc matching)))).
  - apply slices_cover; assumption.
  - intros i Hi. rewrite paged_slice by nia. rewrite Nat2Z.id. reflexivity.
Qed.

Lemma pages_listed_cover pageSize n :
  0 < pageSize -> Z.of_nat n * pageSize < 2 ^ 63 ->
  Z.of_nat (List.length matching) <= Z.of_nat n * pageSize ->
  Permutation (pages_listed (fun page => listed fails what p t page pageSize) n)
    matching.
Proof.
  intros Hs Hm Hn. unfold pages_listed.
  rewrite (flat_map_ext_seq _
             (fun i => firstn (Z.to_nat pageSize)
                         (skipn (i * Z.to_nat pageSize) (order_desc matching)))).
  - apply slices_cover; assumption.
  - intros i Hi. rewrite listed_slice by nia. rewrite Nat2Z.id. reflexivity.
Qed.

End PagedFacts.

Section GetterFacts.
Local Open Scope string_scope.
Local Open Scope Z_scope.

Lemma filter_all {A} (l : list A) : filter (fun _ => true) l = l.
Proof. induction l as [|x l IH]; simpl; [|rewrite IH]; reflexivity. Qed.

Lemma paged_is_page {R} `{Model R} fails what (p : R -> bool) t page pageSize :
  (forall op, fails op = false) ->
  0 <= page -> 0 <= pageSize -> page * pageSize < 2 ^ 63 -> unique_keys t ->
  is_page (paged fails what p t page pageSize) (filter p t) page pageSize.
Proof.
  intros Hr Hp Hs Hm Hu. eexists. split; [apply paged_slice; assumption|].
  destruct (slice_shape p t page pageSize Hp Hs Hu) as (H1 & H2 & H3 & H4).
  split; [|split; [exact H2|split; [exact H3|exact H4]]].
  intros r Hr'. apply filter_In. apply H1. exact Hr'.
Qed.

Lemma listed_is_listing {R} `{Model R} fails what (p : R -> bool) t page pageSize :
  (forall op, fails op = false) ->
  0 <= page -> 0 <= pageSize -> page * pageSize < 2 ^ 63 -> unique_keys t ->
  is_listing (listed fails what p t page pageSize) (filter p t) page pageSize.
Proof.
  intros Hr Hp Hs Hm Hu. eexists. split; [apply listed_slice; assumption|].
  destruct (slice_shape p t page pageSize Hp Hs Hu) as (H1 & H2 & H3 & H4).
  split; [|split; [exact H2|split; [exact H3|exact H4]]].
  intros r Hr'. apply filter_In. apply H1. exact Hr'.
Qed.

(** X1.  With the store answering, a page number and a page size that are
    not negative (their product an [int]) and tables without a repeated
    key, each of the eight paging getters returns rows of its table that
    match its condition, at most [pageSize] of them, by strictly falling
    id; the page is empty exactly when [page * pageSize] is at or past the
    number of matching rows (or the size is 0); and the four getters that
    count return that number as the total. *)
Theorem getters_return_pages fails d page pageSize addr id :
  (forall op, fails op = false) ->
  0 <= page -> 0 <= pageSize -> page * pageSize < 2 ^ 63 ->
  unique_keys (DB.proposals d) -> unique_keys (DB.grants d) ->
  unique_keys (DB.discussions d) -> unique_keys (DB.proposal_votes d) ->
  unique_keys (DB.grant_votes d) ->
  is_page (getProposals fails d page pageSize) (DB.proposals d) page pageSize
  /\ is_page (getProposalsByProposerAddr fails d addr page pageSize)
       (filter (fun p => String.eqb (Proposal.ProposerAddress p) addr)
          (DB.proposals d)) page pageSize
  /\ is_page (getDiscussionByProposal fails d id page pageSize)
       (filter (fun x => Discussion.Proposal x =? id) (DB.discussions d))
       page pageSize
  /\ is_page (getGrants fails d page pageSize) (DB.grants d) page pageSize
  /\ is_listing (getProposalVotesByProposal fails d id page pageSize)
       (filter (fun v => ProposalVote.Proposal v =? id) (DB.proposal_votes d))
       page pageSize
  /\ is_listing (getGrantVotesByGrant fails d id page pageSize)
       (filter (fun v => GrantVote.AccountIndex v =? id) (DB.grant_votes d))
       page pageSize
  /\ is_listing (getProposalVotesByVoter fails d addr page pageSize)
       (filter (fun v => String.eqb (ProposalVote.VoterAddress v) addr)
          (DB.proposal_votes d)) page pageSize
  /\ is_listing (getGrantVotesByVoter fails d addr page pageSize)
       (filter (fun v => String.eqb (GrantVote.VoterAddress v) addr)
          (DB.grant_votes d)) page pageSize.
Proof.
  intros Hr Hp Hs Hm Up Ug Ud Upv Ugv.
  repeat split.
  - pose proof (paged_is_page fails "proposals" (fun _ => true)
                  (DB.proposals d) page pageSize Hr Hp Hs Hm Up) as P.
    rewrite filter_all in P. exact P.
  - apply paged_is_page; assumption.
  - apply paged_is_page; assumption.
  - pose proof (paged_is_page fails "grants" (fun _ => true)
                  (DB.grants d) page pageSize Hr Hp Hs Hm Ug) as P.
    rewrite filter_all in P. exact P.
  - apply listed_is_listing; assumption.
  - apply listed_is_listing; assumption.
  - apply listed_is_listing; assumption.
  - apply listed_is_listing; assumption.
Qed.

(** X2.  Read page after page with one positive page size, the pages
    [0 .. n-1] of a paging getter hold every row that matches its
    condition exactly once, as soon as [n * pageSize] reaches the number
    of those rows. *)
Theorem pages_hold_every_row_once fails d pageSize n addr id :
  (forall op, fails op = false) ->
  0 < pageSize -> Z.of_nat n * pageSize < 2 ^ 63 ->
  let whole {A} (got matching : list A) :=
    Z.of_nat (List.length matching) <= Z.of_nat n * pageSize ->
    Permutation got matching in
  whole (pages (fun page => getProposals fails d page pageSize) n)
    (DB.proposals d)
  /\ whole
       (pages (fun page => getProposalsByProposerAddr fails d addr page pageSize) n)
       (filter (fun p => String.eqb (Proposal.ProposerAddress p) addr)
          (DB.proposals d))
  /\ whole
       (pages (fun page => getDiscussionByProposal fails d id page pageSize) n)
       (filter (fun x => Discussion.Proposal x =? id) (DB.discussions d))
  /\ whole (pages (fun page => getGrants fails d page pageSize) n)
       (DB.grants d)
  /\ whole
       (pages_listed
          (fun page => getProposalVotesByProposal fails d id page pageSize) n)
       (filter (fun v => ProposalVote.Proposal v =? id) (DB.proposal_votes d))
  /\ whole
       (pages_listed
          (fun page => getGrantVotesByGrant fails d id page pageSize) n)
       (filter (fun v => GrantVote.AccountIndex v =? id) (DB.grant_votes d))
  /\ whole
       (pages_listed
          (fun page => getProposalVotesByVoter fails d addr page pageSize) n)
       (filter (fun v => String.eqb (ProposalVote.VoterAddress v) addr)
          (DB.proposal_votes d))
  /\ whole
       (pages_listed
          (fun page => getGrantVotesByVoter fails d addr page pageSize) n)
       (filter (fun v => String.eqb (GrantVote.VoterAddress v) addr)
          (DB.grant_votes d)).
Proof.
  intros Hr Hs Hm whole. subst whole. cbv beta.
  repeat split.
  - intros He.
    pose proof (pages_paged_cover fails "proposals" (fun _ => true)
                  (DB.proposals d) Hr pageSize n Hs Hm) as P.
    rewrite filter_all in P. exact (P He).
  - intros He. apply pages_paged_cover; assumption.
  - intros He. apply pages_paged_cover; assumption.
  - intros He.
    pose proof (pages_paged_cover fails "grants" (fun _ => true)
                  (DB.grants d) Hr pageSize n Hs Hm) as P.
    rewrite filter_all in P. exact (P He).
  - intros He. apply pages_listed_cover; assumption.
  - intros He. apply pages_listed_cover; assumption.
  - intros He. apply pages_listed_cover; assumption.
  - intros He. apply pages_listed_cover; assumption.
Qed.

End GetterFacts.

(** ** The dispatch of events *)

Section Dispatch.
Context `{hac_types}.
Local Open Scope string_scope.
Local Open Scope list_scope.
Local Open Scope Z_scope.

Lemma dispatched_refl c : dispatched c c.
Proof.
  constructor; try reflexivity; exists []; rewrite app_nil_r; reflexivity.
Qed.

Lemma dispatched_trans c1 c2 c3 :
  dispatched c1 c2 -> dispatched c2 c3 -> dispatched c1 c3.
Proof.
  intros [A1 A2 A3 A4 A5 A6 (d1 & A7) (l1 & A8)]
         [B1 B2 B3 B4 B5 B6 (d2 & B7) (l2 & B8)].
  constructor; try congruence.
  - exists (d1 ++ d2). rewrite B7, A7, app_assoc. reflexivity.
  - exists (l1 ++ l2). rewrite B8, A8, app_assoc. reflexivity.
Qed.

Section Runs.
Variable R : ChainIndexer.t -> ChainIndexer.t -> Prop.
Hypothesis R_refl : forall c, R c c.
Hypothesis R_trans : forall c1 c2 c3, R c1 c2 -> R c2 c3 -> R c1 c3.

Lemma runs_ret A (a : A) : runs R (ret a).
Proof. intros c. exists a, c. split; [reflexivity|apply R_refl]. Qed.

Lemma runs_bind A B (m : M A) (k : A -> M B) :
  runs R m -> (forall a, runs R (k a)) -> runs R (bind m k).
Proof.
  intros Hm Hk c. destruct (Hm c) as (a & c1 & E1 & R1).
  destruct (Hk a c1) as (b & c2 & E2 & R2).
  exists b, c2. unfold bind. rewrite E1. split; [exact E2|].
  eapply R_trans; eassumption.
Qed.

Lemma runs_db_first A w op (q : DB.t -> option A) out :
  runs R (db_first w op q out).
Proof.
  intros c. unfold db_first. destruct (db_fails w op).
  - eexists _, c. split; [reflexivity|apply R_refl].
  - destruct (q _); eexists _, c; (split; [reflexivity|apply R_refl]).
Qed.

End Runs.

Lemma dispatched_log e : runs dispatched (log e).
Proof.
  intros c. eexists tt, _. split; [reflexivity|].
  constructor; try reflexivity; simpl.
  - exists []. rewrite app_nil_r. reflexivity.
  - exists [e]. reflexivity.
Qed.

Lemma dispatched_log_err msg err : runs dispatched (log_err msg err).
Proof.
  destruct err; simpl; [apply dispatched_log|].
  apply runs_ret, dispatched_refl.
Qed.

(** A store write that touches neither the [Height] table nor the vote
    tables and that keeps the discussions it finds. *)
Lemma dispatched_db_exec w op f :
  (forall d, DB.heights (f d) = DB.heights d
             /\ DB.proposal_votes (f d) = DB.proposal_votes d
             /\ DB.grant_votes (f d) = DB.grant_votes d
             /\ exists added, DB.discussions (f d) = DB.discussions d ++ added) ->
  runs dispatched (db_exec w op f).
Proof.
  intros Hf c. unfold db_exec. destruct (db_fails w op).
  - eexists _, c. split; [reflexivity|apply dispatched_refl].
  - eexists _, _. split; [reflexivity|].
    destruct (Hf (ChainIndexer.db c)) as (F1 & F2 & F3 & F4).
    constructor; simpl; try assumption; try reflexivity.
    exists []. rewrite app_nil_r. reflexivity.
Qed.

Lemma save_blank_appends {R} `{Model R} (r : R) (t : table R) :
  pk r = 0 -> save r t = t ++ [set_pk (next_pk t) r].
Proof. intros Hr. unfold save, create. rewrite Hr. reflexivity. Qed.

Ltac dispatch_leaf :=
  first [ apply dispatched_log_err | apply dispatched_log
        | apply dispatched_db_exec; intros d0;
          repeat split; try reflexivity;
          first [ exists []; rewrite app_nil_r; reflexivity
                | eexists; simpl; rewrite save_blank_appends by reflexivity;
                  reflexivity ] ].

Ltac dispatch :=
  repeat first
    [ apply (runs_ret _ dispatched_refl)
    | apply (runs_db_first _ dispatched_refl)
    | apply (runs_bind _ dispatched_trans); [|intros]
    | dispatch_leaf
    | match goal with
      | |- runs _ (match ?x with _ => _ end) => destruct x
      | |- runs _ (if ?x then _ else _) => destruct x
      | |- runs _ (let (_, _) := ?x in _) => destruct x
      end ].

Lemma dispatched_handleEventGrant w e h :
  runs dispatched (handleEventGrant w e h).
Proof. unfold handleEventGrant, decode_fail. dispatch. Qed.

Lemma dispatched_handleEventDiscussion w e h :
  runs dispatched (handleEventDiscussion w e h).
Proof. unfold handleEventDiscussion, decode_fail. dispatch. Qed.

Lemma dispatched_handleEventSettleProposal w e h :
  runs dispatched (handleEventSettleProposal w e h).
Proof. unfold handleEventSettleProposal, decode_fail. dispatch. Qed.

Lemma dispatched_handleEventProposal w e h :
  runs dispatched (handleEventProposal w e h).
Proof. unfold handleEventProposal, decode_fail. dispatch. Qed.

Lemma dispatched_handleEvent w e h : runs dispatched (handleEvent w e h).
Proof.
  unfold handleEvent, eventHandlers, lookup_handler.
  repeat match goal with
         | |- context [if ?b then _ else _] => destruct b
         end;
    first [ apply dispatched_handleEventGrant
          | apply dispatched_handleEventDiscussion
          | apply dispatched_handleEventSettleProposal
          | apply dispatched_handleEventProposal
          | apply runs_ret, dispatched_refl ].
Qed.

Lemma dispatched_handle_events w es h : runs dispatched (handle_events w es h).
Proof.
  induction es as [|e es IH]; simpl.
  - apply runs_ret, dispatched_refl.
  - apply runs_bind; [apply dispatched_trans|apply dispatched_handleEvent|auto].
Qed.

Lemma dispatched_handle_txs w txs h : runs dispatched (handle_txs w txs h).
Proof.
  induction txs as [|es txs IH]; simpl.
  - apply runs_ret, dispatched_refl.
  - apply runs_bind;
      [apply dispatched_trans|apply dispatched_handle_events|auto].
Qed.

(** X3.  However the dispatch of the events of a block ends, it leaves
    the client, the URL, the in-memory height, the [Height] table and both
    vote tables as they were; it only adds to the log, and it keeps every
    discussion it found, in place, those it writes coming after them.
    What it may change besides are the validators, the proposals and the
    grants. *)
Theorem dispatch_leaves_progress_and_votes w txs h c :
  dispatched c (state_of (handle_txs w txs h c)).
Proof.
  destruct (dispatched_handle_txs w txs h c) as ([] & c' & E & D).
  rewrite E. exact D.
Qed.

End Dispatch.

(** ** What a handler leaves for the getters and for [handleVote] *)

Section SaveFacts.
Context {R : Type} `{Model R}.
Implicit Types (t : table R).

(** A row of the table after [Save]: the stored row, or a row that was
    there and that the write did not replace. *)
Lemma In_save r t x :
  In x (save r t) ->
  x = stored r t \/ (In x t /\ (pk r = 0 \/ pk x <> pk r)).
Proof.
  unfold save, create, stored.
  destruct (pk r =? 0) eqn:E0.
  - apply Z.eqb_eq in E0. intros Hx. apply in_app_or in Hx.
    destruct Hx as [Hx|[<-|[]]]; auto.
  - destruct (existsb (fun y => pk y =? pk r) t) eqn:Ex.
    + intros Hx. apply in_map_iff in Hx. destruct Hx as (y & Hy & Hin).
      destruct (pk y =? pk r) eqn:E; [auto|].
      subst x. apply Z.eqb_neq in E. auto.
    + intros Hx. apply in_app_or in Hx. destruct Hx as [Hx|[<-|[]]]; [|auto].
      right. split; [exact Hx|]. right. intros E.
      assert (Hex : existsb (fun y => pk y =? pk r) t = true).
      { apply existsb_exists. exists x. split; [exact Hx|].
        apply Z.eqb_eq, E. }
      congruence.
Qed.

(** The stored row is in the table after [Save] of a row with a key. *)
Lemma In_save_same r t : pk r <> 0 -> In r (save r t).
Proof.
  intros Hr. apply first_pk_save_same with (t := t) in Hr.
  apply first_pk_Some in Hr. tauto.
Qed.

End SaveFacts.

Section OrderFacts.
Context {R : Type} `{Model R}.

(** A row whose key is above every key of the table comes first in
    [ORDER BY id desc]. *)
Lemma order_desc_snoc_max (t : table R) r :
  (forall x, In x t -> pk x < pk r) ->
  order_desc (t ++ [r]) = r :: order_desc t.
Proof.
  induction t as [|y t IH]; intros Hmax; [reflexivity|].
  change (insert_desc y (order_desc (t ++ [r]))
          = r :: insert_desc y (order_desc t)).
  rewrite IH by (intros; apply Hmax; simpl; auto).
  simpl. assert (Hy : pk y < pk r) by (apply Hmax; simpl; auto).
  apply Z.leb_gt in Hy. rewrite Hy. reflexivity.
Qed.

Lemma filter_below_next_pk p (t : table R) x :
  In x (filter p t) -> pk x < next_pk t.
Proof.
  intros Hx. apply filter_In in Hx. destruct Hx as [Hx _].
  pose proof (max_pk_ge t x Hx). unfold next_pk. lia.
Qed.

End OrderFacts.

Section HandlerFacts.
Context `{hac_types}.
Local Open Scope string_scope.
Local Open Scope list_scope.
Local Open Scope Z_scope.

(** X4.  An event that no decoder accepts is dropped, whatever type it
    carries: the handler returns, the store, the client and the in-memory
    height are as before, the log has at most the line
    [decode event fail] more, and the events after it in the block are
    handled from that state. *)
Theorem undecodable_event_dropped w e rest h c :
  ParseEventGrant e = None ->
  DecodeEventDiscussion e = None ->
  DecodeEventSettleProposal e = None ->
  DecodeEventProposal e = None ->
  exists c',
    handleEvent w e h c = Ok tt c'
    /\ ChainIndexer.db c' = ChainIndexer.db c
    /\ ChainIndexer.cli c' = ChainIndexer.cli c
    /\ ChainIndexer.Height c' = ChainIndexer.Height c
    /\ (ChainIndexer.logger c' = ChainIndexer.logger c
        \/ ChainIndexer.logger c'
           = ChainIndexer.logger c
             ++ [Error "decode event fail" [("event", VEvent e)]])
    /\ handle_events w (e :: rest) h c = handle_events w rest h c'.
Proof.
  intros HG HD HS HP.
  assert (Hrun : handleEvent w e h c = Ok tt c
                 \/ handleEvent w e h c
                    = Ok tt (ChainIndexer.with_log
                        (Error "decode event fail" [("event", VEvent e)]) c)).
  { unfold handleEvent, eventHandlers. cbn [lookup_handler].
    repeat match goal with
           | |- context [if ?b then _ else _] => destruct b
           end; auto;
      [ unfold handleEventGrant; rewrite HG
      | unfold handleEventDiscussion; rewrite HD
      | unfold handleEventSettleProposal; rewrite HS
      | unfold handleEventProposal; rewrite HP ]; auto. }
  destruct Hrun as [E|E]; eexists; (split; [exact E|]);
    (repeat split; [auto ..|]);
    simpl; unfold bind; rewrite E; reflexivity.
Qed.

(** The grant table after the Grant handler. *)
Lemma handleEventGrant_grants w event height c ev :
  ParseEventGrant event = Some ev ->
  let g := {|
    Grant.Id := EventGrant.Validator ev;
    Grant.Address := EventGrant.Address ev;
    Grant.Height := u64 height;
    Grant.Stake := EventGrant.Amount ev;
    Grant.Proposer := EventGrant.ProposerIndex ev;
    Grant.ProposerAddress := EventGrant.ProposerAddress ev;
    Grant.Grant := EventGrant.Grant ev |} in
  exists c',
    handleEventGrant w event height c = Ok tt c'
    /\ DB.grants (ChainIndexer.db c')
       = if db_fails w (OpSaveGrant g)
         then DB.grants (ChainIndexer.db c)
         else save g (DB.grants (ChainIndexer.db c)).
Proof.
  intros Hdec g. unfold handleEventGrant. rewrite Hdec. fold g.
  unfold bind, db_exec, log_err, log, ret.
  destruct (db_fails w (OpSaveGrant g)); simpl;
    destruct (db_fails w (OpSaveValidator _)); simpl;
    eexists; split; reflexivity.
Qed.

(** X5.  One grant record per validator, the last event winning: a Grant
    event that decodes, of a validator index that is not 0 and whose write
    of the grant goes through, leaves under that index the record made of
    the event and of the height of the block, whatever was there; the
    records of the other indexes are as they were; the table has as many
    rows as before where the index had a record; and this holds whether
    or not the write of the validator that follows goes through. *)
Theorem grant_event_overwrites_grant_record w event height c ev :
  ParseEventGrant event = Some ev ->
  EventGrant.Validator ev <> 0 ->
  let g := {|
    Grant.Id := EventGrant.Validator ev;
    Grant.Address := EventGrant.Address ev;
    Grant.Height := u64 height;
    Grant.Stake := EventGrant.Amount ev;
    Grant.Proposer := EventGrant.ProposerIndex ev;
    Grant.ProposerAddress := EventGrant.ProposerAddress ev;
    Grant.Grant := EventGrant.Grant ev |} in
  db_fails w (OpSaveGrant g) = false ->
  let before := DB.grants (ChainIndexer.db c) in
  exists c',
    handleEventGrant w event height c = Ok tt c'
    /\ let after := DB.grants (ChainIndexer.db c') in
       first_pk (EventGrant.Validator ev) after = Some g
       /\ (forall k, k <> EventGrant.Validator ev ->
             first_pk k after = first_pk k before)
       /\ (forall x, first_pk (EventGrant.Validator ev) before = Some x ->
             List.length after = List.length before)
       /\ (first_pk (EventGrant.Validator ev) before = None ->
             after = before ++ [g]).
Proof.
  intros Hdec Hid g F before.
  destruct (handleEventGrant_grants w event height c ev Hdec)
    as (c' & Hrun & Hafter).
  fold g in Hafter. rewrite F in Hafter. fold before in Hafter.
  exists c'. split; [exact Hrun|]. cbv zeta. rewrite Hafter. repeat split.
  - change (first_pk (pk g) (save g before) = Some g).
    apply first_pk_save_same. exact Hid.
  - intros k Hk. destruct (first_pk k before) as [x|] eqn:E.
    + apply first_pk_save_other; [exact E|exact Hk].
    + apply first_pk_save_absent; [exact E|]. unfold stored. simpl.
      apply Z.eqb_neq in Hid. rewrite Hid. exact Hk.
  - intros x Hx. apply (save_length_update g before x); [exact Hid|exact Hx].
  - intros Hnone. unfold save, create.
    change (pk g) with (EventGrant.Validator ev).
    apply Z.eqb_neq in Hid. rewrite Hid.
    destruct (existsb _ before) eqn:Ex; [|reflexivity].
    apply existsb_exists in Ex. destruct Ex as (x & Hx & Ex).
    unfold first_pk in Hnone. rewrite first_where_None in Hnone.
    rewrite (Hnone x Hx) in Ex. discriminate.
Qed.

(** What [getProposalById] and [getGrantById] answer, when the read goes
    through. *)
Lemma by_id_found {R} `{Model R} fails what (zero : R) id t r :
  fails (ReadFirst what) = false ->
  first_pk id t = Some r -> by_id fails what zero id t = (r, None).
Proof. intros F E. unfold by_id. rewrite F, E. reflexivity. Qed.

Lemma by_id_found_inv {R} `{Model R} fails what (zero : R) id t r :
  by_id fails what zero id t = (r, None) -> first_pk id t = Some r.
Proof.
  unfold by_id. destruct (fails _); [discriminate|].
  destruct (first_pk id t); [|discriminate]. congruence.
Qed.

(** X6.  What an event wrote is what the getter by id returns (the store
    answering, the key not 0): after a Proposal event, [getProposalById]
    of its index returns the record of the event, with the height of the
    block as creation height and settlement height 0; after a
    SettleProposal event of a proposal that [getProposalById] returned as
    [p], it returns [p] with the state of the event as status and the
    height of the block as settlement height; after a Grant event,
    [getGrantById] of the validator index returns the grant of the event;
    and an id that no proposal has yields the zero record and the
    not-found error. *)
Theorem getters_by_id_return_last_write fails w event height c :
  (forall op, fails op = false) ->
  (forall op, db_fails w op = false) ->
  let after handler := ChainIndexer.db (state_of (handler w event height c)) in
  (forall ev,
     DecodeEventProposal event = Some ev ->
     EventProposal.ProposalIndex ev <> 0 ->
     getProposalById fails (after handleEventProposal)
       (EventProposal.ProposalIndex ev)
     = ({| Proposal.Id := EventProposal.ProposalIndex ev;
           Proposal.ProposerIndex := EventProposal.Proposer ev;
           Proposal.ProposerAddress := EventProposal.ProposerAddress ev;
           Proposal.Data := EventProposal.Data ev;
           Proposal.NewHeight := u64 height;
           Proposal.SettleHeight := 0;
           Proposal.Status := EventProposal.Status ev |}, None))
  /\ (forall ev p,
        DecodeEventSettleProposal event = Some ev ->
        EventSettleProposal.Proposal ev <> 0 ->
        getProposalById fails (ChainIndexer.db c)
          (EventSettleProposal.Proposal ev) = (p, None) ->
        getProposalById fails (after handleEventSettleProposal)
          (EventSettleProposal.Proposal ev)
        = ({| Proposal.Id := Proposal.Id p;
              Proposal.ProposerIndex := Proposal.ProposerIndex p;
              Proposal.ProposerAddress := Proposal.ProposerAddress p;
              Proposal.Data := Proposal.Data p;
              Proposal.NewHeight := Proposal.NewHeight p;
              Proposal.SettleHeight := u64 height;
              Proposal.Status := u64 (EventSettleProposal.State ev) |}, None))
  /\ (forall ev,
        ParseEventGrant event = Some ev ->
        EventGrant.Validator ev <> 0 ->
        getGrantById fails (after handleEventGrant) (EventGrant.Validator ev)
        = ({| Grant.Id := EventGrant.Validator ev;
              Grant.Address := EventGrant.Address ev;
              Grant.Height := u64 height;
              Grant.Stake := EventGrant.Amount ev;
              Grant.Proposer := EventGrant.ProposerIndex ev;
              Grant.ProposerAddress := EventGrant.ProposerAddress ev;
              Grant.Grant := EventGrant.Grant ev |}, None))
  /\ (forall id,
        (forall p, In p (DB.proposals (ChainIndexer.db c)) ->
                   Proposal.Id p <> id) ->
        getProposalById fails (ChainIndexer.db c) id
        = (Proposal.zero, Some ReadNotFound)).
Proof.
  intros Hr Hw after. subst after. cbv beta. split; [|split; [|split]].
  - intros ev Hdec Hid. unfold getProposalById. apply by_id_found; [apply Hr|].
    rewrite (handleEventProposal_proposals w event height c ev Hdec).
    cbv zeta. rewrite Hw.
    match goal with |- first_pk _ (save ?r ?t) = _ =>
      change (first_pk (pk r) (save r t) = Some r);
      apply first_pk_save_same end.
    exact Hid.
  - intros ev p Hdec Hid Hget. unfold getProposalById in *.
    apply by_id_found_inv in Hget. apply by_id_found; [apply Hr|].
    pose proof (first_pk_Some _ _ _ Hget) as [_ Hpk]. simpl in Hpk.
    unfold handleEventSettleProposal. rewrite Hdec.
    unfold bind at 1, db_first. rewrite Hw, Hget.
    unfold bind, db_exec. rewrite Hw. unfold log_err, ret.
    cbn [state_of ChainIndexer.db ChainIndexer.with_db DB.proposals
         DB.with_proposals].
    rewrite <- Hpk at 1.
    match goal with |- first_pk _ (save ?r ?t) = _ =>
      change (first_pk (pk r) (save r t) = Some r);
      apply first_pk_save_same end.
    simpl. congruence.
  - intros ev Hdec Hid. unfold getGrantById. apply by_id_found; [apply Hr|].
    destruct (handleEventGrant_grants w event height c ev Hdec)
      as (c' & Hrun & Hafter).
    rewrite Hrun. cbn [state_of]. rewrite Hafter, Hw.
    match goal with |- first_pk _ (save ?r ?t) = _ =>
      change (first_pk (pk r) (save r t) = Some r);
      apply first_pk_save_same end.
    exact Hid.
  - intros id Hno. unfold getProposalById, by_id. rewrite Hr.
    destruct (first_pk id _) as [p|] eqn:E; [|reflexivity].
    apply first_pk_Some in E. destruct E as [Hin Hp].
    exfalso. exact (Hno p Hin Hp).
Qed.

(** X7.  A Discussion event whose write goes through appends one row,
    under a key above every key of the table, and changes no other row,
    whatever the agent answers; read back, with the store answering and a
    page size of at least 1, the first page of the discussions of that
    proposal is the new row followed by the former first page cut to
    [pageSize - 1] rows, the total is one more, and the pages of every
    other proposal are as before. *)
Theorem discussion_event_appends_newest_first fails w event height c ev :
  DecodeEventDiscussion event = Some ev ->
  (forall op, fails op = false) ->
  let before := DB.discussions (ChainIndexer.db c) in
  let row := {|
    Discussion.Id := next_pk before;
    Discussion.Proposal := EventDiscussion.Proposal ev;
    Discussion.SpeakerIndex := EventDiscussion.Speaker ev;
    Discussion.SpeakerAddress := EventDiscussion.SpeakerAddress ev;
    Discussion.Data := EventDiscussion.Data ev;
    Discussion.Height := u64 height |} in
  db_fails w (OpSaveDiscussion (set_pk 0 row)) = false ->
  exists c',
    handleEventDiscussion w event height c = Ok tt c'
    /\ DB.discussions (ChainIndexer.db c') = before ++ [row]
    /\ (forall x, In x before -> Discussion.Id x < Discussion.Id row)
    /\ (forall pageSize rows total,
          1 <= pageSize ->
          getDiscussionByProposal fails (ChainIndexer.db c)
            (EventDiscussion.Proposal ev) 0 pageSize = inl (rows, total) ->
          getDiscussionByProposal fails (ChainIndexer.db c')
            (EventDiscussion.Proposal ev) 0 pageSize
          = inl (row :: firstn (Z.to_nat (pageSize - 1)) rows, total + 1))
    /\ (forall proposal page pageSize,
          proposal <> EventDiscussion.Proposal ev ->
          getDiscussionByProposal fails (ChainIndexer.db c') proposal
            page pageSize
          = getDiscussionByProposal fails (ChainIndexer.db c) proposal
              page pageSize).
Proof.
  intros Hdec Hr before row F.
  assert (Hrun : exists c',
            handleEventDiscussion w event height c = Ok tt c'
            /\ DB.discussions (ChainIndexer.db c') = before ++ [row]).
  { unfold handleEventDiscussion. rewrite Hdec.
    unfold bind at 1, db_exec. simpl in F. rewrite F.
    unfold bind, log_err, log, ret.
    destruct (AddDiscussion w _ _ _); eexists; (split; [reflexivity|]);
      reflexivity. }
  destruct Hrun as (c' & Hrun & Hafter). exists c'.
  assert (Hmax : forall x, In x before -> Discussion.Id x < Discussion.Id row).
  { intros x Hx. pose proof (max_pk_ge before x Hx) as Hle.
    simpl in *. unfold next_pk. lia. }
  split; [exact Hrun|]. split; [exact Hafter|]. split; [exact Hmax|]. split.
  - intros pageSize rows total Hps. unfold getDiscussionByProposal, paged.
    rewrite !Hr, Hafter. fold before.
    unfold find_page, count_where, limit_offset.
    rewrite Z.mul_0_l. change (i64 0) with 0.
    assert (Hlim : (pageSize <? 0) = false) by (apply Z.ltb_ge; lia).
    rewrite Hlim. change (0 <? 0) with false. cbv iota.
    change (Z.to_nat 0) with O. rewrite !skipn_O.
    intros Hget. inversion Hget as [[Hrows Htotal]]. clear Hget.
    assert (Hf : filter (fun x => Discussion.Proposal x
                                  =? EventDiscussion.Proposal ev) [row]
                 = [row]).
    { simpl. rewrite Z.eqb_refl. reflexivity. }
    rewrite !filter_app, !Hf.
    rewrite order_desc_snoc_max.
    2:{ intros x Hx. apply filter_In in Hx. apply (Hmax x), Hx. }
    f_equal. f_equal.
    + replace (Z.to_nat pageSize) with (S (Z.to_nat (pageSize - 1))) by lia.
      rewrite firstn_cons. f_equal. rewrite firstn_firstn.
      f_equal. lia.
    + rewrite length_app. simpl. lia.
  - intros proposal page pageSize Hp. unfold getDiscussionByProposal, paged.
    rewrite Hafter. fold before. unfold find_page, count_where.
    assert (Hf : filter (fun x => Discussion.Proposal x =? proposal) [row]
                 = []).
    { simpl. assert (E : (EventDiscussion.Proposal ev =? proposal) = false)
        by (apply Z.eqb_neq; congruence).
      rewrite E. reflexivity. }
    rewrite !filter_app, !Hf, !app_nil_r. reflexivity.
Qed.

(** X8.  A proposal written at a height is found by the reconciliation of
    that height: after a Proposal event that decodes, with an index that
    is not 0 and a write that goes through, at a block height that is a
    [uint64], the store (free of blank keys) has a proposal created at
    that height, so [handleVote] of the commit of that height records
    votes on a proposal; it is the proposal of the event unless an older
    record of a smaller id was created at the same height. *)
Theorem proposal_event_reconciled_at_its_height w event height c ev :
  DecodeEventProposal event = Some ev ->
  EventProposal.ProposalIndex ev <> 0 ->
  0 <= height < 2 ^ 63 ->
  keyed (ChainIndexer.db c) ->
  let q := {|
    Proposal.Id := EventProposal.ProposalIndex ev;
    Proposal.ProposerIndex := EventProposal.Proposer ev;
    Proposal.ProposerAddress := EventProposal.ProposerAddress ev;
    Proposal.Data := EventProposal.Data ev;
    Proposal.NewHeight := u64 height;
    Proposal.SettleHeight := 0;
    Proposal.Status := EventProposal.Status ev |} in
  db_fails w (OpSaveProposal q) = false ->
  let d' := ChainIndexer.db (state_of (handleEventProposal w event height c)) in
  exists id,
    reconciled d' height = Some (inl id)
    /\ id <> 0
    /\ id <= EventProposal.ProposalIndex ev
    /\ ((forall p, In p (DB.proposals (ChainIndexer.db c)) ->
           Proposal.NewHeight p = height ->
           EventProposal.ProposalIndex ev <= Proposal.Id p) ->
        id = EventProposal.ProposalIndex ev).
Proof.
  intros Hdec Hid Hh [Hkp Hkg] q F d'.
  assert (Hprops : DB.proposals d' = save q (DB.proposals (ChainIndexer.db c))).
  { subst d'. rewrite (handleEventProposal_proposals w event height c ev Hdec).
    cbv zeta. fold q. rewrite F. reflexivity. }
  assert (Hq : In q (DB.proposals d')).
  { rewrite Hprops. apply In_save_same. exact Hid. }
  assert (Hqh : (Proposal.NewHeight q =? height) = true).
  { simpl. rewrite u64_small by lia. apply Z.eqb_refl. }
  destruct (first_where_found (fun p => Proposal.NewHeight p =? height)
              (DB.proposals d') q Hq Hqh) as (p & Hp).
  pose proof (first_where_Some _ _ _ Hp) as [Hin Hph].
  pose proof (first_where_least _ _ _ q Hp Hq Hqh) as Hle.
  assert (Hnz : Proposal.Id p <> 0).
  { assert (Hall : Forall (fun x => pk x <> 0) (DB.proposals d')).
    { rewrite Hprops. apply save_pk_nonzero. exact Hkp. }
    rewrite Forall_forall in Hall. apply (Hall p Hin). }
  exists (Proposal.Id p). split; [|split; [exact Hnz|split; [exact Hle|]]].
  - unfold reconciled, new_proposal_at. rewrite Hp. simpl or_zero_proposal.
    apply Z.eqb_neq in Hnz. rewrite Hnz. reflexivity.
  - intros Hold. rewrite Hprops in Hin. apply In_save in Hin.
    destruct Hin as [->|[Hin _]].
    + unfold stored. change (pk q) with (EventProposal.ProposalIndex ev).
      apply Z.eqb_neq in Hid. rewrite Hid. reflexivity.
    + apply Z.eqb_eq in Hph. specialize (Hold p Hin Hph).
      simpl in Hle. lia.
Qed.

End HandlerFacts.

(** ** The account query *)

Section HexFacts.
Local Open Scope list_scope.
Local Open Scope Z_scope.

Ltac hex_cases d Hd :=
  assert (d = 0 \/ d = 1 \/ d = 2 \/ d = 3 \/ d = 4 \/ d = 5 \/ d = 6
          \/ d = 7 \/ d = 8 \/ d = 9 \/ d = 10 \/ d = 11 \/ d = 12
          \/ d = 13 \/ d = 14 \/ d = 15) as Hcases by lia;
  clear Hd;
  repeat (destruct Hcases as [->|Hcases]; [reflexivity|]);
  subst d; reflexivity.

Lemma fromHexChar_hexdigit upper d :
  0 <= d < 16 -> fromHexChar (hexdigit upper d) = Some d.
Proof. intros Hd. destruct upper; hex_cases d Hd. Qed.

Lemma DecodeString_HexBytes_String bz :
  Forall is_byte bz -> DecodeString (HexBytes_String bz) = Some bz.
Proof.
  induction 1 as [|b bz Hb _ IH]; [reflexivity|].
  unfold is_byte in Hb.
  cbn [HexBytes_String DecodeString].
  rewrite !fromHexChar_hexdigit, IH.
  - f_equal. f_equal. pose proof (Z.div_mod b 16). lia.
  - apply Z.mod_pos_bound. lia.
  - split; [apply Z.div_pos; lia|apply Z.div_lt_upper_bound; lia].
Qed.

Lemma hex_string_app ds1 ds2 :
  hex_string (ds1 ++ ds2) = (hex_string ds1 ++ hex_string ds2)%string.
Proof. induction ds1 as [|d ds1 IH]; simpl; [|rewrite IH]; reflexivity. Qed.

Lemma hex_string_length ds : String.length (hex_string ds) = List.length ds.
Proof. induction ds as [|d ds IH]; simpl; [|rewrite IH]; reflexivity. Qed.

Lemma string_app_assoc (a b c : string) :
  ((a ++ b) ++ c = a ++ (b ++ c))%string.
Proof. induction a as [|x a IH]; simpl; [|rewrite IH]; reflexivity. Qed.

(** [%x]: the digits of [n], none of them a leading zero unless [n] is
    0. *)
Lemma hex_digits_spec fuel n acc :
  0 <= n < 16 ^ Z.of_nat fuel -> (0 < fuel)%nat ->
  exists ds,
    hex_digits fuel n acc = (hex_string ds ++ acc)%string
    /\ Forall is_digit ds /\ hex_number ds = n
    /\ (1 <= List.length ds <= fuel)%nat.
Proof.
  revert n acc. induction fuel as [|fuel IH]; intros n acc Hn Hf; [lia|].
  cbn [hex_digits].
  assert (Hd : is_digit (n mod 16)) by (apply Z.mod_pos_bound; lia).
  destruct (n / 16 =? 0) eqn:E.
  - apply Z.eqb_eq in E. exists [n mod 16]. repeat split.
    + constructor; [exact Hd|constructor].
    + unfold hex_number. simpl. pose proof (Z.div_mod n 16). lia.
    + simpl. lia.
    + simpl. lia.
  - apply Z.eqb_neq in E.
    assert (Hq : 0 <= n / 16 < 16 ^ Z.of_nat fuel).
    { split; [apply Z.div_pos; lia|].
      apply Z.div_lt_upper_bound; [lia|].
      replace (Z.of_nat (S fuel)) with (Z.of_nat fuel + 1) in Hn by lia.
      rewrite Z.pow_add_r in Hn by lia. lia. }
    assert (Hfuel : (0 < fuel)%nat).
    { destruct fuel; [|lia]. simpl in Hq. lia. }
    destruct (IH (n / 16) (String (hexdigit false (n mod 16)) acc) Hq Hfuel)
      as (ds & Hs & Hds & Hnum & Hlen).
    exists (ds ++ [n mod 16]). repeat split.
    + rewrite Hs, hex_string_app, string_app_assoc. reflexivity.
    + apply Forall_app. split; [exact Hds|]. constructor; [exact Hd|constructor].
    + unfold hex_number. rewrite fold_left_app. cbn [fold_left].
      fold (hex_number ds). rewrite Hnum.
      pose proof (Z.div_mod n 16). lia.
    + rewrite length_app. simpl. lia.
    + rewrite length_app. simpl. lia.
Qed.

(** [hex.DecodeString] of an even number of digits: a byte for every two
    of them, that write the same number. *)
Lemma DecodeString_hex_string n : forall ds,
  List.length ds = (2 * n)%nat -> Forall is_digit ds ->
  exists bz,
    DecodeString (hex_string ds) = Some bz
    /\ Forall is_byte bz /\ List.length bz = n
    /\ forall a, fold_left (fun a b => 256 * a + b) bz a
                 = fold_left (fun a d => 16 * a + d) ds a.
Proof.
  induction n as [|n IH]; intros ds Hlen Hds.
  - destruct ds; [|discriminate]. exists []. repeat split; constructor.
  - destruct ds as [|x [|y ds]]; try (simpl in Hlen; lia).
    inversion Hds as [|? ? Hx Hds']; subst.
    inversion Hds' as [|? ? Hy Hds'']; subst.
    destruct (IH ds) as (bz & Hdec & Hbz & Hl & Hval);
      [simpl in Hlen; lia|exact Hds''|].
    exists (16 * x + y :: bz). cbn [hex_string fold_right DecodeString].
    fold (hex_string ds).
    rewrite !fromHexChar_hexdigit, Hdec by assumption.
    repeat split.
    + constructor; [unfold is_byte, is_digit in *; lia|exact Hbz].
    + simpl. rewrite Hl. reflexivity.
    + intros a. cbn [fold_left]. rewrite Hval. f_equal. lia.
Qed.

Lemma substring_all s : substring 0 (String.length s) s = s.
Proof. induction s as [|c s IH]; simpl; [|rewrite IH]; reflexivity. Qed.

End HexFacts.

Section QueryFacts2.
Context `{hac_types}.
Local Open Scope string_scope.
Local Open Scope list_scope.
Local Open Scope Z_scope.

(** X9.  The key of the account query.  For an address that is the
    upper-case hexadecimal of a non-empty byte string, as [handleVote]
    passes it, the key is that byte string, whatever the index: the
    decoding undoes [HexBytes.String].  For the empty address the key is
    the index (a [uint64]) in at least one and at most eight bytes, most
    significant first; the decoding whose error the code drops never
    fails.  So a signature without an address is looked up as account
    0. *)
Theorem account_key_round_trip index :
  (forall bz, Forall is_byte bz -> bz <> [] ->
     account_key index (HexBytes_String bz) = inl bz)
  /\ (0 <= index < 2 ^ 64 ->
      exists dat,
        DecodeString
          (let s := String "0" (Sprintf_x index) in
           if Nat.odd (String.length s)
           then substring 1 (String.length s - 1) s else s) = Some dat
        /\ account_key index "" = inl dat
        /\ Forall is_byte dat
        /\ (1 <= List.length dat <= 8)%nat
        /\ big_endian dat = index)
  /\ account_key 0 (HexBytes_String []) = inl [0].
Proof.
  split; [|split; [|reflexivity]].
  - intros bz Hbz Hne. unfold account_key.
    rewrite (DecodeString_HexBytes_String bz Hbz).
    destruct bz as [|b bz]; [congruence|]. reflexivity.
  - intros Hi. unfold account_key, Sprintf_x.
    change (0 <? String.length "")%nat with false. cbv iota zeta.
    destruct (hex_digits_spec 16 index EmptyString)
      as (ds & Hs & Hds & Hnum & Hlen);
      [change (16 ^ Z.of_nat 16) with (2 ^ 64); exact Hi|lia|].
    assert (Hnil : forall s : string, (s ++ "")%string = s).
    { induction s as [|x s IH]; simpl; [|rewrite IH]; reflexivity. }
    rewrite Hs, Hnil.
    assert (Hpad : forall s, s = hex_string (0 :: ds) ->
              (if Nat.odd (String.length s)
               then substring 1 (String.length s - 1) s else s)
              = hex_string (if Nat.even (List.length ds) then ds else 0 :: ds)).
    { intros s ->. rewrite hex_string_length. simpl List.length.
      rewrite Nat.odd_succ. destruct (Nat.even (List.length ds)); [|reflexivity].
      cbn [hex_string fold_right]. fold (hex_string ds).
      replace (S (List.length ds) - 1)%nat
        with (String.length (hex_string ds))
        by (rewrite hex_string_length; lia).
      cbn [substring]. apply substring_all. }
    rewrite (Hpad (String "0" (hex_string ds)) eq_refl).
    assert (Hev : exists n,
              List.length (if Nat.even (List.length ds) then ds else 0 :: ds)
              = (2 * n)%nat).
    { destruct (Nat.even (List.length ds)) eqn:E.
      - apply Nat.even_spec in E. exact E.
      - assert (E' : Nat.even (S (List.length ds)) = true).
        { rewrite Nat.even_succ, <- Nat.negb_even, E. reflexivity. }
        apply Nat.even_spec in E'. exact E'. }
    destruct Hev as (n & Hn).
    assert (Hdig : Forall is_digit
                     (if Nat.even (List.length ds) then ds else 0 :: ds)).
    { destruct (Nat.even _); [exact Hds|].
      constructor; [unfold is_digit; lia|exact Hds]. }
    destruct (DecodeString_hex_string n _ Hn Hdig)
      as (bz & Hdec & Hbz & Hl & Hval).
    exists bz. rewrite Hdec.
    assert (Hlen' : (1 <= n <= 8)%nat).
    { destruct (Nat.even (List.length ds)); simpl List.length in Hn; lia. }
    repeat split; try assumption; try lia.
    unfold big_endian. rewrite Hval.
    destruct (Nat.even (List.length ds)); [exact Hnum|].
    cbn [fold_left]. exact Hnum.
Qed.

(** The three ways [queryAccount] ends. *)
Lemma queryAccount_cases w index address c :
  (exists acc, queryAccount w index address c = Ok (Some acc, None) c)
  \/ (exists e c', queryAccount w index address c = Ok (None, Some e) c'
                   /\ query_error e)
  \/ (exists c', queryAccount w index address c = Panic c'
                 /\ (ChainIndexer.cli c = None
                     \/ exists dat, account_key index address = inl dat
                          /\ ABCIQuery w "/accounts/" dat = None)).
Proof.
  unfold queryAccount, query_error.
  destruct (account_key index address) as [dat|e] eqn:Hkey.
  + unfold bind, the_cli, ret, log, panic, reconnect_unless_running,
      connect, log_err, bind, log, ret.
    destruct (ChainIndexer.cli c) as [h|] eqn:Hc;
      [|right; right; eexists; split; [reflexivity|auto]].
    destruct (ABCIQuery w "/accounts/" dat) as [res|] eqn:Hq.
    * destruct (negb _); [right; left; eexists _, _; split; [reflexivity|auto]|].
      destruct (UnmarshalJSON _);
        [left; eexists; reflexivity
        |right; left; eexists _, _; split; [reflexivity|auto 6]].
    * destruct (IsRunning w);
        [right; right; eexists; split; [reflexivity|eauto]|].
      destruct (Dial w).
      -- right; right; eexists; split; [reflexivity|eauto].
      -- right; left; eexists _, _; split; [reflexivity|auto].
  + assert (e = ErrInvalidHex).
    { unfold account_key in Hkey. destruct (0 <? String.length address)%nat.
      - destruct (DecodeString address); congruence.
      - discriminate. }
    subst e. right; left. eexists _, _. split; [reflexivity|auto].
Qed.

(** X10.  [queryAccount] ends in one of three ways: it returns an account
    and no error, and leaves the indexer as it was; or it returns no
    account and one of its four errors (the address is not hexadecimal,
    the reconnection failed, the response code is not 0, the payload does
    not decode); or it panics, which takes a nil client or a failed query
    whose result is then read.  It never returns neither an account nor
    an error.  An address that is not hexadecimal is refused before the
    client is touched, also by an indexer without a client. *)
Theorem queryAccount_account_or_error w index address c :
  ((exists acc, queryAccount w index address c = Ok (Some acc, None) c)
   \/ (exists e c', queryAccount w index address c = Ok (None, Some e) c'
                    /\ query_error e)
   \/ (exists c', queryAccount w index address c = Panic c'
                  /\ (ChainIndexer.cli c = None
                      \/ exists dat, account_key index address = inl dat
                           /\ ABCIQuery w "/accounts/" dat = None)))
  /\ (address <> "" -> DecodeString address = None ->
      queryAccount w index address c = Ok (None, Some ErrInvalidHex) c).
Proof.
  split; [apply queryAccount_cases|].
  - intros Hne Hdec. unfold queryAccount, account_key. rewrite Hdec.
    destruct address; [congruence|]. reflexivity.
Qed.

(** The values [queryAccount] returns. *)
Lemma queryAccount_returns w index address :
  returns (fun r => (exists acc, r = (Some acc, None))
                    \/ (exists e, r = (None, Some e) /\ query_error e))
    (queryAccount w index address).
Proof.
  intros c r c' Hrun.
  destruct (queryAccount_cases w index address c)
    as [(acc & E)|[(e & c1 & E & He)|(c1 & E & _)]];
    rewrite E in Hrun; inversion Hrun; subst; eauto.
Qed.

End QueryFacts2.

(** ** The dead guard of [handleVote] *)

Section Returns.
Context `{hac_types}.
Local Open Scope string_scope.
Local Open Scope Z_scope.

Lemma returns_ret A (P : A -> Prop) a : P a -> returns P (ret a).
Proof. intros Ha c a' c' [= <- _]. exact Ha. Qed.

Lemma returns_bind A B (Q : A -> Prop) (P : B -> Prop) (m : M A) (k : A -> M B) :
  returns Q m -> (forall a, Q a -> returns P (k a)) -> returns P (bind m k).
Proof.
  intros Hm Hk c b c' Hrun. unfold bind in Hrun.
  destruct (m c) as [a c1|c1] eqn:E; [|discriminate].
  exact (Hk a (Hm c a c1 E) c1 b c' Hrun).
Qed.

Lemma returns_any A (m : M A) : returns (fun _ => True) m.
Proof. intros c a c' _. exact I. Qed.

Lemma no_signer_error_None : no_signer_error None.
Proof. intros e [=]. Qed.

Lemma no_signer_error_Store op : no_signer_error (Some (ErrStore op)).
Proof. intros e [= <-] a. discriminate. Qed.

Lemma returns_db_first A w op (q : DB.t -> option A) out :
  returns (fun r => snd r = None \/ snd r = Some ErrRecordNotFound
                    \/ snd r = Some (ErrStore op))
    (db_first w op q out).
Proof.
  intros c r c'. unfold db_first. destruct (db_fails w op).
  - intros [= <- _]. auto.
  - destruct (q _); intros [= <- _]; auto.
Qed.

Lemma returns_db_exec w op f :
  returns (fun r => r = None \/ r = Some (ErrStore op)) (db_exec w op f).
Proof.
  intros c r c'. unfold db_exec. destruct (db_fails w op); intros [= <- _]; auto.
Qed.

Lemma returns_reconnect w :
  returns (fun r => r = None \/ r = Some ErrDial) (reconnect_unless_running w).
Proof.
  intros c r c'. unfold reconnect_unless_running, bind, connect, log_err, log, ret.
  destruct (IsRunning w); [intros [= <- _]; auto|].
  destruct (Dial w); intros [= <- _]; auto.
Qed.

Section Loop.
Context {R : Type} `{Model R}.
Variables (w : World) (first_op : Z -> db_op) (create_op : R -> db_op)
  (key : R -> Z -> bool)
  (get : DB.t -> table R) (set : (table R -> table R) -> DB.t -> DB.t)
  (out : R) (new_vote : CommitSig.t -> Account.t -> R).

Lemma votes_loop_no_signer_error sigs :
  returns no_signer_error
    (votes_loop w first_op create_op key get set out new_vote sigs).
Proof.
  induction sigs as [|v sigs IH]; cbn [votes_loop].
  - apply returns_ret, no_signer_error_None.
  - eapply returns_bind; [apply queryAccount_returns|].
    intros [acc err] [(a & [= -> ->])|(e & [= -> ->] & He)].
    + eapply returns_bind; [apply returns_db_first|].
      intros [r err] [E|[E|E]]; simpl in E; subst err.
      * exact IH.
      * simpl. eapply returns_bind; [apply returns_db_exec|].
        intros err [->| ->]; [exact IH|].
        apply returns_ret, no_signer_error_Store.
      * simpl. apply returns_ret, no_signer_error_Store.
    + apply returns_ret. intros e' [= <-] a.
      destruct He as [->|[->|[->| ->]]]; discriminate.
Qed.

End Loop.

(** X11.  [handleVote] never returns the error "signature validator
    address is not account": the guard [acc == nil] that produces it
    follows a call of [queryAccount] that returned no error, and such a
    call returns an account.  A signer the chain does not know fails the
    height with the error of the query instead. *)
Theorem handleVote_never_reports_unknown_signer w height c e c' :
  handleVote w height c = Ok (Some e) c' ->
  forall address, e <> ErrSigAddress address.
Proof.
  intros Hrun.
  assert (Hret : returns no_signer_error (handleVote w height)).
  { unfold handleVote.
    eapply returns_bind; [apply returns_any|]. intros _ _.
    eapply returns_bind with (Q := fun r => r = None \/ r = Some ErrDial).
    { destruct (Commit w height).
      - apply returns_ret. auto.
      - eapply returns_bind; [apply returns_any|]. intros _ _.
        apply returns_reconnect. }
    intros err [->| ->];
      [|apply returns_ret; intros e0 [= <-] a; discriminate].
    destruct (Commit w height) as [res|]; [|intros c0 a0 c1 [=]].
    cbv zeta.
    assert (Hfatal : forall op (err : option error),
              err = None \/ err = Some ErrRecordNotFound
              \/ err = Some (ErrStore op) ->
              fatal err = None \/ fatal err = Some (ErrStore op)).
    { intros op err0 [->|[->| ->]]; simpl; auto. }
    eapply returns_bind; [apply returns_db_first|].
    intros [p err] E. simpl in E. apply Hfatal in E.
    destruct E as [-> | ->]; [|apply returns_ret, no_signer_error_Store].
    destruct (negb (Proposal.Id p =? 0)).
    { rewrite proposal_votes_of_loop. apply votes_loop_no_signer_error. }
    eapply returns_bind; [apply returns_db_first|].
    intros [p' err'] E. simpl in E. apply Hfatal in E.
    destruct E as [-> | ->]; [|apply returns_ret, no_signer_error_Store].
    destruct (negb (Proposal.Id p' =? 0)).
    { rewrite proposal_votes_of_loop. apply votes_loop_no_signer_error. }
    eapply returns_bind; [apply returns_db_first|].
    intros [g err''] E. simpl in E. apply Hfatal in E.
    destruct E as [-> | ->]; [|apply returns_ret, no_signer_error_Store].
    destruct (negb (Grant.Id g =? 0)).
    { rewrite grant_votes_of_loop. apply votes_loop_no_signer_error. }
    apply returns_ret, no_signer_error_None. }
  exact (Hret c (Some e) c' Hrun e eq_refl).
Qed.

End Returns.

(** ** What every run of the indexer keeps of the store *)

Section UniqueKeys.
Context {R : Type} `{Model R}.
Implicit Types (t : table R).

Lemma next_pk_fresh t : ~ In (next_pk t) (map pk t).
Proof.
  intros Hin. apply in_map_iff in Hin. destruct Hin as (x & Hx & Hin).
  pose proof (max_pk_ge t x Hin). unfold next_pk in Hx. lia.
Qed.

Lemma unique_keys_create_blank r t :
  pk r = 0 -> unique_keys t -> unique_keys (create r t).
Proof.
  intros Hr Ht. unfold unique_keys, create. rewrite Hr. simpl.
  rewrite map_app. simpl. rewrite pk_set_pk.
  apply NoDup_snoc; [exact Ht|apply next_pk_fresh].
Qed.

Lemma unique_keys_save r t : unique_keys t -> unique_keys (save r t).
Proof.
  intros Ht. unfold save. destruct (pk r =? 0) eqn:E0.
  - apply unique_keys_create_blank; [apply Z.eqb_eq, E0|exact Ht].
  - destruct (existsb (fun x => pk x =? pk r) t) eqn:Ex.
    + unfold unique_keys. rewrite map_map.
      rewrite (map_ext_in _ pk); [exact Ht|].
      intros x _. destruct (pk x =? pk r) eqn:E; [|reflexivity].
      apply Z.eqb_eq in E. congruence.
    + unfold unique_keys, create. rewrite E0, map_app. simpl.
      apply NoDup_snoc; [exact Ht|].
      intros Hin. apply in_map_iff in Hin. destruct Hin as (x & Hx & Hin).
      assert (Hex : existsb (fun y => pk y =? pk r) t = true).
      { apply existsb_exists. exists x. split; [exact Hin|].
        apply Z.eqb_eq, Hx. }
      congruence.
Qed.

End UniqueKeys.

Section StoreInvariant.
Context `{hac_types}.
Local Open Scope string_scope.
Local Open Scope Z_scope.

(** A property of the store that the seven writes of the indexer keep:
    [Save] into the heights, validators, proposals, grants and
    discussions, [Create] of a vote without a key. *)
Variable P : DB.t -> Prop.
Hypothesis P_heights : forall r d, P d -> P (DB.with_heights (save r) d).
Hypothesis P_validators : forall r d, P d -> P (DB.with_validators (save r) d).
Hypothesis P_proposals : forall r d, P d -> P (DB.with_proposals (save r) d).
Hypothesis P_grants : forall r d, P d -> P (DB.with_grants (save r) d).
Hypothesis P_discussions :
  forall r d, P d -> P (DB.with_discussions (save r) d).
Hypothesis P_proposal_votes :
  forall r d, pk r = 0 -> P d -> P (DB.with_proposal_votes (create r) d).
Hypothesis P_grant_votes :
  forall r d, pk r = 0 -> P d -> P (DB.with_grant_votes (create r) d).

Lemma keeps_refl c : keeps P c c.
Proof. intros K. exact K. Qed.

Lemma keeps_trans c1 c2 c3 : keeps P c1 c2 -> keeps P c2 c3 -> keeps P c1 c3.
Proof. unfold keeps. auto. Qed.

Lemma keeps_db_exec w op f :
  (forall d, P d -> P (f d)) -> preserves (keeps P) (db_exec w op f).
Proof.
  intros Hf c K. unfold db_exec. destruct (db_fails w op); simpl; auto.
Qed.

Lemma keeps_same_db A (m : M A) :
  (forall c, ChainIndexer.db (state_of (m c)) = ChainIndexer.db c) ->
  preserves (keeps P) m.
Proof. intros Hm c K. rewrite Hm. exact K. Qed.

Lemma keeps_log_err msg err : preserves (keeps P) (log_err msg err).
Proof. apply keeps_same_db. intros c. destruct err; reflexivity. Qed.

Lemma keeps_reconnect w : preserves (keeps P) (reconnect_unless_running w).
Proof.
  apply keeps_same_db. intros c.
  unfold reconnect_unless_running, bind, connect, log_err, log, ret.
  destruct (IsRunning w); [reflexivity|]. destruct (Dial w); reflexivity.
Qed.

Ltac keeps_leaf :=
  first [ apply keeps_log_err
        | apply keeps_reconnect
        | apply keeps_db_exec; intros d0 K0;
          first [ apply P_heights, K0 | apply P_validators, K0
                | apply P_proposals, K0 | apply P_grants, K0
                | apply P_discussions, K0
                | apply P_proposal_votes; [reflexivity|exact K0]
                | apply P_grant_votes; [reflexivity|exact K0] ]
        | apply keeps_same_db; intros c0; apply db_same_queryAccount
        | apply keeps_same_db; intros c0; reflexivity ].

Lemma keeps_handleEvent w e h : preserves (keeps P) (handleEvent w e h).
Proof.
  unfold handleEvent, eventHandlers, lookup_handler.
  repeat match goal with
         | |- context [if ?b then _ else _] => destruct b
         end;
    unfold handleEventGrant, handleEventDiscussion, handleEventSettleProposal,
      handleEventProposal, decode_fail;
    frame keeps_refl keeps_trans keeps_leaf.
Qed.

Lemma keeps_handle_txs w txs h : preserves (keeps P) (handle_txs w txs h).
Proof.
  assert (Hev : forall es, preserves (keeps P) (handle_events w es h)).
  { induction es as [|e es IH]; simpl.
    - apply preserves_ret, keeps_refl.
    - apply preserves_bind; [apply keeps_trans|apply keeps_handleEvent|auto]. }
  induction txs as [|es txs IH]; simpl.
  - apply preserves_ret, keeps_refl.
  - apply preserves_bind; [apply keeps_trans|apply Hev|auto].
Qed.

Lemma keeps_proposal_votes_of w p vh sigs :
  preserves (keeps P) (proposal_votes_of w p vh sigs).
Proof.
  induction sigs as [|v sigs IH]; simpl.
  - apply preserves_ret, keeps_refl.
  - frame keeps_refl keeps_trans ltac:(first [apply IH | keeps_leaf]).
Qed.

Lemma keeps_grant_votes_of w g vh sigs :
  preserves (keeps P) (grant_votes_of w g vh sigs).
Proof.
  induction sigs as [|v sigs IH]; simpl.
  - apply preserves_ret, keeps_refl.
  - frame keeps_refl keeps_trans ltac:(first [apply IH | keeps_leaf]).
Qed.

Lemma keeps_handleVote w h : preserves (keeps P) (handleVote w h).
Proof.
  unfold handleVote.
  frame keeps_refl keeps_trans
    ltac:(first [ apply keeps_proposal_votes_of | apply keeps_grant_votes_of
                | keeps_leaf ]).
Qed.

Lemma keeps_sync_height w : preserves (keeps P) (sync_height w).
Proof.
  intros c K. rewrite sync_height_eq. cbv zeta.
  destruct (ChainIndexer.cli c); [|exact K].
  destruct (BlockResults w (ChainIndexer.Height c)) as [events|].
  - pose proof (keeps_handle_txs w events (ChainIndexer.Height c)
                  (announced c) K) as K1.
    destruct (handle_txs _ _ _ _) as [[] c1|c1]; simpl in K1; [|exact K1].
    pose proof (keeps_handleVote w (ChainIndexer.Height c) c1 K1) as K2.
    destruct (handleVote _ _ _) as [[e|] c2|c2]; simpl in K2; try exact K2.
    destruct (db_fails _ _); [exact K2|]. simpl. apply P_heights, K2.
  - match goal with |- context [reconnect_unless_running w ?c0] =>
      pose proof (keeps_reconnect w c0 K) as K2 end.
    destruct (reconnect_unless_running _ _) as [[e|] c'|c']; exact K2.
Qed.

Lemma keeps_catch_up latest ws : preserves (keeps P) (catch_up latest ws).
Proof.
  induction ws as [|w ws IH]; intros c K; simpl.
  - destruct (latest >? ChainIndexer.Height c); exact K.
  - destruct (latest >? ChainIndexer.Height c); [|exact K].
    pose proof (keeps_sync_height w c K) as K1.
    destruct (sync_height w c) as [[] c1|c1]; simpl in K1; [|exact K1].
    exact (IH c1 K1).
Qed.

Lemma keeps_tick w ws : preserves (keeps P) (tick w ws).
Proof.
  intros c K. rewrite tick_eq. cbv zeta.
  assert (Hquery : forall c1, P (ChainIndexer.db c1) ->
    P (ChainIndexer.db (state_of
      match ChainIndexer.cli c1 with
      | None => Panic c1
      | Some _ =>
          match Status w with
          | Some latest => catch_up (i64 latest) ws c1
          | None =>
              match reconnect_unless_running w
                      (ChainIndexer.with_log
                         (Error "get status fail" [("err", VErr ErrRPC)]) c1) with
              | Ok (Some _) c2 => Ok Idle c2
              | Ok None c2 => Panic c2
              | Panic c2 => Panic c2
              end
          end
      end))).
  { intros c1 K1. destruct (ChainIndexer.cli c1); [|exact K1].
    destruct (Status w) as [latest|]; [exact (keeps_catch_up _ ws c1 K1)|].
    match goal with |- context [reconnect_unless_running w ?c0] =>
      pose proof (keeps_reconnect w c0 K1) as K2 end.
    destruct (reconnect_unless_running _ _) as [[e|] c'|c']; exact K2. }
  destruct (ChainIndexer.cli c); [exact (Hquery c K)|].
  destruct (Dial w); [|exact K]. apply Hquery. exact K.
Qed.

Lemma keeps_Start ticks : preserves (keeps P) (Start ticks).
Proof.
  induction ticks as [|[w ws] ticks IH]; intros c K; simpl; [exact K|].
  unfold bind. pose proof (keeps_tick w ws c K) as K1.
  destruct (tick w ws c) as [[|] c1|c1]; simpl in K1; [|exact K1|exact K1].
  exact (IH c1 K1).
Qed.

End StoreInvariant.

Section StoreFacts.
Context `{hac_types}.
Local Open Scope string_scope.
Local Open Scope Z_scope.

(** X12.  Over any run of [Start], whatever the chain, the agent and the
    store answer and however the run ends, primary keys stay unique in
    every table and no proposal or grant gets the key 0: the store an
    indexer fills from an empty file is one the paging getters read
    without repeating or missing a row. *)
Theorem indexer_keeps_keys_unique ticks c :
  unique_db (ChainIndexer.db c) -> keyed (ChainIndexer.db c) ->
  let c' := state_of (Start ticks c) in
  unique_db (ChainIndexer.db c') /\ keyed (ChainIndexer.db c').
Proof.
  intros U K. cbv zeta. split.
  - apply (keeps_Start unique_db); try exact U;
      intros r d; unfold unique_db; simpl; intros;
      repeat match goal with
             | Hu : _ /\ _ |- _ => destruct Hu
             end;
      repeat split; try assumption;
      first [ apply unique_keys_save; assumption
            | apply unique_keys_create_blank; assumption ].
  - apply (keeps_Start keyed); try exact K; intros r d;
      first [ exact (keyed_save_proposal r d)
            | exact (keyed_save_grant r d)
            | intros K0; exact K0
            | intros _ K0; exact K0 ].
Qed.

End StoreFacts.

(** ** The vote tables only grow *)

Section LoopAppends.
Context `{hac_types} {R : Type} `{Model R}.
Variables (w : World) (first_op : Z -> db_op) (create_op : R -> db_op)
  (key : R -> Z -> bool)
  (get : DB.t -> table R) (set : (table R -> table R) -> DB.t -> DB.t)
  (out : R) (new_vote : CommitSig.t -> Account.t -> R).
Hypothesis get_set : forall f d, get (set f d) = f (get d).
Hypothesis new_vote_blank : forall v acc, pk (new_vote v acc) = 0.

(** The loop appends to its table, and every row it appends is the vote
    of a signature of the list whose signer the chain knows, for which
    the table had no row. *)
Lemma loop_appends sigs : forall c,
  exists added,
    get (ChainIndexer.db (state_of
      (votes_loop w first_op create_op key get set out new_vote sigs c)))
    = get (ChainIndexer.db c) ++ added
    /\ Forall (fun r => exists v acc k,
                 In v sigs /\ lookup w (signer v) = Known acc
                 /\ r = set_pk k (new_vote v acc)) added.
Proof.
  induction sigs as [|v sigs IH]; intros c.
  { exists []. rewrite app_nil_r. split; [reflexivity|constructor]. }
  assert (Hnone : forall c1 : ChainIndexer.t,
            ChainIndexer.db c1 = ChainIndexer.db c ->
            exists added : list R,
              get (ChainIndexer.db c1) = get (ChainIndexer.db c) ++ added
              /\ Forall (fun r => exists v0 acc k,
                           In v0 (v :: sigs) /\ lookup w (signer v0) = Known acc
                           /\ r = set_pk k (new_vote v0 acc)) added).
  { intros c1 E. exists []. rewrite E, app_nil_r.
    split; [reflexivity|constructor]. }
  assert (Hrest : forall c1 pre,
            get (ChainIndexer.db c1) = get (ChainIndexer.db c) ++ pre ->
            Forall (fun r => exists v0 acc k,
                      In v0 (v :: sigs) /\ lookup w (signer v0) = Known acc
                      /\ r = set_pk k (new_vote v0 acc)) pre ->
            exists added : list R,
              get (ChainIndexer.db (state_of
                (votes_loop w first_op create_op key get set out new_vote
                   sigs c1)))
              = get (ChainIndexer.db c) ++ added
              /\ Forall (fun r => exists v0 acc k,
                           In v0 (v :: sigs) /\ lookup w (signer v0) = Known acc
                           /\ r = set_pk k (new_vote v0 acc)) added).
  { intros c1 pre E Hpre. destruct (IH c1) as (added & Ea & Ha).
    exists (pre ++ added). rewrite Ea, E, app_assoc. split; [reflexivity|].
    apply Forall_app. split; [exact Hpre|].
    apply Forall_impl with (2 := Ha).
    intros r (v0 & acc & k & Hin & Hl & Hr). exists v0, acc, k.
    simpl. auto. }
  cbn [votes_loop]. unfold bind at 1.
  pose proof (db_same_queryAccount w 0 (signer v) c) as Hdb.
  destruct (queryAccount w 0 (signer v) c) as [[x [e|]] c1|c1] eqn:Eq;
    simpl in Hdb.
  - apply Hnone. exact Hdb.
  - destruct (queryAccount_account w (signer v) c x c1 Eq)
      as (-> & _ & acc & -> & Hl).
    unfold bind at 1, db_first.
    destruct (db_fails w (first_op (Account.Index acc)));
      [apply Hnone; reflexivity|].
    destruct (first_where _ (get (ChainIndexer.db c))) as [r|].
    + apply (Hrest c []); [rewrite app_nil_r; reflexivity|constructor].
    + cbn [not_ErrRecordNotFound]. unfold bind at 1, db_exec.
      destruct (db_fails w (create_op (new_vote v acc)));
        [apply Hnone; reflexivity|].
      apply (Hrest _ [set_pk (next_pk (get (ChainIndexer.db c)))
                        (new_vote v acc)]).
      * simpl. rewrite get_set. unfold create. rewrite new_vote_blank.
        reflexivity.
      * constructor; [|constructor].
        exists v, acc, (next_pk (get (ChainIndexer.db c))).
        split; [simpl; auto|]. split; [exact Hl|reflexivity].
  - apply Hnone. exact Hdb.
Qed.

End LoopAppends.

Section VotesAppend.
Context `{hac_types}.
Local Open Scope string_scope.
Local Open Scope list_scope.
Local Open Scope Z_scope.

(** X13.  [handleVote] only appends to the vote tables, however it ends:
    the rows it found are kept as they were and where they were, and it
    adds to one of the two tables at most.  Every row it adds is the vote
    of a signature of the commit it fetched whose signer the chain knows,
    on the record the reconciliation of that height selects, at the
    height of the commit and with the vote code of the signature. *)
Theorem handleVote_appends_votes_of_signers w height c :
  let d := ChainIndexer.db c in
  let d' := ChainIndexer.db (state_of (handleVote w height c)) in
  exists pv gv,
    DB.proposal_votes d' = DB.proposal_votes d ++ pv
    /\ DB.grant_votes d' = DB.grant_votes d ++ gv
    /\ (pv = [] \/ gv = [])
    /\ Forall (fun r => exists res p v acc k,
         Commit w height = Some res
         /\ reconciled d (ResultCommit.Height res) = Some (inl p)
         /\ In v (ResultCommit.Signatures res)
         /\ lookup w (signer v) = Known acc
         /\ r = set_pk k
                  (new_proposal_vote p (ResultCommit.Height res) v acc)) pv
    /\ Forall (fun r => exists res g v acc k,
         Commit w height = Some res
         /\ reconciled d (ResultCommit.Height res) = Some (inr g)
         /\ In v (ResultCommit.Signatures res)
         /\ lookup w (signer v) = Known acc
         /\ r = set_pk k
                  (new_grant_vote g (ResultCommit.Height res) v acc)) gv.
Proof.
  cbv zeta.
  assert (Hsame : forall c1, ChainIndexer.db c1 = ChainIndexer.db c ->
    exists pv gv,
      DB.proposal_votes (ChainIndexer.db c1)
      = DB.proposal_votes (ChainIndexer.db c) ++ pv
      /\ DB.grant_votes (ChainIndexer.db c1)
         = DB.grant_votes (ChainIndexer.db c) ++ gv
      /\ (pv = [] \/ gv = [])
      /\ Forall (fun r => exists res p v acc k,
           Commit w height = Some res
           /\ reconciled (ChainIndexer.db c) (ResultCommit.Height res)
              = Some (inl p)
           /\ In v (ResultCommit.Signatures res)
           /\ lookup w (signer v) = Known acc
           /\ r = set_pk k
                    (new_proposal_vote p (ResultCommit.Height res) v acc)) pv
      /\ Forall (fun r => exists res g v acc k,
           Commit w height = Some res
           /\ reconciled (ChainIndexer.db c) (ResultCommit.Height res)
              = Some (inr g)
           /\ In v (ResultCommit.Signatures res)
           /\ lookup w (signer v) = Known acc
           /\ r = set_pk k
                    (new_grant_vote g (ResultCommit.Height res) v acc)) gv).
  { intros c1 E. exists [], []. rewrite E, !app_nil_r.
    repeat split; auto. }
  destruct (ChainIndexer.cli c) as [h|] eqn:Hc.
  2:{ apply Hsame. unfold handleVote, bind, the_cli. rewrite Hc. reflexivity. }
  destruct (Commit w height) as [res|] eqn:Hres.
  2:{ apply Hsame. unfold handleVote. rewrite Hres.
      unfold bind, the_cli, log, reconnect_unless_running, connect, log_err,
        log, ret, panic, bind. rewrite Hc. simpl.
      destruct (IsRunning w); [reflexivity|].
      destruct (Dial w); reflexivity. }
  assert (Hcli : ChainIndexer.cli c <> None) by congruence.
  rewrite (handleVote_eq w height c res Hcli Hres). cbv zeta.
  destruct (db_fails w (OpWhereNewHeight _)); [apply Hsame; reflexivity|].
  destruct (negb (Proposal.Id (or_zero_proposal (new_proposal_at _ _)) =? 0))
    eqn:E1.
  { rewrite proposal_votes_of_loop.
    match goal with |- context [new_proposal_vote ?p _] =>
      assert (Hblank : forall v acc,
                pk (new_proposal_vote p (ResultCommit.Height res) v acc) = 0)
        by reflexivity;
      destruct (loop_appends w (OpFirstProposalVote (ResultCommit.Height res))
                  OpCreateProposalVote
                  (proposal_vote_key (ResultCommit.Height res))
                  DB.proposal_votes DB.with_proposal_votes
                  (ProposalVote.mk 0 0 0 "" 0 0)
                  (new_proposal_vote p (ResultCommit.Height res))
                  (fun _ _ => eq_refl) Hblank
                  (ResultCommit.Signatures res) c) as (added & Ea & Ha)
    end.
    exists added, []. rewrite Ea, app_nil_r. split; [reflexivity|].
    split.
    { apply (loop_frame w _ _ _ DB.proposal_votes DB.with_proposal_votes
               _ _ DB.grant_votes). reflexivity. }
    split; [auto|]. split; [|constructor].
    apply Forall_impl with (2 := Ha).
    intros r (v & acc & k & Hin & Hl & Hr).
    exists res; eexists; exists v, acc, k.
    split; [reflexivity|]. split.
    { unfold reconciled. rewrite E1. reflexivity. }
    repeat split; assumption. }
  destruct (db_fails w (OpWhereSettleHeight _)); [apply Hsame; reflexivity|].
  destruct (negb (Proposal.Id (or_zero_proposal (settled_proposal_at _ _)) =? 0))
    eqn:E2.
  { rewrite proposal_votes_of_loop.
    match goal with |- context [new_proposal_vote ?p _] =>
      assert (Hblank : forall v acc,
                pk (new_proposal_vote p (ResultCommit.Height res) v acc) = 0)
        by reflexivity;
      destruct (loop_appends w (OpFirstProposalVote (ResultCommit.Height res))
                  OpCreateProposalVote
                  (proposal_vote_key (ResultCommit.Height res))
                  DB.proposal_votes DB.with_proposal_votes
                  (ProposalVote.mk 0 0 0 "" 0 0)
                  (new_proposal_vote p (ResultCommit.Height res))
                  (fun _ _ => eq_refl) Hblank
                  (ResultCommit.Signatures res) c) as (added & Ea & Ha)
    end.
    exists added, []. rewrite Ea, app_nil_r. split; [reflexivity|].
    split.
    { apply (loop_frame w _ _ _ DB.proposal_votes DB.with_proposal_votes
               _ _ DB.grant_votes). reflexivity. }
    split; [auto|]. split; [|constructor].
    apply Forall_impl with (2 := Ha).
    intros r (v & acc & k & Hin & Hl & Hr).
    exists res; eexists; exists v, acc, k.
    split; [reflexivity|]. split.
    { unfold reconciled. rewrite E1, E2. reflexivity. }
    repeat split; assumption. }
  destruct (db_fails w (OpWhereGrantHeight _)); [apply Hsame; reflexivity|].
  destruct (negb (Grant.Id (or_zero_grant (grant_at _ _)) =? 0)) eqn:E3;
    [|apply Hsame; reflexivity].
  rewrite grant_votes_of_loop.
  match goal with |- context [new_grant_vote ?g _] =>
    assert (Hblank : forall v acc,
              pk (new_grant_vote g (ResultCommit.Height res) v acc) = 0)
      by reflexivity;
    destruct (loop_appends w (OpFirstGrantVote (ResultCommit.Height res))
                OpCreateGrantVote
                (grant_vote_key (ResultCommit.Height res))
                DB.grant_votes DB.with_grant_votes
                (GrantVote.mk 0 0 "" 0 "" 0 "" 0 0)
                (new_grant_vote g (ResultCommit.Height res))
                (fun _ _ => eq_refl) Hblank
                (ResultCommit.Signatures res) c) as (added & Ea & Ha)
  end.
  exists [], added. rewrite Ea, app_nil_r. split.
  { apply (loop_frame w _ _ _ DB.grant_votes DB.with_grant_votes
             _ _ DB.proposal_votes). reflexivity. }
  split; [reflexivity|]. split; [auto|]. split; [constructor|].
  apply Forall_impl with (2 := Ha).
  intros r (v & acc & k & Hin & Hl & Hr).
  exists res; eexists; exists v, acc, k.
  split; [reflexivity|]. split.
  { unfold reconciled. rewrite E1, E2, E3. reflexivity. }
  repeat split; assumption.
Qed.

End VotesAppend.

(** ** The loop, height by height *)

Section Walks.
Local Open Scope list_scope.
Local Open Scope Z_scope.

Lemma walk_app h1 l1 h2 l2 h3 :
  walk h1 l1 h2 -> walk h2 l2 h3 -> walk h1 (l1 ++ l2) h3.
Proof.
  induction 1 as [h|h l h' _ IH|h l h' _ IH]; intros W; simpl.
  - exact W.
  - apply walk_retry, IH, W.
  - apply walk_next, IH, W.
Qed.

(** A walk never goes down, passes every height between its ends, and
    announces no height outside them. *)
Lemma walk_covers h l h' :
  walk h l h' ->
  h <= h'
  /\ (forall k, h <= k < h' -> In k l)
  /\ (forall x, In x l -> h <= x <= h').
Proof.
  induction 1 as [h|h l h' _ (IH1 & IH2 & IH3)|h l h' _ (IH1 & IH2 & IH3)].
  - split; [lia|]. split; [intros k Hk; lia|intros y []].
  - split; [exact IH1|]. split.
    + intros k Hk. right. apply IH2, Hk.
    + intros y [<-|Hy]; [lia|apply IH3, Hy].
  - split; [lia|]. split.
    + intros k Hk. destruct (Z.eq_dec k h) as [->|Hne]; [left; reflexivity|].
      right. apply IH2. lia.
    + intros y [<-|Hy]; [lia|]. specialize (IH3 y Hy). lia.
Qed.

End Walks.

Section TickPrinciple.
Context `{hac_types}.
Local Open Scope string_scope.
Local Open Scope list_scope.
Local Open Scope Z_scope.

(** A relation that holds over every pass from a resumable state holds
    over every run of [Start]. *)
Variable R : ChainIndexer.t -> ChainIndexer.t -> Prop.
Hypothesis R_quiet : forall c c', resumable c -> quiet c c' -> R c c'.
Hypothesis R_trans : forall c1 c2 c3, R c1 c2 -> R c2 c3 -> R c1 c3.
Hypothesis R_resumable : forall c c', resumable c -> R c c' -> resumable c'.
Hypothesis R_pass : forall w c latest,
  resumable c -> ChainIndexer.Height c < latest <= 2 ^ 63 - 1 ->
  R c (state_of (sync_height w c)).

Lemma R_refl c : resumable c -> R c c.
Proof. intros Hr. apply R_quiet; [exact Hr|apply quiet_refl]. Qed.

Lemma catch_up_rel latest ws : forall c,
  resumable c -> latest <= 2 ^ 63 - 1 -> R c (state_of (catch_up latest ws c)).
Proof.
  induction ws as [|w ws IH]; intros c Hr Hlat; simpl.
  - destruct (latest >? ChainIndexer.Height c); apply R_refl, Hr.
  - destruct (latest >? ChainIndexer.Height c) eqn:Hgt; [|apply R_refl, Hr].
    apply Z.gtb_lt in Hgt.
    assert (Hp : R c (state_of (sync_height w c)))
      by (apply (R_pass w c latest Hr); lia).
    destruct (sync_height w c) as [[] c1|c1]; simpl in Hp; [|exact Hp].
    eapply R_trans; [exact Hp|]. apply IH; [|exact Hlat].
    eapply R_resumable; eassumption.
Qed.

Lemma tick_rel w ws c : resumable c -> R c (state_of (tick w ws c)).
Proof.
  intros Hr. rewrite tick_eq. cbv zeta.
  assert (Hquery : forall c1, quiet c c1 ->
    R c (state_of
      match ChainIndexer.cli c1 with
      | None => Panic c1
      | Some _ =>
          match Status w with
          | Some latest => catch_up (i64 latest) ws c1
          | None =>
              match reconnect_unless_running w
                      (ChainIndexer.with_log
                         (Error "get status fail" [("err", VErr ErrRPC)]) c1) with
              | Ok (Some _) c2 => Ok Idle c2
              | Ok None c2 => Panic c2
              | Panic c2 => Panic c2
              end
          end
      end)).
  { intros c1 Q1. pose proof (R_quiet c c1 Hr Q1) as R1.
    destruct (ChainIndexer.cli c1); [|exact R1].
    destruct (Status w) as [latest|].
    - eapply R_trans; [exact R1|]. apply catch_up_rel.
      + eapply resumable_quiet; eassumption.
      + pose proof (i64_range latest). lia.
    - match goal with |- context [reconnect_unless_running w ?c0] =>
        pose proof (quiet_reconnect w c0) as Q2;
        assert (Q3 : quiet c (state_of (reconnect_unless_running w c0)))
      end.
      { eapply quiet_trans; [exact Q1|]. eapply quiet_trans; [|exact Q2].
        constructor; try reflexivity. eexists [_]. split; reflexivity. }
      destruct (reconnect_unless_running w _) as [[e|] c2|c2]; simpl in Q3;
        apply (R_quiet c c2 Hr Q3). }
  destruct (ChainIndexer.cli c) eqn:Hc.
  - apply (Hquery c (quiet_refl c)).
  - destruct (Dial w).
    + apply Hquery. constructor; try reflexivity.
      exists []. rewrite app_nil_r. auto.
    + apply R_quiet; [exact Hr|]. constructor; try reflexivity.
      eexists [_]. split; reflexivity.
Qed.

Lemma Start_rel ticks : forall c,
  resumable c -> R c (state_of (Start ticks c)).
Proof.
  induction ticks as [|[w ws] ticks IH]; intros c Hr; simpl.
  - apply R_refl, Hr.
  - unfold bind. pose proof (tick_rel w ws c Hr) as R1.
    destruct (tick w ws c) as [e c1|c1]; simpl in R1; [|exact R1].
    destruct e; simpl; [|exact R1].
    eapply R_trans; [exact R1|]. apply IH. eapply R_resumable; eassumption.
Qed.

End TickPrinciple.

Section InOrder.
Context `{hac_types}.
Local Open Scope string_scope.
Local Open Scope list_scope.
Local Open Scope Z_scope.

Lemma in_order_quiet c c' : resumable c -> quiet c c' -> in_order c c'.
Proof.
  intros Hr Q. split; [eapply resumable_quiet; eassumption|].
  destruct Q as [Hh _ _ (extra & Hl & Hs)]. exists extra.
  split; [exact Hl|]. rewrite Hs, Hh. apply walk_end.
Qed.

Lemma in_order_trans c1 c2 c3 :
  in_order c1 c2 -> in_order c2 c3 -> in_order c1 c3.
Proof.
  intros (_ & e1 & L1 & W1) (Hr & e2 & L2 & W2). split; [exact Hr|].
  exists (e1 ++ e2). rewrite L2, L1, app_assoc. split; [reflexivity|].
  rewrite synced_heights_app. eapply walk_app; eassumption.
Qed.

Lemma in_order_pass w c latest :
  resumable c -> ChainIndexer.Height c < latest <= 2 ^ 63 - 1 ->
  in_order c (state_of (sync_height w c)).
Proof.
  intros [Hr Hp] Hlt.
  destruct (sync_height_log w c) as (extra & Hl & Hs).
  assert (Hsync : synced_heights
            (Info "indexer syncing" [("height", VZ (ChainIndexer.Height c))]
             :: extra) = [ChainIndexer.Height c]).
  { change (Info "indexer syncing" [("height", VZ (ChainIndexer.Height c))]
            :: extra)
      with ([Info "indexer syncing" [("height", VZ (ChainIndexer.Height c))]]
            ++ extra).
    rewrite synced_heights_app, Hs. reflexivity. }
  destruct (sync_height_cases w c)
    as [[Hh Ht]|(events & c1 & c2 & _ & _ & _ & _ & Hh & Hrun)].
  - split.
    + unfold resumable, persisted in *. rewrite Ht, Hh. auto.
    + eexists. split; [exact Hl|]. rewrite Hsync, Hh.
      apply walk_retry, walk_end.
  - assert (Hp2 : persisted (ChainIndexer.db (advanced c2))
                  = ChainIndexer.Height c).
    { rewrite persisted_advanced, Hh. apply u64_small. lia. }
    assert (Hh2 : ChainIndexer.Height (advanced c2) = ChainIndexer.Height c + 1).
    { unfold advanced. simpl. rewrite Hh. apply i64_small. lia. }
    rewrite Hrun in *. cbn [state_of] in *. split.
    + unfold resumable. rewrite Hp2, Hh2. lia.
    + eexists. split; [exact Hl|]. rewrite Hsync, Hh2.
      apply walk_next, walk_end.
Qed.

Lemma Start_in_order ticks c :
  resumable c -> in_order c (state_of (Start ticks c)).
Proof.
  intros Hr. apply (Start_rel in_order); try assumption.
  - exact in_order_quiet.
  - exact in_order_trans.
  - intros c0 c1 _ [Hr1 _]. exact Hr1.
  - exact in_order_pass.
Qed.

(** X14.  The loop takes the heights in order and skips none.  From a
    state in which the in-memory height is one above the persisted one
    (as [NewChainIndexer] leaves it), over every run of [Start], however
    it ends: the in-memory height stays one above the persisted one; the
    heights announced start at the in-memory height and each is the one
    before it or that plus one; and every height above the old persisted
    height, up to the new one, was announced. *)
Theorem heights_taken_in_order ticks c :
  resumable c ->
  let c' := state_of (Start ticks c) in
  persisted (ChainIndexer.db c') + 1 = ChainIndexer.Height c'
  /\ exists extra,
       ChainIndexer.logger c' = ChainIndexer.logger c ++ extra
       /\ walk (ChainIndexer.Height c) (synced_heights extra)
            (ChainIndexer.Height c')
       /\ (forall k, persisted (ChainIndexer.db c) < k
                     <= persisted (ChainIndexer.db c') ->
             In k (synced_heights extra))
       /\ (forall k, In k (synced_heights extra) ->
             persisted (ChainIndexer.db c) < k
             <= persisted (ChainIndexer.db c') + 1).
Proof.
  intros Hr. cbv zeta.
  destruct (Start_in_order ticks c Hr) as ([_ Hp'] & extra & Hl & W). destruct Hr as [_ Hp].
  split; [exact Hp'|]. exists extra. split; [exact Hl|]. split; [exact W|].
  destruct (walk_covers _ _ _ W) as (_ & Hcov & Hbnd). split.
  - intros k Hk. apply Hcov. lia.
  - intros k Hk. specialize (Hbnd k Hk). lia.
Qed.

(** X15.  A restart resumes where the run stopped.  Over the store that
    any run of [Start] left, however it ended, [NewChainIndexer] (the dial
    and the store answering) builds an indexer whose in-memory height is
    the one the run had when it stopped, one above the persisted height:
    the height that was in progress is taken again. *)
Theorem restart_resumes_where_stopped w lg url ticks c :
  resumable c ->
  Dial w = true -> (forall op, db_fails w op = false) ->
  let c' := state_of (Start ticks c) in
  exists c2,
    NewChainIndexer w lg (ChainIndexer.db c') url = inl c2
    /\ ChainIndexer.Height c2 = ChainIndexer.Height c'
    /\ ChainIndexer.db c2 = ChainIndexer.db c'
    /\ ChainIndexer.cli c2 <> None
    /\ resumable c2.
Proof.
  intros Hr Hd Hdb. cbv zeta.
  destruct (Start_in_order ticks c Hr) as ([Hb Hp] & _).
  unfold NewChainIndexer. rewrite Hd, !Hdb. cbv zeta. cbn [negb].
  assert (Hh : i64 (u64 (Height.Height
                 match first_pk 1 (DB.heights (ChainIndexer.db
                         (state_of (Start ticks c)))) with
                 | Some h => h
                 | None => Height.mk 1 0
                 end + 1))
               = ChainIndexer.Height (state_of (Start ticks c))).
  { rewrite <- Hp. unfold persisted in *.
    destruct (first_pk 1 _) as [h|]; cbn [Height.Height] in *;
      (rewrite u64_small by lia; rewrite i64_small by lia; reflexivity). }
  rewrite Hh. eexists. split; [reflexivity|].
  cbn [ChainIndexer.Height ChainIndexer.db ChainIndexer.cli].
  split; [reflexivity|]. split; [reflexivity|]. split; [discriminate|].
  unfold resumable. cbn [ChainIndexer.Height ChainIndexer.db].
  split; assumption.
Qed.

End InOrder.

(** ** A catch-up that meets no failure, and one that loses its client *)

Section CatchUp.
Context `{hac_types}.
Local Open Scope string_scope.
Local Open Scope list_scope.
Local Open Scope Z_scope.

Lemma handleVote_healthy w h c :
  healthy w -> ChainIndexer.cli c <> None -> 0 <= h < 2 ^ 63 ->
  exists c2, handleVote w h c = Ok None c2
             /\ ChainIndexer.cli c2 = ChainIndexer.cli c.
Proof.
  intros (Hdb & _ & Hcommit) Hc Hh.
  destruct (Hcommit h Hh) as (res & Hres & Hvh & Hall).
  assert (Hans : lookups_answer w (ResultCommit.Height res))
    by (repeat split; apply Hdb).
  assert (Hu : u64 (ResultCommit.Height res) = ResultCommit.Height res)
    by (apply u64_small; lia).
  rewrite (handleVote_reconciled w h c res Hc Hres Hans). cbv zeta.
  destruct (reconciled _ _) as [[p|g]|]; [| |exists c; auto].
  - rewrite proposal_votes_of_loop.
    destruct (loop_completes w (OpFirstProposalVote (ResultCommit.Height res))
                OpCreateProposalVote
                (proposal_vote_key (ResultCommit.Height res))
                DB.proposal_votes DB.with_proposal_votes
                (ProposalVote.mk 0 0 0 "" 0 0)
                (new_proposal_vote p (ResultCommit.Height res))
                _ c Hc Hall Hdb) as [c2 Hrun].
    exists c2. split; [exact Hrun|].
    eapply loop_success in Hrun;
      [|reflexivity|reflexivity|intros; apply key_new_proposal_vote; assumption].
    destruct Hrun as (_ & _ & Hcli & _). exact Hcli.
  - rewrite grant_votes_of_loop.
    destruct (loop_completes w (OpFirstGrantVote (ResultCommit.Height res))
                OpCreateGrantVote
                (grant_vote_key (ResultCommit.Height res))
                DB.grant_votes DB.with_grant_votes
                (GrantVote.mk 0 0 "" 0 "" 0 "" 0 0)
                (new_grant_vote g (ResultCommit.Height res))
                _ c Hc Hall Hdb) as [c2 Hrun].
    exists c2. split; [exact Hrun|].
    eapply loop_success in Hrun;
      [|reflexivity|reflexivity|intros; apply key_new_grant_vote; assumption].
    destruct Hrun as (_ & _ & Hcli & _). exact Hcli.
Qed.

(** A pass that meets no failure takes the height: it returns, with the
    client it had, the height persisted and the in-memory height one
    up. *)
Lemma healthy_pass w c latest :
  healthy w -> resumable c -> ChainIndexer.cli c <> None ->
  ChainIndexer.Height c < latest <= 2 ^ 63 - 1 ->
  exists c',
    sync_height w c = Ok tt c'
    /\ ChainIndexer.cli c' = ChainIndexer.cli c
    /\ ChainIndexer.Height c' = ChainIndexer.Height c + 1
    /\ resumable c'
    /\ exists extra,
         ChainIndexer.logger c' = ChainIndexer.logger c ++ extra
         /\ synced_heights extra = [ChainIndexer.Height c].
Proof.
  intros Hw [Hr Hp] Hc Hlt.
  destruct (sync_height_log w c) as (extra & Hl & Hs).
  assert (Hsync : synced_heights
            (Info "indexer syncing" [("height", VZ (ChainIndexer.Height c))]
             :: extra) = [ChainIndexer.Height c]).
  { change (Info "indexer syncing" [("height", VZ (ChainIndexer.Height c))]
            :: extra)
      with ([Info "indexer syncing" [("height", VZ (ChainIndexer.Height c))]]
            ++ extra).
    rewrite synced_heights_app, Hs. reflexivity. }
  revert Hl. rewrite sync_height_eq. cbv zeta.
  destruct (ChainIndexer.cli c) as [cl|] eqn:Ecli; [|congruence].
  destruct Hw as (Hdb & Hblocks & Hcommit).
  destruct (BlockResults w (ChainIndexer.Height c)) as [events|] eqn:Eb;
    [|exfalso; exact (Hblocks _ Eb)].
  destruct (dispatched_handle_txs w events (ChainIndexer.Height c) (announced c))
    as ([] & c1 & E1 & D1).
  rewrite E1.
  assert (Hc1 : ChainIndexer.cli c1 <> None).
  { rewrite (dp_cli D1). simpl. congruence. }
  destruct (handleVote_healthy w (ChainIndexer.Height c) c1
              (conj Hdb (conj Hblocks Hcommit)) Hc1) as (c2 & E2 & Hc2);
    [lia|].
  pose proof (quiet_handleVote w (ChainIndexer.Height c) c1) as Q2.
  rewrite E2 in *. cbn [state_of] in Q2. rewrite Hdb.
  assert (Hh2 : ChainIndexer.Height c2 = ChainIndexer.Height c).
  { rewrite (quiet_Height Q2), (dp_Height D1). reflexivity. }
  assert (Hst : ChainIndexer.with_Height (i64 (ChainIndexer.Height c2 + 1))
                  (ChainIndexer.with_db
                     (DB.with_heights
                        (save (Height.mk 1 (u64 (ChainIndexer.Height c))))) c2)
                = advanced c2).
  { unfold advanced. rewrite Hh2. reflexivity. }
  rewrite Hst. cbn [state_of]. intros Hl. exists (advanced c2).
  split; [reflexivity|].
  split; [simpl; rewrite Hc2, (dp_cli D1); simpl; congruence|].
  assert (Hnew : ChainIndexer.Height (advanced c2) = ChainIndexer.Height c + 1).
  { unfold advanced. simpl. rewrite Hh2. apply i64_small. lia. }
  split; [exact Hnew|]. split.
  - unfold resumable. rewrite Hnew. split; [lia|].
    rewrite persisted_advanced, Hh2, u64_small by lia. reflexivity.
  - eexists. split; [exact Hl|exact Hsync].
Qed.

Lemma catch_up_idle latest ws c :
  latest <= ChainIndexer.Height c -> catch_up latest ws c = Ok Idle c.
Proof.
  intros Hle. assert (E : (latest >? ChainIndexer.Height c) = false).
  { rewrite Z.gtb_ltb. apply Z.ltb_ge. exact Hle. }
  destruct ws; simpl; rewrite E; reflexivity.
Qed.

Lemma healthy_catch_up latest n : forall ws c,
  Forall healthy ws -> resumable c -> ChainIndexer.cli c <> None ->
  latest <= 2 ^ 63 - 1 ->
  Z.of_nat n = latest - ChainIndexer.Height c ->
  (n <= List.length ws)%nat ->
  exists c',
    catch_up latest ws c = Ok Idle c'
    /\ ChainIndexer.Height c' = latest
    /\ ChainIndexer.cli c' = ChainIndexer.cli c
    /\ resumable c'
    /\ exists extra,
         ChainIndexer.logger c' = ChainIndexer.logger c ++ extra
         /\ synced_heights extra = heights_from (ChainIndexer.Height c) n.
Proof.
  induction n as [|n IH]; intros ws c Hws Hr Hc Hlat Hn Hlen.
  - exists c. rewrite catch_up_idle by lia.
    repeat split; try (apply Hr); try lia.
    exists []. rewrite app_nil_r. split; reflexivity.
  - destruct ws as [|w ws]; [simpl in Hlen; lia|].
    inversion Hws as [|? ? Hw Hws']; subst.
    destruct (healthy_pass w c latest Hw Hr Hc)
      as (c1 & E1 & Hc1 & Hh1 & Hr1 & extra1 & Hl1 & Hs1); [lia|].
    destruct (IH ws c1 Hws' Hr1) as (c' & E & Hh & Hc' & Hr' & extra & Hl & Hs);
      [congruence|exact Hlat|lia|simpl in Hlen; lia|].
    exists c'. simpl.
    assert (Hgt : (latest >? ChainIndexer.Height c) = true)
      by (apply Z.gtb_lt; lia).
    rewrite Hgt, E1. split; [exact E|]. split; [exact Hh|].
    split; [congruence|]. split; [exact Hr'|].
    exists (extra1 ++ extra). rewrite Hl, Hl1, app_assoc.
    split; [reflexivity|].
    rewrite synced_heights_app, Hs1, Hs, Hh1. reflexivity.
Qed.

(** X16.  A tick that meets no failure brings the indexer to the head
    the status reported, and one block short of indexing it: from a state
    with a client and with the in-memory height one above the persisted
    one, when the status reports the latest height [latest] and every
    pass finds its block results, its commit and its signers and writes
    without an error, the tick takes the heights from the in-memory one
    to [latest - 1], each once and in order, and ends idle with the
    in-memory height [latest] and the persisted height [latest - 1]; the
    block [latest] waits for a tick that sees a higher head. *)
Theorem healthy_tick_catches_up w ws c latest :
  resumable c -> ChainIndexer.cli c <> None ->
  Status w = Some latest ->
  ChainIndexer.Height c <= latest < 2 ^ 63 ->
  Forall healthy ws ->
  latest - ChainIndexer.Height c <= Z.of_nat (List.length ws) ->
  exists c',
    tick w ws c = Ok Idle c'
    /\ ChainIndexer.Height c' = latest
    /\ persisted (ChainIndexer.db c') = latest - 1
    /\ ChainIndexer.cli c' = ChainIndexer.cli c
    /\ exists extra,
         ChainIndexer.logger c' = ChainIndexer.logger c ++ extra
         /\ synced_heights extra
            = heights_from (ChainIndexer.Height c)
                (Z.to_nat (latest - ChainIndexer.Height c)).
Proof.
  intros Hr Hc Hs Hlat Hws Hlen. rewrite tick_eq. cbv zeta.
  pose proof Hr as [Hr1 Hr2].
  destruct (ChainIndexer.cli c) as [cl|] eqn:Ecli; [|congruence].
  rewrite Hs. rewrite i64_small by lia.
  destruct (healthy_catch_up latest (Z.to_nat (latest - ChainIndexer.Height c))
              ws c Hws Hr) as (c' & E & Hh & Hc' & [_ Hp'] & extra & Hl & Hsy);
    [congruence|lia|lia|lia|].
  exists c'. split; [exact E|]. split; [exact Hh|]. split; [lia|].
  split; [congruence|]. exists extra. split; assumption.
Qed.

(** X17.  A reconnection that fails is survived at the top of a tick and
    not inside the catch-up loop.  With a client that is not running and
    a dial that fails: a pass whose block results cannot be fetched
    returns with no client and the heights as they were, and the next
    pass of the same tick, whatever the chain would answer, panics on the
    nil client; a tick whose status cannot be fetched ends idle with no
    client and the heights as they were, and the next tick that can dial
    goes on as a tick that had a client. *)
Theorem failed_reconnect_leaves_no_client w c :
  ChainIndexer.cli c <> None -> IsRunning w = false -> Dial w = false ->
  (BlockResults w (ChainIndexer.Height c) = None ->
   exists c1,
     sync_height w c = Ok tt c1
     /\ ChainIndexer.cli c1 = None
     /\ same_progress c c1
     /\ forall latest w2 ws,
          ChainIndexer.Height c < latest ->
          exists c2,
            catch_up latest (w :: w2 :: ws) c = Panic c2
            /\ same_progress c c2)
  /\ (Status w = None ->
      forall ws, exists c1,
        tick w ws c = Ok Idle c1
        /\ ChainIndexer.cli c1 = None
        /\ same_progress c c1
        /\ forall w' ws',
             Dial w' = true ->
             tick w' ws' c1
             = tick w' ws'
                 (ChainIndexer.with_cli
                    (Some (mkHTTP (ChainIndexer.Url c1))) c1)).
Proof.
  intros Hc Hrun Hdial. split.
  - intros Hb.
    assert (E1 : exists c1, sync_height w c = Ok tt c1
                            /\ ChainIndexer.cli c1 = None
                            /\ same_progress c c1).
    { rewrite sync_height_eq. cbv zeta.
      destruct (ChainIndexer.cli c) as [cl|]; [|congruence].
      rewrite Hb. unfold reconnect_unless_running, bind, connect, log_err,
        log, ret. rewrite Hrun, Hdial. simpl.
      eexists. split; [reflexivity|]. split; [reflexivity|].
      split; reflexivity. }
    destruct E1 as (c1 & E1 & Hc1 & Hp1). exists c1.
    split; [exact E1|]. split; [exact Hc1|]. split; [exact Hp1|].
    intros latest w2 ws Hlt. simpl.
    assert (Hgt : (latest >? ChainIndexer.Height c) = true)
      by (apply Z.gtb_lt; lia).
    rewrite Hgt, E1. destruct Hp1 as [Hh1 Ht1]. rewrite Hh1, Hgt.
    rewrite sync_height_eq. cbv zeta. rewrite Hc1.
    eexists. split; [reflexivity|]. split; simpl; assumption.
  - intros Hs ws. rewrite tick_eq. cbv beta zeta.
    destruct (ChainIndexer.cli c) as [cl|]; [|congruence].
    rewrite Hs. unfold reconnect_unless_running, bind, connect, log_err,
      log, ret. rewrite Hrun, Hdial. simpl.
    eexists. split; [reflexivity|]. split; [reflexivity|].
    split; [split; reflexivity|].
    intros w' ws' Hd. rewrite !tick_eq. cbv zeta. simpl. rewrite Hd.
    reflexivity.
Qed.

End CatchUp.

(** ** Events that are lost *)

Section LostEvents.
Context `{hac_types}.
Local Open Scope string_scope.
Local Open Scope list_scope.
Local Open Scope Z_scope.

Lemma same_store_refl c : same_store c c.
Proof. repeat split. Qed.

Lemma same_store_trans c1 c2 c3 :
  same_store c1 c2 -> same_store c2 c3 -> same_store c1 c3.
Proof. intros (A1 & A2 & A3) (B1 & B2 & B3). repeat split; congruence. Qed.

Lemma same_store_log e : runs same_store (log e).
Proof. intros c. eexists tt, _. split; [reflexivity|]. repeat split. Qed.

Lemma same_store_log_err msg err : runs same_store (log_err msg err).
Proof.
  destruct err; simpl; [apply same_store_log|].
  apply runs_ret, same_store_refl.
Qed.

Lemma same_store_refused w op f :
  db_fails w op = true -> runs same_store (db_exec w op f).
Proof.
  intros F c. unfold db_exec. rewrite F. eexists _, c.
  split; [reflexivity|apply same_store_refl].
Qed.

Section Refused.
Variable w : World.
Hypothesis Hw : refuses_events w.

Ltac refused :=
  repeat first
    [ apply (runs_ret _ same_store_refl)
    | apply (runs_db_first _ same_store_refl)
    | apply (runs_bind _ same_store_trans); [|intros]
    | apply same_store_log_err
    | apply same_store_log
    | apply same_store_refused; apply Hw
    | match goal with
      | |- runs _ (match ?x with _ => _ end) => destruct x
      | |- runs _ (if ?x then _ else _) => destruct x
      | |- runs _ (let (_, _) := ?x in _) => destruct x
      end ].

Lemma refused_handleEvent e h : runs same_store (handleEvent w e h).
Proof.
  unfold handleEvent, eventHandlers. cbn [lookup_handler].
  repeat match goal with
         | |- context [if ?b then _ else _] => destruct b
         end;
    unfold handleEventGrant, handleEventDiscussion, handleEventSettleProposal,
      handleEventProposal, decode_fail;
    refused.
Qed.

Lemma refused_handle_txs txs h : runs same_store (handle_txs w txs h).
Proof.
  assert (Hev : forall es, runs same_store (handle_events w es h)).
  { induction es as [|e es IH]; simpl.
    - apply runs_ret, same_store_refl.
    - apply runs_bind; [apply same_store_trans|apply refused_handleEvent|auto]. }
  induction txs as [|es txs IH]; simpl.
  - apply runs_ret, same_store_refl.
  - apply runs_bind; [apply same_store_trans|apply Hev|auto].
Qed.

End Refused.

(** X18.  A settlement that finds no record of its proposal is dropped:
    the handler logs [get proposal fail] with the not-found error and
    returns, the store is as it was, and no record is made for the
    proposal. *)
Theorem settlement_without_record_is_dropped w event height c ev :
  DecodeEventSettleProposal event = Some ev ->
  db_fails w (OpFirstProposal (EventSettleProposal.Proposal ev)) = false ->
  (forall p, In p (DB.proposals (ChainIndexer.db c)) ->
             Proposal.Id p <> EventSettleProposal.Proposal ev) ->
  let c' := ChainIndexer.with_log
              (Error "get proposal fail" [("err", VErr ErrRecordNotFound)]) c in
  handleEventSettleProposal w event height c = Ok tt c'
  /\ ChainIndexer.db c' = ChainIndexer.db c
  /\ first_pk (EventSettleProposal.Proposal ev)
       (DB.proposals (ChainIndexer.db c')) = None.
Proof.
  intros Hdec F Hno c'.
  assert (Hnone : first_pk (EventSettleProposal.Proposal ev)
                    (DB.proposals (ChainIndexer.db c)) = None).
  { destruct (first_pk _ _) as [p|] eqn:E; [|reflexivity].
    apply first_pk_Some in E. destruct E as [Hin Hp].
    exfalso. exact (Hno p Hin Hp). }
  split; [|split; [reflexivity|exact Hnone]].
  unfold handleEventSettleProposal. rewrite Hdec.
  unfold bind, db_first. rewrite F, Hnone. reflexivity.
Qed.

(** X19.  An event whose write fails is lost for good.  In a pass whose
    store refuses the writes of the event handlers while the rest goes
    well (the block results and the commit are fetched, the lookups of
    [handleVote] answer and find nothing to reconcile, the height is
    written), the pass leaves the validators, proposals, grants and
    discussions as they were and still takes the height: it is persisted
    and the in-memory height moves past it, so the events of the block
    are not handled again. *)
Theorem failed_event_writes_are_not_retried w c events res :
  resumable c -> ChainIndexer.Height c < 2 ^ 63 - 1 ->
  ChainIndexer.cli c <> None ->
  BlockResults w (ChainIndexer.Height c) = Some events ->
  refuses_events w ->
  Commit w (ChainIndexer.Height c) = Some res ->
  lookups_answer w (ResultCommit.Height res) ->
  reconciled (ChainIndexer.db c) (ResultCommit.Height res) = None ->
  db_fails w (OpSaveHeight (Height.mk 1 (u64 (ChainIndexer.Height c)))) = false ->
  exists c',
    sync_height w c = Ok tt c'
    /\ persisted (ChainIndexer.db c') = ChainIndexer.Height c
    /\ ChainIndexer.Height c' = ChainIndexer.Height c + 1
    /\ DB.validators (ChainIndexer.db c') = DB.validators (ChainIndexer.db c)
    /\ DB.proposals (ChainIndexer.db c') = DB.proposals (ChainIndexer.db c)
    /\ DB.grants (ChainIndexer.db c') = DB.grants (ChainIndexer.db c)
    /\ DB.discussions (ChainIndexer.db c')
       = DB.discussions (ChainIndexer.db c).
Proof.
  intros [Hr Hp] Hlt Hc Hb Hw Hres Hans Hrec Hsave.
  rewrite sync_height_eq. cbv zeta.
  destruct (ChainIndexer.cli c) as [cl|] eqn:Ecli; [|congruence].
  rewrite Hb.
  destruct (refused_handle_txs w Hw events (ChainIndexer.Height c) (announced c))
    as ([] & c1 & E1 & Hdb1 & Hcli1 & Hh1).
  rewrite E1. simpl in Hdb1, Hcli1, Hh1.
  assert (Hc1 : ChainIndexer.cli c1 <> None) by congruence.
  rewrite (handleVote_reconciled w (ChainIndexer.Height c) c1 res Hc1 Hres
             Hans).
  cbv zeta. rewrite Hdb1, Hrec, Hsave.
  eexists. split; [reflexivity|].
  assert (Hst : ChainIndexer.with_Height (i64 (ChainIndexer.Height c1 + 1))
                  (ChainIndexer.with_db
                     (DB.with_heights
                        (save (Height.mk 1 (u64 (ChainIndexer.Height c))))) c1)
                = advanced c1).
  { unfold advanced. rewrite Hh1. reflexivity. }
  rewrite Hst. split.
  - rewrite persisted_advanced, Hh1. apply u64_small. lia.
  - split.
    + unfold advanced. simpl. rewrite Hh1. apply i64_small. lia.
    + unfold advanced. simpl. rewrite Hdb1. repeat split.
Qed.

End LostEvents.

(** ** The sample chain: instances and counterexamples *)

Section ClaimWitnesses.
Import Sample.

Lemma height_written_after_reconciliation_witness :
  same_progress (indexer 100 DB.empty)
    (state_of (sync_height (chain 101 blocks 2) (indexer 100 DB.empty)))
  /\ persisted (ChainIndexer.db
       (state_of (sync_height (chain 101 blocks 2) (indexer 100 DB.empty))))
     = persisted (ChainIndexer.db (indexer 100 DB.empty)).
Proof.
  pose (w := chain 101 blocks 2). pose (c := indexer 100 DB.empty).
  pose (c1 := state_of (handle_txs w [blocks 100] 100 (announced c))).
  apply (proj2 (height_written_after_reconciliation w c) [blocks 100] c1).
  - discriminate.
  - reflexivity.
  - vm_compute. reflexivity.
  - left. exists ErrResponseCode, (state_of (handleVote w 100 c1)).
    vm_compute. reflexivity.
Defined.

Lemma vote_reconciliation_idempotent_witness :
  handleVote (chain 101 blocks 3) 100
    (state_of (handleVote (chain 101 blocks 3) 100 (indexer 100 db7)))
  = Ok None (state_of (handleVote (chain 101 blocks 3) 100 (indexer 100 db7))).
Proof.
  apply (vote_reconciliation_idempotent (chain 101 blocks 3) 100
           (indexer 100 db7) _ (ResultCommit.mk 100 sigs)).
  - reflexivity.
  - simpl. lia.
  - vm_compute. reflexivity.
Defined.

Lemma reconciliation_priority_witness :
  exists p,
    (In p (DB.proposals db7) /\ Proposal.NewHeight p = 100)
    /\ handleVote (chain 101 blocks 3) 100 (indexer 100 db7)
       = proposal_votes_of (chain 101 blocks 3) (Proposal.Id p) 100 sigs
           (indexer 100 db7).
Proof.
  destruct (reconciliation_priority (chain 101 blocks 3) 100 (indexer 100 db7)
              (ResultCommit.mk 100 sigs)) as [Hcreated _].
  - discriminate.
  - reflexivity.
  - repeat split.
  - split; repeat constructor. discriminate.
  - destruct Hcreated as (p & Hp & Hrun & _).
    + exists proposal7. simpl. auto.
    + exists p. auto.
Defined.

(** The proposal with a blank key, created at height 100. *)
Lemma blank_key_taken_for_no_record_witness :
  let d := DB.with_proposals (fun _ => [Proposal.mk 0 3 "" "" 100 0 1]) DB.empty in
  handleVote (chain 101 blocks 3) 100 (indexer 100 d) = Ok None (indexer 100 d).
Proof.
  intros d.
  apply (blank_key_taken_for_no_record (chain 101 blocks 3) 100 (indexer 100 d)
           (ResultCommit.mk 100 sigs)).
  - discriminate.
  - reflexivity.
  - repeat split.
  - intros p Hp. vm_compute in Hp. inversion Hp. reflexivity.
  - intros p Hp. vm_compute in Hp. discriminate.
  - intros g Hg. vm_compute in Hg. discriminate.
Defined.

(** C4, as the claim states it, fails at a height with nothing to
    reconcile: the commit of block 100 holds a signature of the address 03,
    which the chain does not know, and yet reconciliation returns success
    and the pass advances the persisted height to 100. *)
Lemma unresolved_signer_ignored_without_record :
  let w := chain 101 no_events 2 in
  let c := indexer 100 DB.empty in
  Commit w 100 = Some (ResultCommit.mk 100 sigs)
  /\ Exists (fun v => lookup w (signer v) = Unknown ErrResponseCode) sigs
  /\ handleVote w 100 c = Ok None c
  /\ persisted (ChainIndexer.db c) = 0
  /\ persisted (ChainIndexer.db (state_of (sync_height w c))) = 100.
Proof.
  cbv zeta. split; [reflexivity|]. split.
  - apply Exists_cons_tl, Exists_cons_tl, Exists_cons_hd. reflexivity.
  - repeat split; vm_compute; reflexivity.
Defined.

Lemma unresolved_signer_fails_pending_height_witness :
  exists e c1,
    handleVote (chain 101 blocks 2) 100 (indexer 100 db7) = Ok (Some e) c1
    /\ exists c2,
         handleVote (chain 101 blocks 3) 100 c1 = Ok None c2
         /\ Forall (fun v => exists acc,
                      lookup (chain 101 blocks 3) (signer v) = Known acc
                      /\ has_vote (ChainIndexer.db c2) (inl 7) 100
                           (Account.Index acc)) sigs.
Proof.
  destruct (unresolved_signer_fails_pending_height (chain 101 blocks 2) 100
              (indexer 100 db7) (ResultCommit.mk 100 sigs) (inl 7))
    as (e & c1 & Hrun & _ & Hc1 & Hk1 & Hretry).
  - discriminate.
  - reflexivity.
  - simpl. lia.
  - repeat split.
  - reflexivity.
  - repeat constructor; discriminate.
  - apply Exists_cons_tl, Exists_cons_tl, Exists_cons_hd.
    exists ErrResponseCode. reflexivity.
  - exists e, c1. split; [exact Hrun|].
    apply (Hretry (chain 101 blocks 3) c1 Hc1 Hk1).
    + reflexivity.
    + reflexivity.
    + repeat constructor; eexists; reflexivity.
Defined.

Lemma rpc_error_then_nil_dereference_witness :
  exists c', tick (unreachable true) [] (indexer 100 DB.empty) = Panic c'.
Proof.
  apply (rpc_error_then_nil_dereference (unreachable true)
           (indexer 100 DB.empty)).
  - discriminate.
  - left. reflexivity.
  - reflexivity.
Defined.

(** C6, as the claim states it, fails: block 100 creates proposal 7, the
    first pass over it cannot resolve the signer 03 and reconciliation
    returns an error; the same tick runs a second pass over 100, which
    succeeds, and the tick ends with the persisted height at 100. *)
Lemma failed_height_retried_at_once :
  let bad := chain 101 blocks 2 in
  let good := chain 101 blocks 3 in
  let c := indexer 100 DB.empty in
  let c1 := state_of (handle_txs bad [blocks 100] 100 (announced c)) in
  (exists c2, handleVote bad 100 c1 = Ok (Some ErrResponseCode) c2)
  /\ exists c',
       tick good [bad; good] c = Ok Idle c'
       /\ synced_heights (ChainIndexer.logger c') = [100; 100]
       /\ persisted (ChainIndexer.db c) = 0
       /\ persisted (ChainIndexer.db c') = 100.
Proof.
  cbv zeta. split.
  - eexists. vm_compute. reflexivity.
  - eexists. split; [vm_compute; reflexivity|].
    repeat split; vm_compute; reflexivity.
Defined.

Lemma failed_pass_retried_in_same_tick_witness :
  exists c',
    sync_height (chain 101 blocks 2) (indexer 100 DB.empty) = Ok tt c'
    /\ ChainIndexer.Height c' = 100.
Proof.
  pose (w := chain 101 blocks 2). pose (c := indexer 100 DB.empty).
  pose (c1 := state_of (handle_txs w [blocks 100] 100 (announced c))).
  destruct (failed_pass_retried_in_same_tick w c [blocks 100] c1 101)
    as (c' & Hok & Hh & _).
  - discriminate.
  - simpl. lia.
  - reflexivity.
  - vm_compute. reflexivity.
  - left. exists ErrResponseCode, (state_of (handleVote w 100 c1)).
    vm_compute. reflexivity.
  - exists c'. split; [exact Hok|exact Hh].
Defined.





(** A store that was left at height 99. *)
Lemma progress_monotone_from_resume_point_witness :
  let w := chain 101 blocks 3 in
  let file := DB.with_heights (fun _ => [Height.mk 1 99]) DB.empty in
  let c := indexer 100 file in
  NewChainIndexer w [] file "tcp://localhost:26657" = inl c
  /\ persisted file <= persisted (ChainIndexer.db (state_of (Start [(w, [w])] c))).
Proof.
  intros w file c.
  assert (Hnew : NewChainIndexer w [] file "tcp://localhost:26657" = inl c)
    by reflexivity.
  split; [exact Hnew|].
  destruct (progress_monotone_from_resume_point w [] file
              "tcp://localhost:26657" c Hnew) as [_ Hall].
  - vm_compute. split; [discriminate|reflexivity].
  - destruct (Hall [(w, [w])] []) as [Hn _]. exact Hn.
Defined.

End ClaimWitnesses.

(** ** The sample chain: instances of the further properties *)

Section FurtherWitnesses.
Import Sample.
Local Open Scope string_scope.
Local Open Scope list_scope.
Local Open Scope Z_scope.

Ltac distinct_keys :=
  vm_compute; repeat (constructor; [simpl; intuition discriminate|]);
  constructor.

(** The store after the pass over block 100, in which proposal 7 is
    created and three validators sign. *)
Lemma getters_return_pages_witness :
  let d := ChainIndexer.db
             (state_of (sync_height (chain 101 blocks 3)
                          (indexer 100 DB.empty))) in
  is_listing (getProposalVotesByProposal (fun _ => false) d 7 0 2)
    (filter (fun v => ProposalVote.Proposal v =? 7) (DB.proposal_votes d)) 0 2.
Proof.
  intros d.
  apply (getters_return_pages (fun _ => false) d 0 2 "" 7);
    first [ reflexivity | discriminate | distinct_keys ].
Defined.

Lemma pages_hold_every_row_once_witness :
  let d := ChainIndexer.db
             (state_of (sync_height (chain 101 blocks 3)
                          (indexer 100 DB.empty))) in
  Permutation
    (pages_listed
       (fun page => getProposalVotesByProposal (fun _ => false) d 7 page 2) 2)
    (filter (fun v => ProposalVote.Proposal v =? 7) (DB.proposal_votes d)).
Proof.
  intros d.
  apply (pages_hold_every_row_once (fun _ => false) d 2 2 "" 7);
    first [ reflexivity | vm_compute; discriminate ].
Defined.

Lemma undecodable_event_dropped_witness :
  exists c',
    handleEvent (chain 101 blocks 3) (Event.mk "grant" []) 100
      (indexer 100 db7) = Ok tt c'
    /\ ChainIndexer.db c' = db7.
Proof.
  destruct (undecodable_event_dropped (chain 101 blocks 3)
              (Event.mk "grant" []) [] 100 (indexer 100 db7))
    as (c' & Hrun & Hdb & _); try reflexivity.
  exists c'. split; [exact Hrun|exact Hdb].
Defined.

Lemma grant_event_overwrites_grant_record_witness :
  exists c',
    handleEventGrant (chain 101 blocks 3) (ev_grant "5" "10") 100
      (indexer 100 DB.empty) = Ok tt c'
    /\ first_pk 5 (DB.grants (ChainIndexer.db c'))
       = Some (Grant.mk 5 "AA" 100 10 1 "" true).
Proof.
  destruct (grant_event_overwrites_grant_record (chain 101 blocks 3)
              (ev_grant "5" "10") 100 (indexer 100 DB.empty)
              (EventGrant.mk 5 "AA" 10 1 "" true ""))
    as (c' & Hrun & Hrow & _);
    first [ reflexivity | discriminate | idtac ].
  exists c'. split; [exact Hrun|exact Hrow].
Defined.

Lemma getters_by_id_return_last_write_witness :
  getProposalById (fun _ => false)
    (ChainIndexer.db (state_of
       (handleEventProposal (chain 101 blocks 3) (ev_proposal "7") 100
          (indexer 100 DB.empty)))) 7
  = (proposal7, None).
Proof.
  apply (proj1 (getters_by_id_return_last_write (fun _ => false)
                  (chain 101 blocks 3) (ev_proposal "7") 100
                  (indexer 100 DB.empty) (fun _ => eq_refl) (fun _ => eq_refl))
           (EventProposal.mk 7 3 "" "" 1));
    first [ reflexivity | discriminate ].
Defined.

Lemma discussion_event_appends_newest_first_witness :
  exists c',
    handleEventDiscussion (chain 101 blocks 3) (ev_discussion "7" "hello") 100
      (indexer 100 db7) = Ok tt c'
    /\ DB.discussions (ChainIndexer.db c')
       = [Discussion.mk 1 7 2 "" "hello" 100].
Proof.
  destruct (discussion_event_appends_newest_first (fun _ => false)
              (chain 101 blocks 3) (ev_discussion "7" "hello") 100
              (indexer 100 db7) (EventDiscussion.mk 7 2 "" "hello"))
    as (c' & Hrun & Hrows & _); try reflexivity.
  exists c'. split; [exact Hrun|exact Hrows].
Defined.

Lemma proposal_event_reconciled_at_its_height_witness :
  exists id,
    reconciled
      (ChainIndexer.db (state_of
         (handleEventProposal (chain 101 blocks 3) (ev_proposal "7") 100
            (indexer 100 DB.empty)))) 100
    = Some (inl id)
    /\ id <> 0.
Proof.
  destruct (proposal_event_reconciled_at_its_height (chain 101 blocks 3)
              (ev_proposal "7") 100 (indexer 100 DB.empty)
              (EventProposal.mk 7 3 "" "" 1))
    as (id & Hrec & Hid & _);
    first [ reflexivity | discriminate | lia | split; constructor | idtac ].
  exists id. split; [exact Hrec|exact Hid].
Defined.

Lemma account_key_round_trip_witness :
  account_key 7 (HexBytes_String [171; 205]) = inl [171; 205]
  /\ exists dat, account_key 4660 "" = inl dat /\ big_endian dat = 4660.
Proof.
  destruct (account_key_round_trip 7) as (Haddr & _).
  destruct (account_key_round_trip 4660) as (_ & Hindex & _).
  split.
  - apply Haddr; [|discriminate].
    repeat constructor; unfold is_byte; lia.
  - destruct Hindex as (dat & _ & Hkey & _ & _ & Hval); [lia|].
    exists dat. split; [exact Hkey|exact Hval].
Defined.

Lemma queryAccount_account_or_error_witness :
  queryAccount offline 0 "zz" (indexer 100 DB.empty)
  = Ok (None, Some ErrInvalidHex) (indexer 100 DB.empty).
Proof.
  apply (proj2 (queryAccount_account_or_error offline 0 "zz"
                  (indexer 100 DB.empty)));
    [discriminate|reflexivity].
Defined.

(** The validator at the address 03 is not an account of the chain: the
    height fails with the error of the query. *)
Lemma handleVote_never_reports_unknown_signer_witness :
  handleVote (chain 101 blocks 2) 100 (indexer 100 db7)
  = Ok (Some ErrResponseCode)
      (state_of (handleVote (chain 101 blocks 2) 100 (indexer 100 db7)))
  /\ ErrResponseCode <> ErrSigAddress "03".
Proof.
  assert (Hrun : handleVote (chain 101 blocks 2) 100 (indexer 100 db7)
                 = Ok (Some ErrResponseCode)
                     (state_of (handleVote (chain 101 blocks 2) 100
                                  (indexer 100 db7)))).
  { vm_compute. reflexivity. }
  split; [exact Hrun|].
  exact (handleVote_never_reports_unknown_signer (chain 101 blocks 2) 100
           (indexer 100 db7) ErrResponseCode _ Hrun "03").
Defined.

Lemma indexer_keeps_keys_unique_witness :
  let c' := state_of (Start [(chain 102 blocks 3,
                              [chain 102 blocks 3; chain 102 blocks 3])]
                        (indexer 100 DB.empty)) in
  unique_db (ChainIndexer.db c') /\ keyed (ChainIndexer.db c').
Proof.
  apply (indexer_keeps_keys_unique
           [(chain 102 blocks 3, [chain 102 blocks 3; chain 102 blocks 3])]
           (indexer 100 DB.empty)).
  - repeat split; constructor.
  - split; constructor.
Defined.

Lemma heights_taken_in_order_witness :
  let c := indexer 1 DB.empty in
  let c' := state_of (Start [(chain 3 no_events 3,
                              [chain 3 no_events 3; chain 3 no_events 3])] c) in
  persisted (ChainIndexer.db c') + 1 = ChainIndexer.Height c'.
Proof.
  intros c c'.
  apply (heights_taken_in_order
           [(chain 3 no_events 3, [chain 3 no_events 3; chain 3 no_events 3])]
           c).
  split; [simpl; lia|reflexivity].
Defined.

Lemma healthy_tick_catches_up_witness :
  exists c',
    tick (chain 3 no_events 3) [chain 3 no_events 3; chain 3 no_events 3]
      (indexer 1 DB.empty) = Ok Idle c'
    /\ ChainIndexer.Height c' = 3
    /\ persisted (ChainIndexer.db c') = 2.
Proof.
  assert (Hw : healthy (chain 3 no_events 3)).
  { split; [reflexivity|]. split; [discriminate|].
    intros h Hh. exists (ResultCommit.mk h sigs). split; [reflexivity|].
    split; [exact Hh|].
    repeat constructor;
      [exists (Account.mk 1 "01")|exists (Account.mk 2 "02")
      |exists (Account.mk 3 "03")]; reflexivity. }
  destruct (healthy_tick_catches_up (chain 3 no_events 3)
              [chain 3 no_events 3; chain 3 no_events 3]
              (indexer 1 DB.empty) 3)
    as (c' & Hrun & Hh & Hp & _).
  - split; [simpl; lia|reflexivity].
  - discriminate.
  - reflexivity.
  - simpl. lia.
  - constructor; [exact Hw|constructor; [exact Hw|constructor]].
  - simpl. lia.
  - exists c'. auto.
Defined.

Lemma failed_reconnect_leaves_no_client_witness :
  exists c1,
    sync_height offline (indexer 100 DB.empty) = Ok tt c1
    /\ ChainIndexer.cli c1 = None
    /\ exists c2,
         catch_up 102 [offline; chain 102 blocks 3] (indexer 100 DB.empty)
         = Panic c2.
Proof.
  destruct (failed_reconnect_leaves_no_client offline (indexer 100 DB.empty))
    as [Hpass _]; first [ reflexivity | discriminate | idtac ].
  destruct Hpass as (c1 & Hrun & Hcli & _ & Hnext); [reflexivity|].
  exists c1. split; [exact Hrun|]. split; [exact Hcli|].
  destruct (Hnext 102 (chain 102 blocks 3) []) as (c2 & Hpanic & _);
    [simpl; lia|].
  exists c2. exact Hpanic.
Defined.

Lemma restart_resumes_where_stopped_witness :
  let c' := state_of (Start [(chain 3 no_events 3, [chain 3 no_events 2])]
                        (indexer 1 DB.empty)) in
  exists c2,
    NewChainIndexer (chain 3 no_events 3) [] (ChainIndexer.db c')
      "tcp://localhost:26657" = inl c2
    /\ ChainIndexer.Height c2 = ChainIndexer.Height c'.
Proof.
  intros c'.
  destruct (restart_resumes_where_stopped (chain 3 no_events 3) []
              "tcp://localhost:26657"
              [(chain 3 no_events 3, [chain 3 no_events 2])]
              (indexer 1 DB.empty))
    as (c2 & Hnew & Hh & _).
  - split; [simpl; lia|reflexivity].
  - reflexivity.
  - reflexivity.
  - exists c2. split; [exact Hnew|exact Hh].
Defined.

Lemma settlement_without_record_is_dropped_witness :
  handleEventSettleProposal (chain 151 blocks 3) (ev_settle "7" "2") 150
    (indexer 150 DB.empty)
  = Ok tt (ChainIndexer.with_log
             (Error "get proposal fail" [("err", VErr ErrRecordNotFound)])
             (indexer 150 DB.empty)).
Proof.
  apply (settlement_without_record_is_dropped (chain 151 blocks 3)
           (ev_settle "7" "2") 150 (indexer 150 DB.empty)
           (EventSettleProposal.mk 7 2)).
  - reflexivity.
  - reflexivity.
  - intros p [].
Defined.

(** Block 100 holds the creation of proposal 7; its write is refused. *)
Lemma failed_event_writes_are_not_retried_witness :
  let w := chain_refusing_events 101 blocks 3 in
  let c := indexer 100
             (DB.with_heights (fun _ => [Height.mk 1 99]) DB.empty) in
  exists c',
    sync_height w c = Ok tt c'
    /\ persisted (ChainIndexer.db c') = 100
    /\ DB.proposals (ChainIndexer.db c') = [].
Proof.
  intros w c.
  destruct (failed_event_writes_are_not_retried w c [blocks 100]
              (ResultCommit.mk 100 sigs))
    as (c' & Hrun & Hp & _ & _ & Hprops & _).
  - split; [simpl; lia|reflexivity].
  - reflexivity.
  - discriminate.
  - reflexivity.
  - repeat split.
  - reflexivity.
  - repeat split.
  - reflexivity.
  - reflexivity.
  - exists c'. split; [exact Hrun|]. split; [exact Hp|exact Hprops].
Defined.

End FurtherWitnesses.
